(** * dalloc: the kernel's first-fit dynamic memory allocator

    A shallow embedding of [src/kernel/dalloc.c] ([dinit], [dalloc],
    [coalesce_blocks], [dfree]) with the properties of the heap it
    manages, of the tests that exercise it in [src/kernel/memtest.c]
    ([basic_test], [boundary_test], [rand], [srand], [random_test],
    [stress_test], [my_strcpy], [cmp], [overwrite_test], [memtest]), and of
    [print_int] in [src/user/proctest.c].

    Block headers live inside the managed region and are linked by raw
    addresses, so the heap is modelled as a store of headers indexed by
    address: two pointers that are equal denote the same header, and a
    write through one is seen through the other.  A header is 16 bytes and
    every header address the allocator forms is the heap base plus a
    multiple of 16, so two headers coincide or are disjoint.  The
    allocator reads and writes headers only; the bytes the tests store
    and read are kept in a second store, with the rule that a write in
    one store makes what it covers in the other unknown.

    [unsigned] arithmetic wraps modulo 2^32 and pointer arithmetic modulo
    2^64.  The loops of the source walk the store through [next]; they are
    given fuel, and a call whose loop outlives every amount of fuel is a
    call that does not return. *)

From Stdlib Require Import ZArith Lia.
From stdpp Require Import gmap list strings.

Local Open Scope Z_scope.

(** ** Machine integers *)

(** [unsigned] is 32 bits wide, pointers and [uint64] are 64 bits wide. *)
Definition wrap32 (x : Z) : Z := x mod 2 ^ 32.
Definition wrap64 (x : Z) : Z := x mod 2 ^ 64.

Definition ALIGNMENT_SIZE : Z := 16.
Definition HEADER_SIZE : Z := 16.

(** [(x + (ALIGNMENT_SIZE - 1)) & ~(ALIGNMENT_SIZE - 1)] on [unsigned x]:
    the addition wraps, and the [int] mask [~15] is converted to
    [unsigned] before the bitwise and. *)
Definition align_up (x : Z) : Z :=
  Z.land (wrap32 (x + (ALIGNMENT_SIZE - 1)))
         (wrap32 (Z.lnot (ALIGNMENT_SIZE - 1))).

(** Lines 70 and 73 of [dalloc]: the requirement used by the fit test. *)
Definition required_size (size : Z) : Z :=
  align_up (wrap32 (size + HEADER_SIZE)).

(** The exact, unbounded rounding the specification speaks of. *)
Definition round_up (x k : Z) : Z := (x + k - 1) / k * k.

(** ** Data model *)

(** [struct dheader].  [used] only ever holds 0 or 1; [next] is an address,
    0 being the null pointer. *)
Record dheader : Type := Dheader {
  data_size : Z;
  used : bool;
  next : Z
}.

(** The global [dmem] together with the headers stored in memory.  The
    spinlock is reduced to the flag saying whether it is held. *)
Record dmem_t : Type := Dmem {
  lock : bool;
  start : Z;
  mem : gmap Z dheader
}.

Definition acquire (s : dmem_t) : dmem_t :=
  {| lock := true; start := start s; mem := mem s |}.
Definition release (s : dmem_t) : dmem_t :=
  {| lock := false; start := start s; mem := mem s |}.
Definition with_mem (m : gmap Z dheader) (s : dmem_t) : dmem_t :=
  {| lock := lock s; start := start s; mem := m |}.

(** Writes to one field of the header stored at address [a]. *)
Definition set_data_size (a v : Z) (m : gmap Z dheader) : gmap Z dheader :=
  alter (fun h => {| data_size := v; used := used h; next := next h |}) a m.
Definition set_used (a : Z) (b : bool) (m : gmap Z dheader) : gmap Z dheader :=
  alter (fun h => {| data_size := data_size h; used := b; next := next h |}) a m.
Definition set_next (a n : Z) (m : gmap Z dheader) : gmap Z dheader :=
  alter (fun h => {| data_size := data_size h; used := used h; next := n |}) a m.

(** The two messages [dfree] passes to [panic]. *)
Inductive panic_msg : Type :=
| MisalignedAddress   (* "dfree: Address is not properly aligned." *)
| UnknownAddress.     (* "dfree: Invalid address." *)

(** How a call ends: it returns, it panics (the kernel halts in the given
    state), it dereferences an address where no header was ever written, or
    its loop is still running when the fuel is spent. *)
Inductive result (A : Type) : Type :=
| Ret (a : A)
| Panic (msg : panic_msg) (s : dmem_t)
| Fault
| Diverge.
Arguments Ret {A} a.
Arguments Panic {A} msg s.
Arguments Fault {A}.
Arguments Diverge {A}.

(** ** The operations *)

(** [PHYSTOP] (memlayout.h) and [HEAP_SIZE] (param.h) are not part of the
    sources at hand; they are parameters of the development. *)
Definition heap_base (PHYSTOP HEAP_SIZE : Z) : Z := wrap64 (PHYSTOP - HEAP_SIZE).

(** [dinit]: one free block covering the whole region. *)
Definition dinit (PHYSTOP HEAP_SIZE : Z) (s : dmem_t) : dmem_t :=
  let base := heap_base PHYSTOP HEAP_SIZE in
  {| lock := false;
     start := base;
     mem := <[base := {| data_size := wrap32 (HEAP_SIZE - HEADER_SIZE);
                         used := false;
                         next := 0 |}]> (mem s) |}.

(** Lines 84-97 of [dalloc]: the block at [curr], whose header reads [c],
    has been selected. *)
Definition take_block (size required : Z) (curr : Z) (c : dheader)
    (m : gmap Z dheader) : gmap Z dheader :=
  let m :=
    if required <? data_size c then
      let new_block := wrap64 (curr + required) in
      (* the three fields of the new header, read off [curr] before
         [curr] itself is updated *)
      let m := <[new_block := {| data_size := wrap32 (data_size c - required);
                                 used := false;
                                 next := next c |}]> m in
      let m := set_data_size curr (align_up size) m in
      set_next curr new_block m
    else m in
  set_used curr true m.

(** The [while] loop of [dalloc], from [curr] on. *)
Fixpoint dalloc_scan (fuel : nat) (size required : Z) (s : dmem_t) (curr : Z)
    : result (dmem_t * Z) :=
  match fuel with
  | O => Diverge
  | S fuel =>
    if curr =? 0 then Ret (release s, 0)
    else
      match mem s !! curr with
      | None => Fault
      | Some c =>
        if negb (used c) && (required <=? data_size c) then
          Ret (release (with_mem (take_block size required curr c (mem s)) s),
               wrap64 (curr + HEADER_SIZE))
        else dalloc_scan fuel size required s (next c)
      end
  end.

Definition dalloc (fuel : nat) (size : Z) (s : dmem_t) : result (dmem_t * Z) :=
  let required := required_size size in
  let s := acquire s in
  dalloc_scan fuel size required s (start s).

(** The [while] loop of [coalesce_blocks], from [curr] on.  The test
    [!curr->used && !curr->next->used] reads the successor only when
    [curr] is free. *)
Fixpoint coalesce_loop (fuel : nat) (m : gmap Z dheader) (curr : Z)
    : result (gmap Z dheader) :=
  match fuel with
  | O => Diverge
  | S fuel =>
    if curr =? 0 then Ret m
    else
      match m !! curr with
      | None => Fault
      | Some c =>
        if next c =? 0 then Ret m
        else if used c then coalesce_loop fuel m (next c)
        else
          match m !! next c with
          | None => Fault
          | Some n =>
            if used n then coalesce_loop fuel m (next c)
            else
              let m := set_data_size curr
                         (wrap32 (data_size c + wrap32 (data_size n + HEADER_SIZE))) m in
              let m := set_next curr (next n) m in
              coalesce_loop fuel m curr
          end
      end
  end.

Definition coalesce_blocks (fuel : nat) (s : dmem_t) : result dmem_t :=
  match coalesce_loop fuel (mem s) (start s) with
  | Ret m => Ret (with_mem m s)
  | Panic msg s' => Panic msg s'
  | Fault => Fault
  | Diverge => Diverge
  end.

(** The [while] loop of [dfree], from [curr] on; [cfuel] is the fuel handed
    to the nested [coalesce_blocks]. *)
Fixpoint dfree_scan (fuel cfuel : nat) (block_header : Z) (s : dmem_t) (curr : Z)
    : result dmem_t :=
  match fuel with
  | O => Diverge
  | S fuel =>
    if curr =? 0 then Panic UnknownAddress (release s)
    else if curr =? block_header then
      match mem s !! curr with
      | None => Fault
      | Some _ =>
        match coalesce_blocks cfuel (with_mem (set_used curr false (mem s)) s) with
        | Ret s => Ret (release s)
        | r => r
        end
      end
    else
      match mem s !! curr with
      | None => Fault
      | Some c => dfree_scan fuel cfuel block_header s (next c)
      end
  end.

Definition dfree (fuel : nat) (addr : Z) (s : dmem_t) : result dmem_t :=
  let block_header := wrap64 (addr - HEADER_SIZE) in
  if negb (block_header mod ALIGNMENT_SIZE =? 0) then Panic MisalignedAddress s
  else
    let s := acquire s in
    dfree_scan fuel fuel block_header s (start s).

(** ** The heap as a sequence of blocks *)

(** [lseg m b a l]: walking [next] in [m] from [a] visits exactly the
    headers [l], each at a non-null address, and then stands at [b]. *)
Inductive lseg (m : gmap Z dheader) (b : Z) : Z -> list (Z * dheader) -> Prop :=
| lseg_nil : lseg m b b []
| lseg_cons a h l :
    a <> 0 -> m !! a = Some h -> lseg m b (next h) l -> lseg m b a ((a, h) :: l).

(** The block sequence of a heap: the walk from [start] that ends at null. *)
Definition blocks (s : dmem_t) (l : list (Z * dheader)) : Prop :=
  lseg (mem s) 0 (start s) l.

(** The same walk as a function, for running on concrete heaps. *)
Fixpoint walk (fuel : nat) (m : gmap Z dheader) (a : Z) : option (list (Z * dheader)) :=
  match fuel with
  | O => None
  | S fuel =>
    if a =? 0 then Some []
    else
      match m !! a with
      | None => None
      | Some h =>
        match walk fuel m (next h) with
        | None => None
        | Some l => Some ((a, h) :: l)
        end
      end
  end.

(** The state before [dinit]: the zeroed global, no header written yet. *)
Definition boot : dmem_t := {| lock := false; start := 0; mem := ∅ |}.

(** *** List-level images of the operations *)

(** The fit test of line 82. *)
Definition fits (required : Z) (h : dheader) : bool :=
  negb (used h) && (required <=? data_size h).

(** The first block of [l] passing the fit test, with the blocks before
    and after it. *)
Fixpoint first_fit (required : Z) (l : list (Z * dheader))
    : option (list (Z * dheader) * (Z * dheader) * list (Z * dheader)) :=
  match l with
  | [] => None
  | b :: t =>
    if fits required b.2 then Some ([], b, t)
    else
      match first_fit required t with
      | Some (l1, x, l2) => Some (b :: l1, x, l2)
      | None => None
      end
  end.

Definition mark_used (h : dheader) : dheader :=
  {| data_size := data_size h; used := true; next := next h |}.
Definition mark_free (h : dheader) : dheader :=
  {| data_size := data_size h; used := false; next := next h |}.

(** What the selected block [(c, h)] is replaced by. *)
Definition take_list (size required : Z) (c : Z) (h : dheader) : list (Z * dheader) :=
  if required <? data_size h then
    let new_block := wrap64 (c + required) in
    [ (c, {| data_size := align_up size; used := true; next := new_block |});
      (new_block, {| data_size := wrap32 (data_size h - required);
                     used := false; next := next h |}) ]
  else [ (c, mark_used h) ].

(** Absorbing the free successor [n] into the free block [c]. *)
Definition merge (c n : dheader) : dheader :=
  {| data_size := wrap32 (data_size c + wrap32 (data_size n + HEADER_SIZE));
     used := used c;
     next := next n |}.

(** The coalescing pass standing at block [cur], with [rest] ahead. *)
Fixpoint coal (cur : Z * dheader) (rest : list (Z * dheader)) : list (Z * dheader) :=
  match rest with
  | [] => [cur]
  | nx :: t =>
    if negb (used cur.2) && negb (used nx.2)
    then coal (cur.1, merge cur.2 nx.2) t
    else cur :: coal nx t
  end.

Definition coalesce_list (l : list (Z * dheader)) : list (Z * dheader) :=
  match l with
  | [] => []
  | b :: t => coal b t
  end.

(** Marking the block at address [a] free. *)
Definition free_at (a : Z) (l : list (Z * dheader)) : list (Z * dheader) :=
  map (fun b => if b.1 =? a then (b.1, mark_free b.2) else b) l.

(** What the scan of [dalloc] does on a heap whose walk from [a] is [l]. *)
Definition dalloc_result (size r : Z) (s : dmem_t) (l : list (Z * dheader))
    : result (dmem_t * Z) :=
  match first_fit r l with
  | Some (_, (c, h), _) =>
    Ret (release (with_mem (take_block size r c h (mem s)) s), wrap64 (c + HEADER_SIZE))
  | None => Ret (release s, 0)
  end.

(** *** Invariants of the block sequence *)

(** Bytes taken by the blocks of [l], headers included. *)
Definition total (l : list (Z * dheader)) : Z :=
  foldr (fun b acc => HEADER_SIZE + data_size b.2 + acc) 0 l.

(** The blocks of [l] tile the addresses from [a] to [e]: each starts
    where the previous one ends, with a payload size that is a multiple of
    16 held in an [unsigned]. *)
Fixpoint contiguous (a : Z) (l : list (Z * dheader)) (e : Z) : Prop :=
  match l with
  | [] => a = e
  | b :: t =>
    b.1 = a /\
    0 <= data_size b.2 < 2 ^ 32 /\
    data_size b.2 mod 16 = 0 /\
    contiguous (a + HEADER_SIZE + data_size b.2) t e
  end.

(** No two neighbours are both free. *)
Fixpoint no_adjacent_free (l : list (Z * dheader)) : Prop :=
  match l with
  | [] => True
  | b :: t =>
    match t with
    | [] => True
    | n :: _ => ~ (used b.2 = false /\ used n.2 = false)
    end /\ no_adjacent_free t
  end.

(** Payload pointers of the blocks in use. *)
Definition live (l : list (Z * dheader)) : list Z :=
  map (fun b => b.1 + HEADER_SIZE) (filter (fun b => used b.2 = true) l).

(** The data-model invariant: the lock is free, the walk from the heap
    base ends at null, and its blocks tile the region up to [PHYSTOP]. *)
Definition heap_ok (PHYSTOP HEAP_SIZE : Z) (s : dmem_t) (l : list (Z * dheader)) : Prop :=
  lock s = false /\
  start s = heap_base PHYSTOP HEAP_SIZE /\
  blocks s l /\
  contiguous (heap_base PHYSTOP HEAP_SIZE) l PHYSTOP.

(** A heap whose walk from [start] never ends: every address it visits
    holds a used header with a non-null [next]. *)
Definition knotted (s : dmem_t) : Prop :=
  exists S : Z -> Prop,
    S (start s) /\
    forall a, S a ->
      a <> 0 /\ exists h, mem s !! a = Some h /\ used h = true /\ S (next h).

(** [T] holds 16-aligned addresses of headers whose sizes are multiples of
    16, and is closed under [next]. *)
Definition aligned_set (T : Z -> Prop) (m : gmap Z dheader) : Prop :=
  forall a, T a ->
    a mod 16 = 0 /\
    exists h, m !! a = Some h /\ data_size h mod 16 = 0 /\
              (next h = 0 \/ T (next h)).

(** Addresses visited by the walk from [start]. *)
Inductive in_seq (s : dmem_t) : Z -> Prop :=
| in_seq_start : start s <> 0 -> in_seq s (start s)
| in_seq_next a h :
    in_seq s a -> mem s !! a = Some h -> next h <> 0 -> in_seq s (next h).

(** States the kernel can be in: after [dinit], then after any call of
    [dalloc] or [dfree] that returns.  Sizes are [unsigned], addresses are
    64-bit pointers; [A] restricts the sizes requested. *)
Inductive reachable_by (A : Z -> Prop) (PHYSTOP HEAP_SIZE : Z) : dmem_t -> Prop :=
| reach_dinit s : reachable_by A PHYSTOP HEAP_SIZE (dinit PHYSTOP HEAP_SIZE s)
| reach_dalloc s fuel size s' p :
    reachable_by A PHYSTOP HEAP_SIZE s ->
    0 <= size < 2 ^ 32 -> A size ->
    dalloc fuel size s = Ret (s', p) ->
    reachable_by A PHYSTOP HEAP_SIZE s'
| reach_dfree s fuel addr s' :
    reachable_by A PHYSTOP HEAP_SIZE s ->
    0 <= addr < 2 ^ 64 ->
    dfree fuel addr s = Ret s' ->
    reachable_by A PHYSTOP HEAP_SIZE s'.

(** Any size may be requested. *)
Definition reachable : Z -> Z -> dmem_t -> Prop := reachable_by (fun _ => True).

(** Sizes whose requirement does not wrap around to 0, that is all sizes
    outside [2^32 - 31, 2^32 - 16]. *)
Definition no_wrap (size : Z) : Prop := required_size size <> 0.

(** xv6's [PHYSTOP] (KERNBASE + 128 MiB) and a heap of 1 MiB, for the
    concrete scenarios. *)
Definition PHYSTOP_xv6 : Z := 2281701376.
Definition HEAP_1MiB : Z := 1048576.
Definition fresh : dmem_t := dinit PHYSTOP_xv6 HEAP_1MiB boot.

(** *** Sequences of calls, as the tests issue them *)

(** [dalloc] for each size in turn, collecting the pointers returned. *)
Fixpoint dalloc_all (fuel : nat) (sizes : list Z) (s : dmem_t)
    : result (dmem_t * list Z) :=
  match sizes with
  | [] => Ret (s, [])
  | n :: sizes =>
    match dalloc fuel n s with
    | Ret (s, p) =>
      match dalloc_all fuel sizes s with
      | Ret (s, ps) => Ret (s, p :: ps)
      | r => r
      end
    | Panic msg s => Panic msg s
    | Fault => Fault
    | Diverge => Diverge
    end
  end.

(** [dfree] for each pointer in turn. *)
Fixpoint dfree_all (fuel : nat) (ptrs : list Z) (s : dmem_t) : result dmem_t :=
  match ptrs with
  | [] => Ret s
  | p :: ptrs =>
    match dfree fuel p s with
    | Ret s => dfree_all fuel ptrs s
    | r => r
    end
  end.

(** The fresh 1 MiB heap after [dalloc(100)]. *)
Definition fresh_100 : dmem_t :=
  {| lock := false;
     start := 2280652800;
     mem := <[2280652800 := {| data_size := 112; used := true; next := 2280652928 |}]>
            (<[2280652928 := {| data_size := 1048432; used := false; next := 0 |}]> ∅) |}.

(** The fresh 1 MiB heap after [dalloc(4294967280)]: one header, used,
    whose [next] is its own address. *)
Definition fresh_knot : dmem_t :=
  {| lock := false;
     start := 2280652800;
     mem := <[2280652800 := {| data_size := 4294967280; used := true;
                               next := 2280652800 |}]> ∅ |}.

(** The fresh 1 MiB heap after [dalloc(100)] twice. *)
Definition fresh_two : dmem_t :=
  {| lock := false;
     start := 2280652800;
     mem := <[2280652800 := {| data_size := 112; used := true; next := 2280652928 |}]>
            (<[2280652928 := {| data_size := 112; used := true; next := 2280653056 |}]>
            (<[2280653056 := {| data_size := 1048304; used := false; next := 0 |}]> ∅)) |}.

(** The fresh 1 MiB heap after [dalloc(100)], [dalloc(100)] and [dfree]
    of the first pointer. *)
Definition fresh_hole : dmem_t :=
  {| lock := false;
     start := 2280652800;
     mem := <[2280652800 := {| data_size := 112; used := false; next := 2280652928 |}]>
            (<[2280652928 := {| data_size := 112; used := true; next := 2280653056 |}]>
            (<[2280653056 := {| data_size := 1048304; used := false; next := 0 |}]> ∅)) |}.

(** The heap [fresh_hole] after [dalloc(97)]: the hole of 112 bytes in
    front is too small for the 128 bytes required, so the last block is
    split. *)
Definition fresh_refill : dmem_t :=
  {| lock := false;
     start := 2280652800;
     mem := <[2280652800 := {| data_size := 112; used := false; next := 2280652928 |}]>
            (<[2280652928 := {| data_size := 112; used := true; next := 2280653056 |}]>
            (<[2280653056 := {| data_size := 112; used := true; next := 2280653184 |}]>
            (<[2280653184 := {| data_size := 1048176; used := false; next := 0 |}]> ∅))) |}.

(** The fresh 1 MiB heap after [dalloc(4294967295)]: a used block without
    a single byte of payload, then a free block. *)
Definition fresh_max : dmem_t :=
  {| lock := false;
     start := 2280652800;
     mem := <[2280652800 := {| data_size := 0; used := true; next := 2280652816 |}]>
            (<[2280652816 := {| data_size := 1048544; used := false; next := 0 |}]> ∅) |}.

(** ** The allocator tests of [src/kernel/memtest.c] *)

(** Sequencing of calls that may not return. *)
#[global] Instance result_bind : MBind result := fun A B f r =>
  match r with
  | Ret a => f a
  | Panic msg s => Panic msg s
  | Fault => Fault
  | Diverge => Diverge
  end.

(** What the tests act on: the allocator's heap, the console, on which
    every [printf] leaves its format string and the values of its
    arguments, the state of the pseudo-random generator (the
    [static unsigned long int next] of memtest.c), and the bytes of memory
    that are known: string literals and what has been stored through
    [char] pointers.

    Headers and bytes are two views of one memory.  A header that is
    written makes the 16 bytes under it unknown, a byte that is stored
    makes every header over it unknown, and reading what is unknown is a
    fault, as is any access through the null pointer. *)
Record kstate : Type := Kstate {
  heap : dmem_t;
  console : list (string * list Z);
  rand_next : Z;
  ram : gmap Z Z
}.

Definition header_eqb (h g : dheader) : bool :=
  (data_size h =? data_size g) && Bool.eqb (used h) (used g) && (next h =? next g).

(** Whether [m'] holds at [a] a header that [m] does not hold there. *)
Definition rewritten (m m' : gmap Z dheader) (a : Z) : bool :=
  match m' !! a with
  | Some h' =>
    match m !! a with
    | Some h => negb (header_eqb h h')
    | None => true
    end
  | None => false
  end.

(** The bytes that lie under no header rewritten from [m] to [m']: the
    header at [x - d], for [d] from 0 to 15, covers the byte at [x]. *)
Definition forget (m m' : gmap Z dheader) (bytes : gmap Z Z) : gmap Z Z :=
  filter (fun xb => forallb (fun d => negb (rewritten m m' (xb.1 - Z.of_nat d)))
                      (seq 0 16) = true) bytes.

(** The state after a call of the allocator that left the heap [h]. *)
Definition with_heap (h : dmem_t) (k : kstate) : kstate :=
  {| heap := h; console := console k; rand_next := rand_next k;
     ram := forget (mem (heap k)) (mem h) (ram k) |}.
Definition printf (fmt : string) (args : list Z) (k : kstate) : kstate :=
  {| heap := heap k; console := console k ++ [(fmt, args)];
     rand_next := rand_next k; ram := ram k |}.

(** [*p] read as a [char]. *)
Definition peek (x : Z) (k : kstate) : option Z :=
  if x =? 0 then None else ram k !! x.

(** [*p = v] for a [char]. *)
Definition poke (x v : Z) (k : kstate) : option kstate :=
  if x =? 0 then None
  else
    Some {| heap := with_mem (filter (fun ah => ~ (ah.1 <= x < ah.1 + HEADER_SIZE))
                                (mem (heap k))) (heap k);
            console := console k; rand_next := rand_next k;
            ram := <[x := v]> (ram k) |}.

(** [dalloc] and [dfree] called from a test. *)
Definition k_dalloc (fuel : nat) (size : Z) (k : kstate) : result (Z * kstate) :=
  '(h, p) ← dalloc fuel size (heap k); Ret (p, with_heap h k).
Definition k_dfree (fuel : nat) (p : Z) (k : kstate) : result kstate :=
  h ← dfree fuel p (heap k); Ret (with_heap h k).

Definition basic_test (fuel : nat) (k : kstate) : result kstate :=
  let k := printf "Entering basic_test...\n" [] k in
  '(ptr, k) ← k_dalloc fuel 100 k;
  if negb (ptr =? 0) then
    let k := printf "Allocated address: %p\n" [ptr] k in
    k ← k_dfree fuel ptr k;
    Ret (printf "Basic test passed.\n\n" [] k)
  else
    Ret (printf "Basic test failed: unable to allocate memory.\n\n" [] k).

(** The arguments [HEAP_SIZE - 128] and [HEAP_SIZE] are converted to
    [unsigned] at the calls. *)
Definition boundary_test (HEAP_SIZE : Z) (fuel : nat) (k : kstate) : result kstate :=
  let k := printf "Entering boundary_test...\n" [] k in
  '(large_ptr, k) ← k_dalloc fuel (wrap32 (HEAP_SIZE - 128)) k;
  if negb (large_ptr =? 0) then
    let k := printf "Allocated very large memory.\n" [] k in
    k ← k_dfree fuel large_ptr k;
    '(exceed_ptr, k) ← k_dalloc fuel (wrap32 HEAP_SIZE) k;
    if exceed_ptr =? 0 then
      let k := printf "Allocated memory exceeded heap size.\n" [] k in
      '(small_ptr, k) ← k_dalloc fuel 1 k;
      if negb (small_ptr =? 0) then
        let k := printf "Allocated very small memory.\n" [] k in
        k ← k_dfree fuel small_ptr k;
        Ret (printf "Boundary test passed.\n\n" [] k)
      else
        let k := printf "Failed to allocate very small memory.\n" [] k in
        Ret (printf "Boundary test failed.\n\n" [] k)
    else
      let k := printf "Error: Allocated memory exceeded heap size.\n" [] k in
      k ← k_dfree fuel exceed_ptr k;
      Ret (printf "Boundary test failed.\n\n" [] k)
  else
    let k := printf "Failed to allocate very large memory.\n" [] k in
    Ret (printf "Boundary test failed.\n\n" [] k).

(** [rand]: [next] is 64 bits wide, the quotient is cut to 32 bits
    before the remainder is taken. *)
Definition rand (k : kstate) : Z * kstate :=
  let n := wrap64 (rand_next k * 1103515245 + 12345) in
  (wrap32 (n / 65536) mod 32768,
   {| heap := heap k; console := console k; rand_next := n; ram := ram k |}).

Definition srand (seed : Z) (k : kstate) : kstate :=
  {| heap := heap k; console := console k; rand_next := seed; ram := ram k |}.

(** The first loop of [random_test], with [n] iterations to go; the
    result lists [ptr_array] from the current index on. *)
Fixpoint random_alloc (n : nat) (fuel : nat) (passed failed : Z) (k : kstate)
    : result (list Z * Z * Z * kstate) :=
  match n with
  | O => Ret ([], passed, failed, k)
  | S n =>
    let '(r, k) := rand k in
    let size := wrap32 (Z.rem r 100000 + 1) in
    '(ptr, k) ← k_dalloc fuel size k;
    if negb (ptr =? 0) then
      let k := printf "Allocated address: %p, size: %d\n" [ptr; size] k in
      '(ptrs, passed, failed, k) ← random_alloc n fuel (passed + 1) failed k;
      Ret (ptr :: ptrs, passed, failed, k)
    else
      let k := printf "Failed to allocate memory.\n" [] k in
      '(ptrs, passed, failed, k) ← random_alloc n fuel passed (failed + 1) k;
      Ret (0 :: ptrs, passed, failed, k)
  end.

(** The second loop of [random_test]. *)
Fixpoint random_free (fuel : nat) (ptr_array : list Z) (k : kstate) : result kstate :=
  match ptr_array with
  | [] => Ret k
  | p :: rest =>
    if negb (p =? 0) then
      k ← k_dfree fuel p k;
      random_free fuel rest (printf "Memory deallocated: %p\n" [p] k)
    else random_free fuel rest k
  end.

Definition random_test (fuel : nat) (k : kstate) : result kstate :=
  let k := printf "Entering random_test...\n" [] k in
  let k := srand 1000 k in
  '(ptr_array, passed, failed, k) ← random_alloc 10 fuel 0 0 k;
  k ← random_free fuel ptr_array k;
  Ret (printf "Random test completed. Passed: %d, Failed: %d.\n\n" [passed; failed] k).

(** The first loop of [stress_test], with [n] iterations to go. *)
Fixpoint stress_alloc (n : nat) (fuel : nat) (block_size failed : Z) (k : kstate)
    : result (list Z * Z * kstate) :=
  match n with
  | O => Ret ([], failed, k)
  | S n =>
    '(temp, k) ← k_dalloc fuel block_size k;
    let failed := if temp =? 0 then failed + 1 else failed in
    '(ptrs, failed, k) ← stress_alloc n fuel block_size failed k;
    Ret (temp :: ptrs, failed, k)
  end.

(** The second loop of [stress_test]. *)
Fixpoint stress_free (fuel : nat) (ptrs : list Z) (passed : Z) (k : kstate)
    : result (Z * kstate) :=
  match ptrs with
  | [] => Ret (passed, k)
  | p :: rest =>
    if negb (p =? 0) then
      k ← k_dfree fuel p k;
      let passed := passed + 1 in
      let k := if Z.rem passed 10 =? 0
               then printf "%d tests passed.\n" [passed] k else k in
      stress_free fuel rest passed k
    else stress_free fuel rest passed k
  end.

Definition stress_test (fuel : nat) (k : kstate) : result kstate :=
  let k := printf "Entering stress_test...\n" [] k in
  let total_iterations := 255%nat in
  let block_size := 65537 in
  '(ptrs, failed, k) ← stress_alloc total_iterations fuel block_size 0 k;
  let k := printf "The last allocated address: %p\n"
             [default 0 (ptrs !! (total_iterations - 1)%nat)] k in
  '(passed, k) ← stress_free fuel ptrs 0 k;
  Ret (printf "Stress test completed. \n%d allocations and deallocations attempted. \nPassed: %d, Failed: %d.\n\n"
         [Z.of_nat total_iterations; passed; failed] k).

(** *** The string helpers *)

(** The loop of [my_strcpy]: [*dest++ = *src++] until the byte copied is
    0.  [char] is one byte, pointers advance modulo 2^64. *)
Fixpoint strcpy_loop (fuel : nat) (k : kstate) (dest src : Z) : result kstate :=
  match fuel with
  | O => Diverge
  | S fuel =>
    match peek src k with
    | None => Fault
    | Some c =>
      match poke dest c k with
      | None => Fault
      | Some k =>
        if c =? 0 then Ret k
        else strcpy_loop fuel k (wrap64 (dest + 1)) (wrap64 (src + 1))
      end
    end
  end.

Definition my_strcpy (fuel : nat) (k : kstate) (dest src : Z) : result (Z * kstate) :=
  let temp := dest in
  k ← strcpy_loop fuel k dest src; Ret (temp, k).

(** The loop of [cmp] at index [i]. *)
Fixpoint cmp_loop (fuel : nat) (k : kstate) (p1 p2 size i : Z) : result Z :=
  match fuel with
  | O => Diverge
  | S fuel =>
    if i <? size then
      match peek (wrap64 (p1 + i)) k, peek (wrap64 (p2 + i)) k with
      | Some a, Some b =>
        if negb (a =? b) then Ret 0
        else cmp_loop fuel k p1 p2 size (wrap32 (i + 1))
      | _, _ => Fault
      end
    else Ret 1
  end.

Definition cmp (fuel : nat) (k : kstate) (ptr1 ptr2 size : Z) : result Z :=
  cmp_loop fuel k ptr1 ptr2 size 0.

(** The bytes [bs] are known to lie at the addresses from [a] on. *)
Fixpoint holds (bytes : gmap Z Z) (a : Z) (bs : list Z) : Prop :=
  match bs with
  | [] => True
  | b :: bs => bytes !! a = Some b /\ holds bytes (a + 1) bs
  end.

(** *** [overwrite_test] and [memtest] *)

(** The first loop of [overwrite_test] from index [i] on, over the
    entries of [strings] that are left, each the address of a string
    literal with the size declared for it.  The string is copied also when
    the allocation has failed. *)
Fixpoint overwrite_alloc (fuel : nat) (i : Z) (strings : list (Z * Z))
    (success : Z) (k : kstate) : result (list Z * Z * kstate) :=
  match strings with
  | [] => Ret ([], success, k)
  | (str, size) :: strings =>
    '(ptr, k) ← k_dalloc fuel (wrap32 (size + 1)) k;
    let '(success, k) :=
      if ptr =? 0
      then (0, printf "Test failed: Failed to allocate memory for block %d\n\n"
                 [i + 1] k)
      else (success, k) in
    '(_, k) ← my_strcpy fuel k ptr str;
    '(ptrs, success, k) ← overwrite_alloc fuel (i + 1) strings success k;
    Ret (ptr :: ptrs, success, k)
  end.

(** The second loop of [overwrite_test]. *)
Fixpoint overwrite_check (fuel : nat) (i : Z) (strings : list (Z * Z))
    (ptrs : list Z) (success : Z) (k : kstate) : result (Z * kstate) :=
  match strings, ptrs with
  | (str, size) :: strings, ptr :: ptrs =>
    let k := printf "String %d: %s\n" [i + 1; str] k in
    r ← cmp fuel k ptr str size;
    let '(success, k) :=
      if r =? 0
      then (0, printf "Test failed: Data in memory block %d is changed\n\n"
                 [i + 1] k)
      else (success, k) in
    overwrite_check fuel (i + 1) strings ptrs success k
  | _, _ => Ret (success, k)
  end.

(** The third loop of [overwrite_test]: every entry is released, null or
    not. *)
Fixpoint overwrite_free (fuel : nat) (ptrs : list Z) (k : kstate) : result kstate :=
  match ptrs with
  | [] => Ret k
  | ptr :: ptrs => k ← k_dfree fuel ptr k; overwrite_free fuel ptrs k
  end.

(** The characters of the three string literals. *)
Definition chars (s : string) : list Z :=
  map (fun c => Z.of_N (Ascii.N_of_ascii c)) (String.list_ascii_of_string s).
Definition hello : list Z := chars "hello, world!".
Definition love : list Z := chars "I LOVE OS AND LOVE U".
Definition march : list Z :=
  chars "Miss March 7th so beautiful, so cute, and so smart.".

(** [overwrite_test], the three literals standing at the addresses
    [str1], [str2] and [str3]. *)
Definition overwrite_test (str1 str2 str3 : Z) (fuel : nat) (k : kstate)
    : result kstate :=
  let k := printf "Entering overwrite_test...\n" [] k in
  let strings := [(str1, 13); (str2, 20); (str3, 51)] in
  let success := 1 in
  '(ptrs, success, k) ← overwrite_alloc fuel 0 strings success k;
  '(success, k) ← overwrite_check fuel 0 strings ptrs success k;
  let k := if negb (success =? 0)
           then printf "Overwrite test passed.\n\n" [] k else k in
  overwrite_free fuel ptrs k.

Definition memtest (PHYSTOP HEAP_SIZE str1 str2 str3 : Z) (fuel : nat) (k : kstate)
    : result (Z * kstate) :=
  let k := with_heap (dinit PHYSTOP HEAP_SIZE (heap k)) k in
  k ← basic_test fuel k;
  k ← boundary_test HEAP_SIZE fuel k;
  k ← random_test fuel k;
  k ← stress_test fuel k;
  k ← overwrite_test str1 str2 str3 fuel k;
  Ret (0, k).

(** A string stored in the payload of a block in use. *)
Definition stored (k : kstate) (l : list (Z * dheader)) (p : Z) (bs : list Z) : Prop :=
  exists h, (p - HEADER_SIZE, h) ∈ l /\ used h = true /\
            Z.of_nat (length bs) < data_size h /\ holds (ram k) p (bs ++ [0]).

(** The known bytes outside the heap are the same in [k'] as in [k]. *)
Definition same_outside (PHYSTOP HEAP_SIZE : Z) (k k' : kstate) : Prop :=
  forall y, y < heap_base PHYSTOP HEAP_SIZE \/ PHYSTOP <= y ->
    ram k' !! y = ram k !! y.

(** A string literal: its characters, none of them 0, and the zero byte
    behind them are known at [str], outside the heap. *)
Definition literal (PHYSTOP HEAP_SIZE : Z) (k : kstate) (str : Z) (bs : list Z) : Prop :=
  holds (ram k) str (bs ++ [0]) /\ Forall (fun b => b <> 0) bs /\
  0 < str /\ str + Z.of_nat (length bs) < 2 ^ 64 /\
  (str + Z.of_nat (length bs) < heap_base PHYSTOP HEAP_SIZE \/ PHYSTOP <= str).

(** The lines the second loop of [overwrite_test] prints when every
    comparison succeeds. *)
Fixpoint string_lines (i : Z) (strings : list (Z * Z)) : list (string * list Z) :=
  match strings with
  | [] => []
  | (str, _) :: strings => ("String %d: %s\n", [i + 1; str]) :: string_lines (i + 1) strings
  end.

(** *** Sequences in which all blocks but the last are in use *)

Definition packed (l : list (Z * dheader)) : Prop :=
  exists us b, l = us ++ [b] /\ Forall (fun u => used u.2 = true) us.

(** What the last block can still give. *)
Definition tail_cap (l : list (Z * dheader)) : Z :=
  match last l with
  | Some b => if used b.2 then 0 else data_size b.2
  | None => 0
  end.

(** Entries of a pointer array that are not null. *)
Definition non_null (ps : list Z) : list Z := filter (fun p => p <> 0) ps.

(** ** [print_int] of [src/user/proctest.c] *)

(** The [do ... while] loop: [buf] receives the character of the last
    digit, [num] loses it; [/] and [%] on [int] truncate towards 0. *)
Fixpoint print_int_loop (fuel : nat) (num : Z) (buf : list Z) : option (list Z) :=
  match fuel with
  | O => None
  | S fuel =>
    let buf := buf ++ [48 + Z.rem num 10] in
    let num := Z.quot num 10 in
    if 0 <? num then print_int_loop fuel num buf else Some buf
  end.

(** The bytes written to the standard output, one [write] each: [buf]
    from its last entry down to the first.  The zero byte put behind the
    digits is not written. *)
Definition print_int (fuel : nat) (num : Z) : option (list Z) :=
  match print_int_loop fuel num [] with
  | Some buf => Some (reverse buf)
  | None => None
  end.

(** The number a string of decimal digit characters denotes. *)
Definition decimal (bs : list Z) : Z :=
  foldl (fun acc b => 10 * acc + (b - 48)) 0 bs.

(** A kernel that has just run [dinit] on the 1 MiB heap, with nothing on
    the console yet. *)
Definition k_fresh : kstate :=
  {| heap := fresh; console := []; rand_next := 1; ram := ∅ |}.

(** The same with the string "hi" known at address 100. *)
Definition k_hi : kstate :=
  {| heap := fresh; console := []; rand_next := 1;
     ram := <[100 := 104]> (<[101 := 105]> (<[102 := 0]> ∅)) |}.

(** The bytes [bs] laid out from address [a] on. *)
Fixpoint lay (a : Z) (bs : list Z) (bytes : gmap Z Z) : gmap Z Z :=
  match bs with
  | [] => bytes
  | b :: bs => <[a := b]> (lay (a + 1) bs bytes)
  end.

(** A kernel before [dinit], with the three string literals of
    [overwrite_test] at the addresses 2147487744, 2147487808 and
    2147487872, below the heap. *)
Definition k_boot : kstate :=
  {| heap := boot; console := []; rand_next := 1;
     ram := lay 2147487744 (hello ++ [0])
              (lay 2147487808 (love ++ [0])
                 (lay 2147487872 (march ++ [0]) ∅)) |}.

(** The same after [dinit] on the 1 MiB heap. *)
Definition k_lit : kstate :=
  {| heap := fresh; console := []; rand_next := 1; ram := ram k_boot |}.

(** ** Arithmetic of the rounding *)

Lemma land_mask16 (y : Z) :
  0 <= y < 2 ^ 32 -> Z.land y 4294967280 = 16 * (y / 16).
Proof.
  intros Hy.
  change 4294967280 with (Z.land (Z.lnot (Z.ones 4)) (Z.ones 32)).
  rewrite Z.land_assoc, Z.land_ones by lia.
  rewrite <- Z.ldiff_land, Z.ldiff_ones_r by lia.
  rewrite Z.shiftl_mul_pow2, Z.shiftr_div_pow2 by lia.
  change (2 ^ 4) with 16.
  assert (H16 : 0 <= y / 16 * 16 <= y) by (pose proof (Z.mod_pos_bound y 16); pose proof (Z.div_mod y 16); lia).
  rewrite Z.mod_small; lia.
Qed.

Lemma align_up_eq (x : Z) :
  align_up x = 16 * (wrap32 (x + 15) / 16).
Proof.
  unfold align_up, ALIGNMENT_SIZE.
  change (wrap32 (Z.lnot (16 - 1))) with 4294967280.
  change (16 - 1) with 15.
  apply land_mask16. unfold wrap32. apply Z.mod_pos_bound. lia.
Qed.

Ltac unwrap :=
  unfold wrap32, wrap64, HEADER_SIZE, ALIGNMENT_SIZE in *;
  change (2 ^ 32) with 4294967296 in *;
  change (2 ^ 64) with 18446744073709551616 in *.

Lemma align_up_bounds (x : Z) :
  0 <= align_up x <= 4294967280 /\ align_up x mod 16 = 0.
Proof.
  rewrite align_up_eq. unwrap.
  split; [|rewrite Z.mul_comm; apply Z.mod_mul; lia].
  Z.div_mod_to_equations. lia.
Qed.

Lemma required_size_bounds (size : Z) :
  0 <= required_size size <= 4294967280 /\ required_size size mod 16 = 0.
Proof. apply align_up_bounds. Qed.

Lemma required_size_align (size : Z) :
  0 <= size < 2 ^ 32 ->
  required_size size = wrap32 (align_up size + HEADER_SIZE).
Proof.
  intros Hs. unfold required_size. rewrite !align_up_eq. unwrap.
  Z.div_mod_to_equations. lia.
Qed.

Lemma required_size_split (size : Z) :
  0 <= size < 2 ^ 32 -> required_size size <> 0 ->
  required_size size = align_up size + HEADER_SIZE.
Proof.
  intros Hs Hne. rewrite required_size_align in * by done.
  pose proof (align_up_bounds size) as [Hb Hm].
  unwrap. Z.div_mod_to_equations. lia.
Qed.

Lemma required_size_exact (size : Z) :
  0 <= size <= 2 ^ 32 - 32 ->
  required_size size = round_up (size + HEADER_SIZE) ALIGNMENT_SIZE.
Proof.
  intros Hs. unfold required_size, round_up. rewrite align_up_eq. unwrap.
  Z.div_mod_to_equations. lia.
Qed.

Lemma required_size_wraps (size : Z) :
  2 ^ 32 - 32 < size < 2 ^ 32 ->
  required_size size < round_up (size + HEADER_SIZE) ALIGNMENT_SIZE.
Proof.
  intros Hs. pose proof (required_size_bounds size) as [Hb _].
  unfold round_up. unwrap. Z.div_mod_to_equations. lia.
Qed.

Lemma align_up_exact (size : Z) :
  0 <= size <= 2 ^ 32 - 16 -> align_up size = round_up size ALIGNMENT_SIZE.
Proof.
  intros Hs. unfold round_up. rewrite align_up_eq. unwrap.
  Z.div_mod_to_equations. lia.
Qed.

Lemma no_wrap_small (size : Z) : 0 <= size <= 2 ^ 32 - 32 -> no_wrap size.
Proof.
  intros Hs. unfold no_wrap. rewrite required_size_exact by done.
  unfold round_up. unwrap. Z.div_mod_to_equations. lia.
Qed.

Lemma no_wrap_iff (size : Z) :
  0 <= size < 2 ^ 32 ->
  no_wrap size <-> ~ (2 ^ 32 - 31 <= size <= 2 ^ 32 - 16).
Proof.
  intros Hs. unfold no_wrap, required_size. rewrite align_up_eq. unwrap.
  split; intros H; Z.div_mod_to_equations; lia.
Qed.

(** ** Walks through the header store *)

Lemma lseg_head m b a x h l : lseg m b a ((x, h) :: l) -> a = x /\ x <> 0 /\ m !! x = Some h.
Proof. by inversion 1. Qed.

Lemma lseg_det m a l1 l2 : lseg m 0 a l1 -> lseg m 0 a l2 -> l1 = l2.
Proof.
  intros H1. revert l2. induction H1 as [|a h l Ha Hm H1 IH]; intros l2 H2.
  - by inversion H2.
  - inversion H2 as [|a' h' l' Ha' Hm' H2']; subst; [done|].
    rewrite Hm in Hm'. injection Hm' as <-. f_equal. by apply IH.
Qed.

Lemma lseg_app m a b c l1 l2 :
  lseg m b a l1 -> lseg m c b l2 -> lseg m c a (l1 ++ l2).
Proof.
  induction 1 as [|a h l Ha Hm H1 IH]; intros H2; [done|].
  simpl. constructor; auto.
Qed.

Lemma lseg_split m c a l1 l2 :
  lseg m c a (l1 ++ l2) -> exists b, lseg m b a l1 /\ lseg m c b l2.
Proof.
  revert a. induction l1 as [|[x h] l1 IH]; intros a H; simpl in *.
  - exists a. split; [constructor|done].
  - inversion H; subst. destruct (IH _ ltac:(eassumption)) as (b & H1 & H2).
    exists b. split; [by constructor|done].
Qed.

(** A walk only depends on the headers it visits. *)
Lemma lseg_frame m m' b a l :
  lseg m b a l -> (forall x, x ∈ l.*1 -> m' !! x = m !! x) -> lseg m' b a l.
Proof.
  induction 1 as [|a h l Ha Hm H1 IH]; intros Hf; constructor; auto.
  - rewrite Hf; [done|]. simpl. left.
  - apply IH. intros x Hx. apply Hf. simpl. by right.
Qed.

Lemma lseg_nonnull m b a l : lseg m b a l -> 0 ∉ l.*1.
Proof.
  induction 1 as [|a h l Ha Hm H1 IH]; simpl.
  - apply not_elem_of_nil.
  - apply not_elem_of_cons. done.
Qed.

Lemma lseg_lookup m b a l x h : lseg m b a l -> (x, h) ∈ l -> m !! x = Some h.
Proof.
  induction 1 as [|a h' l Ha Hm H1 IH]; intros Hin.
  - by apply elem_of_nil in Hin.
  - apply elem_of_cons in Hin as [[= -> ->]|Hin]; auto.
Qed.

(** A walk that reaches null visits no address twice. *)
Lemma lseg_no_revisit m a l1 l2 :
  lseg m 0 a (l1 ++ l2) -> forall x h l3, l2 = (x, h) :: l3 -> x ∉ l1.*1.
Proof.
  intros H x h l3 -> Hin.
  apply list_elem_of_fmap in Hin as ([x' h'] & Hx & Hin). simpl in Hx. subst x'.
  apply list_elem_of_split in Hin as (k1 & k2 & ->).
  rewrite <- app_assoc in H. simpl in H.
  apply lseg_split in H as (b & _ & H).
  pose proof H as H'. apply lseg_head in H' as (-> & _ & _).
  change ((x, h') :: k2 ++ (x, h) :: l3) with (((x, h') :: k2) ++ (x, h) :: l3) in H.
  pose proof H as H'. apply lseg_split in H' as (b & _ & H2).
  pose proof H2 as H'. apply lseg_head in H' as (-> & _ & _).
  pose proof (lseg_det _ _ _ _ H H2) as Heq.
  apply (f_equal length) in Heq. simpl in Heq. rewrite length_app in Heq. simpl in Heq. lia.
Qed.

Lemma lseg_NoDup m a l : lseg m 0 a l -> NoDup l.*1.
Proof.
  induction 1 as [|a h l Ha Hm H1 IH]; simpl; constructor; [|done].
  intros Hin.
  apply list_elem_of_fmap in Hin as ([x' h'] & Hx & Hin). simpl in Hx. subst x'.
  apply list_elem_of_split in Hin as (k1 & k2 & ->).
  assert (H : lseg m 0 a (((a, h) :: k1) ++ (a, h') :: k2)) by (simpl; by constructor).
  eapply lseg_no_revisit in H; [|done].
  apply H. simpl. left.
Qed.

(** ** The scan of [dalloc] *)

Lemma first_fit_Some r l l1 x l2 :
  first_fit r l = Some (l1, x, l2) ->
  l = l1 ++ x :: l2 /\ fits r x.2 = true /\ Forall (fun b => fits r b.2 = false) l1.
Proof.
  revert l1. induction l as [|b t IH]; intros l1 H; simpl in H; [done|].
  destruct (fits r b.2) eqn:Hb.
  - injection H as <- <- <-. auto.
  - destruct (first_fit r t) as [[[k1 y] k2]|] eqn:Ht; [|done].
    injection H as <- <- <-. destruct (IH k1 eq_refl) as (-> & Hy & Hk).
    auto.
Qed.

Lemma first_fit_None r l :
  first_fit r l = None <-> Forall (fun b => fits r b.2 = false) l.
Proof.
  induction l as [|b t IH]; simpl; [by split; [constructor|]|].
  destruct (fits r b.2) eqn:Hb.
  - split; [done|]. inversion 1; congruence.
  - destruct (first_fit r t) as [[[k1 y] k2]|] eqn:Ht.
    + split; [done|]. inversion 1 as [|? ? ? H3]; subst. by apply IH in H3.
    + split; [|done]. intros _. constructor; [done|]. by apply IH.
Qed.

Lemma dalloc_scan_spec fuel size r s a l :
  lseg (mem s) 0 a l ->
  dalloc_scan fuel size r s a = dalloc_result size r s l \/
  ((fuel <= length l)%nat /\ dalloc_scan fuel size r s a = Diverge).
Proof.
  intros H. revert fuel. unfold dalloc_result.
  induction H as [|a h l Ha Hm H IH]; intros [|fuel]; simpl.
  - right. split; [lia|done].
  - left. done.
  - right. split; [lia|done].
  - apply Z.eqb_neq in Ha. rewrite Ha, Hm. unfold fits at 1. simpl.
    destruct (negb (used h) && (r <=? data_size h)); [by left|].
    destruct (IH fuel) as [->|[Hle ->]].
    + left. by destruct (first_fit r l) as [[[k1 [c hc]] k2]|].
    + right. split; [lia|done].
Qed.

Lemma dalloc_scan_enough fuel size r s a l :
  lseg (mem s) 0 a l -> (length l < fuel)%nat ->
  dalloc_scan fuel size r s a = dalloc_result size r s l.
Proof.
  intros H Hf. destruct (dalloc_scan_spec fuel size r s a l H) as [?|[? _]]; [done|lia].
Qed.

Lemma dalloc_scan_ret fuel size r s a l x :
  lseg (mem s) 0 a l -> dalloc_scan fuel size r s a = Ret x ->
  dalloc_result size r s l = Ret x.
Proof.
  intros H Hr. destruct (dalloc_scan_spec fuel size r s a l H) as [<-|[_ ?]]; [done|congruence].
Qed.

(** The header store after lines 84-97, address by address.  When
    [required] is 0 the new header lands on [curr] itself: the later
    writes to [curr] win. *)
Lemma take_block_lookup size r c h m x :
  m !! c = Some h ->
  take_block size r c h m !! x =
    if r <? data_size h then
      if decide (x = c) then
        Some {| data_size := align_up size; used := true; next := wrap64 (c + r) |}
      else if decide (x = wrap64 (c + r)) then
        Some {| data_size := wrap32 (data_size h - r); used := false; next := next h |}
      else m !! x
    else if decide (x = c) then Some (mark_used h) else m !! x.
Proof.
  intros Hc. unfold take_block, set_used, set_next, set_data_size.
  destruct (r <? data_size h).
  - destruct (decide (x = c)) as [->|Hx].
    + rewrite !lookup_alter_eq.
      destruct (decide (c = wrap64 (c + r))) as [<-|Hn].
      * by rewrite lookup_insert_eq.
      * rewrite lookup_insert_ne by done. by rewrite Hc.
    + rewrite !lookup_alter_ne by done.
      destruct (decide (x = wrap64 (c + r))) as [->|Hn].
      * by rewrite lookup_insert_eq.
      * by rewrite lookup_insert_ne.
  - destruct (decide (x = c)) as [->|Hx].
    + by rewrite lookup_alter_eq, Hc.
    + by rewrite lookup_alter_ne.
Qed.

Lemma take_block_lseg size r c h m a l1 l2 :
  lseg m 0 a (l1 ++ (c, h) :: l2) ->
  ((r <? data_size h) = true ->
   wrap64 (c + r) <> 0 /\ wrap64 (c + r) ∉ (l1 ++ (c, h) :: l2).*1) ->
  lseg (take_block size r c h m) 0 a (l1 ++ take_list size r c h ++ l2).
Proof.
  intros H Hnb.
  pose proof (lseg_no_revisit _ _ _ _ H c h l2 eq_refl) as Hc1.
  apply lseg_split in H as (b & H1 & H2).
  pose proof H2 as H'. apply lseg_head in H' as (-> & Hc0 & Hc).
  pose proof (lseg_NoDup _ _ _ H2) as Hnd. simpl in Hnd. apply NoDup_cons in Hnd as [Hc2 _].
  inversion H2 as [|? ? ? _ _ H3]; subst.
  assert (Hfr : forall l : list (Z * dheader), c ∉ l.*1 ->
            ((r <? data_size h) = true -> wrap64 (c + r) ∉ l.*1) ->
            forall x, x ∈ l.*1 -> take_block size r c h m !! x = m !! x).
  { intros l Hcl Hnl x Hx. rewrite take_block_lookup by done.
    destruct (r <? data_size h).
    - rewrite decide_False by (intros ->; done).
      rewrite decide_False by (intros ->; by apply Hnl). done.
    - rewrite decide_False by (intros ->; done). done. }
  eapply lseg_app.
  - eapply lseg_frame; [exact H1|]. apply Hfr; [done|].
    intros Hlt. destruct (Hnb Hlt) as [_ Hn]. rewrite fmap_app in Hn.
    intros Hin. apply Hn. apply elem_of_app. by left.
  - assert (H3' : lseg (take_block size r c h m) 0 (next h) l2).
    { eapply lseg_frame; [exact H3|]. apply Hfr; [done|].
      intros Hlt. destruct (Hnb Hlt) as [_ Hn]. rewrite fmap_app in Hn.
      intros Hin. apply Hn. apply elem_of_app. right. simpl. by right. }
    unfold take_list. destruct (r <? data_size h) eqn:Hlt; simpl.
    + destruct (Hnb eq_refl) as [Hn0 Hn].
      assert (Hnc : wrap64 (c + r) <> c).
      { intros Heq. apply Hn. rewrite fmap_app. apply elem_of_app. right.
        simpl. rewrite Heq. left. }
      constructor; [done| |].
      * rewrite take_block_lookup by done. rewrite Hlt. by rewrite decide_True.
      * simpl. constructor; [done| |done].
        rewrite take_block_lookup by done. rewrite Hlt.
        rewrite decide_False by done. by rewrite decide_True.
    + constructor; [done| |done].
      rewrite take_block_lookup by done. rewrite Hlt. by rewrite decide_True.
Qed.

(** ** Layout of the block sequence *)

Lemma contiguous_app a l1 l2 e :
  contiguous a (l1 ++ l2) e <->
  contiguous a l1 (a + total l1) /\ contiguous (a + total l1) l2 e.
Proof.
  revert a. induction l1 as [|b t IH]; intros a; simpl.
  - rewrite Z.add_0_r. intuition congruence.
  - rewrite IH.
    replace (a + (HEADER_SIZE + data_size b.2 + total t))
      with (a + HEADER_SIZE + data_size b.2 + total t) by lia.
    tauto.
Qed.

Lemma contiguous_total a l e : contiguous a l e -> a + total l = e.
Proof.
  revert a. induction l as [|b t IH]; intros a; simpl; [lia|].
  intros (_ & _ & _ & H). apply IH in H. lia.
Qed.

Lemma total_nonneg a l e : contiguous a l e -> 0 <= total l.
Proof.
  revert a. induction l as [|b t IH]; intros a; simpl; [lia|].
  intros (_ & ? & _ & H). apply IH in H. unfold HEADER_SIZE. lia.
Qed.

Lemma contiguous_bounds a l e x :
  contiguous a l e -> x ∈ l.*1 -> a <= x /\ x + HEADER_SIZE <= e.
Proof.
  revert a. induction l as [|b t IH]; intros a H Hx; simpl in *.
  - by apply elem_of_nil in Hx.
  - destruct H as (Hb & Hd & _ & H).
    pose proof (contiguous_total _ _ _ H). pose proof (total_nonneg _ _ _ H).
    apply elem_of_cons in Hx as [->|Hx].
    + unfold HEADER_SIZE in *. lia.
    + destruct (IH _ H Hx). unfold HEADER_SIZE in *. lia.
Qed.

(** ** The coalescing pass *)

Lemma merge_lookup c v n m h :
  m !! c = Some h ->
  set_next c n (set_data_size c v m) !! c =
    Some {| data_size := v; used := used h; next := n |}.
Proof.
  intros Hc. unfold set_next, set_data_size. by rewrite !lookup_alter_eq, Hc.
Qed.

Lemma merge_lookup_ne c v n m x :
  x <> c -> set_next c n (set_data_size c v m) !! x = m !! x.
Proof.
  intros Hx. unfold set_next, set_data_size. by rewrite !lookup_alter_ne.
Qed.

Lemma coalesce_loop_spec rest : forall fuel m c h,
  m !! c = Some h -> c <> 0 -> lseg m 0 (next h) rest -> c ∉ rest.*1 ->
  (exists m', coalesce_loop fuel m c = Ret m' /\
              lseg m' 0 c (coal (c, h) rest) /\
              forall x, x <> c -> x ∉ rest.*1 -> m' !! x = m !! x) \/
  ((fuel <= length rest)%nat /\ coalesce_loop fuel m c = Diverge).
Proof.
  induction rest as [|[n hn] t IH]; intros [|fuel] m c h Hc Hc0 Hr Hnin;
    try (right; split; [simpl; lia|done]).
  - left. exists m. inversion Hr as [Hn|]; subst. simpl.
    apply Z.eqb_neq in Hc0 as Hc0'. rewrite Hc0', Hc. rewrite <- Hn. simpl.
    split; [done|]. split; [|done].
    constructor; [done|done|]. rewrite <- Hn. constructor.
  - inversion Hr as [|? ? ? Hn0 Hn Ht]; subst.
    pose proof (lseg_NoDup _ _ _ Hr) as Hnd. simpl in Hnd.
    apply NoDup_cons in Hnd as [Hnt _].
    simpl in Hnin. apply not_elem_of_cons in Hnin as [Hcn Hct].
    simpl. apply Z.eqb_neq in Hc0 as Hc0'. rewrite Hc0', Hc.
    apply Z.eqb_neq in Hn0 as Hn0'. rewrite Hn0'.
    assert (Hadv : (if used h then coalesce_loop fuel m (next h)
                    else match m !! next h with
                         | Some n =>
                           if used n then coalesce_loop fuel m (next h)
                           else coalesce_loop fuel
                                  (set_next c (next n)
                                     (set_data_size c
                                        (wrap32 (data_size h
                                                 + wrap32 (data_size n + HEADER_SIZE))) m)) c
                         | None => Fault
                         end)
                   = if negb (used h) && negb (used hn)
                     then coalesce_loop fuel
                            (set_next c (next hn)
                               (set_data_size c
                                  (wrap32 (data_size h
                                           + wrap32 (data_size hn + HEADER_SIZE))) m)) c
                     else coalesce_loop fuel m (next h)).
    { rewrite Hn. by destruct (used h), (used hn). }
    rewrite Hadv. clear Hadv.
    destruct (negb (used h) && negb (used hn)) eqn:Hfree.
    + set (v := wrap32 (data_size h + wrap32 (data_size hn + HEADER_SIZE))).
      set (m2 := set_next c (next hn) (set_data_size c v m)).
      assert (H2 : m2 !! c = Some (merge h hn)) by (by apply merge_lookup).
      assert (Ht2 : lseg m2 0 (next (merge h hn)) t).
      { eapply lseg_frame; [exact Ht|]. intros x Hx.
        apply merge_lookup_ne. by intros ->. }
      destruct (IH fuel m2 c (merge h hn) H2 Hc0 Ht2 Hct)
        as [(m' & Hl & Hs & Hf)|[Hle Hd]].
      * left. exists m'. split; [done|]. split; [done|].
        intros x Hxc Hx. apply not_elem_of_cons in Hx as [_ Hx].
        rewrite Hf by done. by apply merge_lookup_ne.
      * right. split; [simpl; lia|done].
    + destruct (IH fuel m (next h) hn Hn Hn0 Ht Hnt) as [(m' & Hl & Hs & Hf)|[Hle Hd]].
      * left. exists m'. split; [done|]. split.
        -- constructor; [done| |done]. rewrite Hf; done.
        -- intros x Hxc Hx. apply not_elem_of_cons in Hx as [Hxn Hx]. by apply Hf.
      * right. split; [simpl; lia|done].
Qed.

Lemma coalesce_loop_lseg fuel m a l :
  lseg m 0 a l ->
  (exists m', coalesce_loop fuel m a = Ret m' /\
              lseg m' 0 a (coalesce_list l) /\
              forall x, x ∉ l.*1 -> m' !! x = m !! x) \/
  ((fuel <= length l)%nat /\ coalesce_loop fuel m a = Diverge).
Proof.
  intros H. destruct fuel as [|fuel]; [right; split; [lia|done]|].
  inversion H as [|? h t Ha Hm Ht]; subst.
  - left. exists m. simpl. split; [done|]. split; [constructor|done].
  - pose proof (lseg_NoDup _ _ _ H) as Hnd. simpl in Hnd.
    apply NoDup_cons in Hnd as [Hat _].
    destruct (coalesce_loop_spec t (S fuel) m a h Hm Ha Ht Hat)
      as [(m' & Hl & Hs & Hf)|[Hle Hd]].
    + left. exists m'. split; [done|]. split; [done|].
      intros x Hx. simpl in Hx. apply not_elem_of_cons in Hx as [? ?]. by apply Hf.
    + right. split; [simpl; lia|done].
Qed.

(** Where no two neighbours are free the pass changes nothing. *)
Lemma coalesce_loop_id m a l : forall fuel,
  lseg m 0 a l -> no_adjacent_free l -> (length l < fuel)%nat ->
  coalesce_loop fuel m a = Ret m.
Proof.
  intros fuel H. revert fuel.
  induction H as [|a h l Ha Hm H IH]; intros [|fuel] Hnaf Hf; simpl in *; try lia.
  - done.
  - apply Z.eqb_neq in Ha as Ha'. rewrite Ha', Hm.
    destruct Hnaf as [Hhd Hnaf].
    inversion H as [Hn|? hn t Hn0 Hn Ht]; subst.
    + rewrite Z.eqb_refl. done.
    + apply Z.eqb_neq in Hn0 as Hn0'. rewrite Hn0', Hn. simpl in Hhd.
      destruct (used h), (used hn); simpl; try (apply IH; [done|simpl in *; lia]).
      exfalso. by apply Hhd.
Qed.

(** ** The scan of [dfree] *)

Lemma set_used_lseg x b m c a l :
  lseg m c a l ->
  lseg (set_used x b m) c a
    (map (fun e => if e.1 =? x
                   then (e.1, {| data_size := data_size e.2; used := b; next := next e.2 |})
                   else e) l).
Proof.
  induction 1 as [|a h l Ha Hm H IH]; simpl; [constructor|].
  destruct (a =? x) eqn:Hax.
  - apply Z.eqb_eq in Hax as ->. constructor; [done| |done].
    unfold set_used. by rewrite lookup_alter_eq, Hm.
  - apply Z.eqb_neq in Hax. constructor; [done| |done].
    unfold set_used. by rewrite lookup_alter_ne.
Qed.

Lemma free_at_lseg x m c a l :
  lseg m c a l -> lseg (set_used x false m) c a (free_at x l).
Proof. apply set_used_lseg. Qed.

Lemma dfree_scan_spec fuel cfuel bh s a l :
  lseg (mem s) 0 a l ->
  dfree_scan fuel cfuel bh s a =
    (if decide (bh ∈ l.*1) then
       match coalesce_blocks cfuel (with_mem (set_used bh false (mem s)) s) with
       | Ret s => Ret (release s)
       | r => r
       end
     else Panic UnknownAddress (release s)) \/
  ((fuel <= length l)%nat /\ dfree_scan fuel cfuel bh s a = Diverge).
Proof.
  intros H. revert fuel.
  induction H as [|a h l Ha Hm H IH]; intros [|fuel]; cbn [dfree_scan];
    try (right; split; [simpl; lia|done]).
  - left. rewrite decide_False; [done|apply not_elem_of_nil].
  - apply Z.eqb_neq in Ha as Ha'. rewrite Ha'.
    destruct (a =? bh) eqn:Hab; rewrite Hm.
    + apply Z.eqb_eq in Hab as ->. left. rewrite decide_True; [done|left].
    + apply Z.eqb_neq in Hab.
      destruct (IH fuel) as [->|[Hle ->]]; [left|right; split; [simpl; lia|done]].
      destruct (decide (bh ∈ l.*1)) as [Hin|Hin].
      * rewrite decide_True; [done|by right].
      * rewrite decide_False; [done|]. apply not_elem_of_cons. done.
Qed.

(** ** Layout after a successful [dalloc] *)

Lemma take_list_contiguous size r c h :
  0 <= size < 2 ^ 32 -> r = required_size size ->
  0 <= data_size h < 2 ^ 32 -> data_size h mod 16 = 0 ->
  0 <= c -> c + HEADER_SIZE + data_size h < 2 ^ 64 ->
  ~ (r = 0 /\ 0 < data_size h) ->
  contiguous c (take_list size r c h) (c + HEADER_SIZE + data_size h).
Proof.
  intros Hs -> Hd Hd16 Hc Hce Hknot.
  pose proof (required_size_bounds size) as [Hr Hr16].
  pose proof (align_up_bounds size) as [Ha Ha16].
  unfold take_list. destruct (required_size size <? data_size h) eqn:Hlt; simpl.
  - apply Z.ltb_lt in Hlt.
    assert (Hne : required_size size <> 0) by lia.
    pose proof (required_size_split size Hs Hne) as Hrs.
    unwrap.
    assert (Hnb : (c + required_size size) mod 18446744073709551616
                  = c + required_size size) by (apply Z.mod_small; lia).
    assert (Hds : (data_size h - required_size size) mod 4294967296
                  = data_size h - required_size size) by (apply Z.mod_small; lia).
    rewrite Hnb, Hds.
    repeat split; try lia.
    rewrite Zminus_mod, Hd16, Hr16. done.
  - repeat split; try lia.
Qed.

Lemma take_list_total size r c h :
  0 <= size < 2 ^ 32 -> r = required_size size ->
  0 <= data_size h < 2 ^ 32 ->
  ~ (r = 0 /\ 0 < data_size h) ->
  total (take_list size r c h) = HEADER_SIZE + data_size h.
Proof.
  intros Hs -> Hd Hknot.
  pose proof (required_size_bounds size) as [Hr Hr16].
  unfold take_list. destruct (required_size size <? data_size h) eqn:Hlt; simpl.
  - apply Z.ltb_lt in Hlt.
    assert (Hne : required_size size <> 0) by lia.
    pose proof (required_size_split size Hs Hne) as Hrs.
    unwrap.
    assert (Hds : (data_size h - required_size size) mod 4294967296
                  = data_size h - required_size size) by (apply Z.mod_small; lia).
    rewrite Hds. lia.
  - lia.
Qed.

Lemma contiguous_elem a l e x h :
  contiguous a l e -> (x, h) ∈ l ->
  a <= x /\ x + HEADER_SIZE + data_size h <= e /\
  0 <= data_size h < 2 ^ 32 /\ data_size h mod 16 = 0.
Proof.
  revert a. induction l as [|b t IH]; intros a H Hx; simpl in *.
  - by apply elem_of_nil in Hx.
  - destruct H as (Hb & Hd & Hd16 & H).
    pose proof (contiguous_total _ _ _ H). pose proof (total_nonneg _ _ _ H).
    apply elem_of_cons in Hx as [<-|Hx]; simpl in *.
    + unfold HEADER_SIZE in *. repeat split; try done; lia.
    + destruct (IH _ H Hx) as (? & ? & ? & ?). unfold HEADER_SIZE in *.
      repeat split; try done; lia.
Qed.

Lemma contiguous_sorted a l1 c h l2 e :
  contiguous a (l1 ++ (c, h) :: l2) e ->
  c = a + total l1 /\
  (forall x, x ∈ l1.*1 -> x + HEADER_SIZE <= c) /\
  (forall x, x ∈ l2.*1 -> c + HEADER_SIZE + data_size h <= x).
Proof.
  intros H. apply contiguous_app in H as [H1 H2].
  simpl in H2. destruct H2 as (Hc & _ & _ & H2). split; [done|]. split.
  - intros x Hx. destruct (contiguous_bounds _ _ _ _ H1 Hx). lia.
  - intros x Hx. destruct (contiguous_bounds _ _ _ _ H2 Hx). lia.
Qed.

Lemma lseg_next_in m b a l x h :
  lseg m b a l -> (x, h) ∈ l -> next h ∈ l.*1 \/ next h = b.
Proof.
  induction 1 as [|a h' l Ha Hm H IH]; intros Hin.
  - by apply elem_of_nil in Hin.
  - apply elem_of_cons in Hin as [[= -> ->]|Hin].
    + inversion H; subst; [by right|]. left. simpl. right. left.
    + destruct (IH Hin) as [?|?]; [left|by right]. simpl. by right.
Qed.

(** ** Neighbouring free blocks *)

Lemma naf_cons b t :
  no_adjacent_free (b :: t) <->
  (forall n, head t = Some n -> ~ (used b.2 = false /\ used n.2 = false)) /\
  no_adjacent_free t.
Proof.
  simpl. destruct t as [|n t]; simpl.
  - split; [|tauto]. intros [_ ?]. split; [|done]. intros n [=].
  - split; intros [H1 H2]; (split; [|done]).
    + by intros n' [= <-].
    + by apply H1.
Qed.

Lemma naf_app l1 l2 :
  no_adjacent_free (l1 ++ l2) <->
  no_adjacent_free l1 /\ no_adjacent_free l2 /\
  (forall x y, last l1 = Some x -> head l2 = Some y ->
               ~ (used x.2 = false /\ used y.2 = false)).
Proof.
  induction l1 as [|b t IH].
  - simpl. split; [|tauto]. intros H. split; [done|]. split; [done|]. intros x y [=].
  - change ((b :: t) ++ l2) with (b :: (t ++ l2)). rewrite !naf_cons, IH.
    destruct t as [|n t].
    + simpl. split.
      * intros (H1 & _ & H2 & _). split; [split; [by intros n [=]|done]|].
        split; [done|]. intros x y [= <-] Hy. by apply H1.
      * intros ((_ & _) & H2 & H3). split; [|split; [done|split; [done|by intros x y [=]]]].
        intros n Hn. by apply H3.
    + change (last (b :: n :: t)) with (last (n :: t)). simpl head. tauto.
Qed.

Lemma coal_head cur rest :
  exists h' t', coal cur rest = (cur.1, h') :: t' /\ used h' = used cur.2.
Proof.
  revert cur. induction rest as [|nx t IH]; intros cur; simpl.
  - exists cur.2, []. by destruct cur.
  - destruct (negb (used cur.2) && negb (used nx.2)).
    + destruct (IH (cur.1, merge cur.2 nx.2)) as (h' & t' & -> & Hu). by exists h', t'.
    + exists cur.2, (coal nx t). by destruct cur.
Qed.

(** One pass leaves no two free neighbours. *)
Lemma coal_naf cur rest : no_adjacent_free (coal cur rest).
Proof.
  revert cur. induction rest as [|nx t IH]; intros cur; simpl; [done|].
  destruct (negb (used cur.2) && negb (used nx.2)) eqn:Hfree; [apply IH|].
  apply naf_cons. split; [|apply IH].
  destruct (coal_head nx t) as (h' & t' & -> & Hu). intros n [= <-]. simpl.
  rewrite Hu. intros [H1 H2]. by rewrite H1, H2 in Hfree.
Qed.

Lemma coalesce_list_naf l : no_adjacent_free (coalesce_list l).
Proof. destruct l; [done|apply coal_naf]. Qed.

Lemma coal_length cur rest : (length (coal cur rest) <= S (length rest))%nat.
Proof.
  revert cur. induction rest as [|nx t IH]; intros cur; simpl; [done|].
  destruct (negb (used cur.2) && negb (used nx.2)).
  - specialize (IH (cur.1, merge cur.2 nx.2)). lia.
  - simpl. specialize (IH nx). lia.
Qed.

Lemma coalesce_list_length l : (length (coalesce_list l) <= length l)%nat.
Proof. destruct l; [done|apply coal_length]. Qed.

Lemma coal_contiguous rest : forall cur a e,
  e - a < 2 ^ 32 ->
  contiguous a (cur :: rest) e -> contiguous a (coal cur rest) e.
Proof.
  induction rest as [|nx t IH]; intros cur a e Hsz H; [done|].
  simpl in H. destruct H as (Hc & Hd & Hd16 & Hn & Hdn & Hdn16 & Ht).
  pose proof (contiguous_total _ _ _ Ht). pose proof (total_nonneg _ _ _ Ht).
  simpl. destruct (negb (used cur.2) && negb (used nx.2)).
  - apply IH; [done|]. simpl. unfold merge, HEADER_SIZE in *. simpl.
    assert (Hw : wrap32 (data_size cur.2 + wrap32 (data_size nx.2 + 16))
                 = data_size cur.2 + data_size nx.2 + 16).
    { unwrap. rewrite (Z.mod_small (data_size nx.2 + 16)) by lia.
      rewrite Z.mod_small; lia. }
    rewrite Hw. split; [done|]. split; [lia|]. split.
    + clear -Hd16 Hdn16. Z.div_mod_to_equations. lia.
    + replace (a + 16 + (data_size cur.2 + data_size nx.2 + 16))
        with (a + 16 + data_size cur.2 + 16 + data_size nx.2) by lia. done.
  - simpl. split; [done|]. split; [done|]. split; [done|].
    apply IH; [unfold HEADER_SIZE in *; lia|]. simpl. done.
Qed.

Lemma coalesce_list_contiguous l a e :
  e - a < 2 ^ 32 -> contiguous a l e -> contiguous a (coalesce_list l) e.
Proof. destruct l; [done|apply coal_contiguous]. Qed.

Lemma live_cons b t :
  live (b :: t) = if used b.2 then (b.1 + HEADER_SIZE) :: live t else live t.
Proof.
  unfold live. rewrite filter_cons. destruct (used b.2) eqn:Hu.
  - rewrite decide_True by done. done.
  - rewrite decide_False by done. done.
Qed.

Lemma live_app l1 l2 : live (l1 ++ l2) = live l1 ++ live l2.
Proof. unfold live. by rewrite filter_app, map_app. Qed.

(** Coalescing only ever removes free blocks. *)
Lemma coal_live rest : forall cur, live (coal cur rest) = live (cur :: rest).
Proof.
  induction rest as [|nx t IH]; intros cur; simpl; [done|].
  destruct (negb (used cur.2) && negb (used nx.2)) eqn:Hfree.
  - rewrite IH. rewrite !live_cons. simpl.
    destruct (used cur.2), (used nx.2); done.
  - rewrite (live_cons cur (coal nx t)), IH, (live_cons cur (nx :: t)). done.
Qed.

Lemma coalesce_list_live l : live (coalesce_list l) = live l.
Proof. destruct l; [done|apply coal_live]. Qed.

(** ** Marking a block free *)

Lemma free_at_length x l : length (free_at x l) = length l.
Proof. apply length_map. Qed.

Lemma free_at_contiguous x l : forall a e,
  contiguous a l e -> contiguous a (free_at x l) e.
Proof.
  induction l as [|b t IH]; intros a e H; simpl in *; [done|].
  destruct H as (? & ? & ? & H). apply IH in H. by destruct (b.1 =? x).
Qed.

Lemma free_at_notin x l : x ∉ l.*1 -> free_at x l = l.
Proof.
  induction l as [|b t IH]; simpl; [done|]. intros Hx.
  apply not_elem_of_cons in Hx as [Hb Ht]. rewrite IH by done.
  destruct (b.1 =? x) eqn:E; [|done]. apply Z.eqb_eq in E. congruence.
Qed.

Lemma free_at_split x h l1 l2 :
  NoDup (l1 ++ (x, h) :: l2).*1 ->
  free_at x (l1 ++ (x, h) :: l2) = l1 ++ (x, mark_free h) :: l2.
Proof.
  intros Hnd. rewrite fmap_app in Hnd. simpl in Hnd.
  apply NoDup_app in Hnd as (_ & H1 & H2). apply NoDup_cons in H2 as [H2 _].
  unfold free_at at 1. rewrite map_app. simpl. rewrite Z.eqb_refl.
  fold (free_at x l1). fold (free_at x l2).
  rewrite !free_at_notin; [done|done|].
  intros Hin. apply (H1 x Hin). left.
Qed.

Lemma take_list_naf l1 c h l2 size r :
  no_adjacent_free (l1 ++ (c, h) :: l2) -> used h = false ->
  no_adjacent_free (l1 ++ take_list size r c h ++ l2).
Proof.
  intros H Hu. apply naf_app in H as (H1 & H2 & H3).
  apply naf_cons in H2 as [Hhd H2]. simpl in Hhd.
  apply naf_app. split; [done|]. unfold take_list.
  destruct (r <? data_size h); simpl app.
  - split.
    + apply naf_cons. split; [intros n [= <-]; simpl; by intros [? _]|].
      apply naf_cons. split; [|done]. intros n Hn. simpl.
      intros [_ Hf]. apply (Hhd n Hn). done.
    + intros x y _ [= <-]. simpl. by intros [_ ?].
  - split.
    + apply naf_cons. split; [|done]. intros n _. simpl. by intros [? _].
    + intros x y _ [= <-]. simpl. by intros [_ ?].
Qed.

Lemma take_list_live l1 c h l2 size r :
  used h = false ->
  live (l1 ++ take_list size r c h ++ l2)
  = live l1 ++ (c + HEADER_SIZE) :: live l2 /\
  live (l1 ++ (c, h) :: l2) = live l1 ++ live l2.
Proof.
  intros Hu. rewrite !live_app. split.
  - f_equal. unfold take_list. destruct (r <? data_size h); by rewrite !live_cons.
  - f_equal. rewrite live_cons. simpl. by rewrite Hu.
Qed.

Lemma take_list_length size r c h : (1 <= length (take_list size r c h) <= 2)%nat.
Proof. unfold take_list. destruct (r <? data_size h); simpl; lia. Qed.

Lemma coalesce_blocks_spec fuel s l :
  blocks s l ->
  (exists m', coalesce_blocks fuel s = Ret (with_mem m' s) /\
              lseg m' 0 (start s) (coalesce_list l)) \/
  ((fuel <= length l)%nat /\ coalesce_blocks fuel s = Diverge).
Proof.
  intros Hb. unfold coalesce_blocks.
  destruct (coalesce_loop_lseg fuel _ _ _ Hb) as [(m' & -> & Hl & _)|[Hle ->]].
  - left. by exists m'.
  - by right.
Qed.

(** The ways a call of [dfree] ends on a heap whose block sequence is [l]. *)
Lemma dfree_spec fuel p s l :
  blocks s l ->
  let bh := wrap64 (p - HEADER_SIZE) in
  (bh mod ALIGNMENT_SIZE <> 0 /\ dfree fuel p s = Panic MisalignedAddress s) \/
  (bh mod ALIGNMENT_SIZE = 0 /\ (bh ∉ l.*1) /\
   dfree fuel p s = Panic UnknownAddress (release s)) \/
  (bh mod ALIGNMENT_SIZE = 0 /\ bh ∈ l.*1 /\
   exists m', dfree fuel p s = Ret (release (with_mem m' s)) /\
              lseg m' 0 (start s) (coalesce_list (free_at bh l))) \/
  ((fuel <= length l)%nat /\ dfree fuel p s = Diverge).
Proof.
  intros Hb bh. unfold dfree. fold bh.
  destruct (bh mod ALIGNMENT_SIZE =? 0) eqn:Hal; simpl.
  - apply Z.eqb_eq in Hal. right.
    destruct (dfree_scan_spec fuel fuel bh (acquire s) (start s) l Hb) as [->|[Hle ->]].
    + destruct (decide (bh ∈ l.*1)) as [Hin|Hin]; [|by left].
      right.
      assert (Hb' : blocks (with_mem (set_used bh false (mem (acquire s))) (acquire s))
                      (free_at bh l)) by (by apply free_at_lseg).
      destruct (coalesce_blocks_spec fuel _ _ Hb') as [(m' & -> & Hl)|[Hle ->]].
      * left. split; [done|]. split; [done|]. by exists m'.
      * right. by rewrite free_at_length in Hle.
    + right. right. done.
  - apply Z.eqb_neq in Hal. by left.
Qed.

Lemma contiguous_aligned a l e x :
  (a mod 16 = 0) -> contiguous a l e -> x ∈ l.*1 -> x mod 16 = 0.
Proof.
  revert a. induction l as [|b t IH]; intros a Ha H Hx; simpl in *.
  - by apply elem_of_nil in Hx.
  - destruct H as (Hb & _ & Hd16 & H). apply elem_of_cons in Hx as [->|Hx].
    + by rewrite Hb.
    + eapply IH; [|exact H|done]. unfold HEADER_SIZE.
      clear -Ha Hd16. Z.div_mod_to_equations. lia.
Qed.

Lemma live_elem q l :
  q ∈ live l <-> exists x h, (x, h) ∈ l /\ used h = true /\ q = x + HEADER_SIZE.
Proof.
  unfold live. rewrite list_elem_of_fmap. split.
  - intros ([x h] & -> & Hin). apply list_elem_of_filter in Hin as [Hu Hin].
    by exists x, h.
  - intros (x & h & Hin & Hu & ->). exists (x, h). split; [done|].
    by apply list_elem_of_filter.
Qed.

(** ** Alignment *)

Lemma wrap64_mod16 x : wrap64 x mod 16 = x mod 16.
Proof. unwrap. Z.div_mod_to_equations. lia. Qed.

Lemma wrap32_mod16 x : wrap32 x mod 16 = x mod 16.
Proof. unwrap. Z.div_mod_to_equations. lia. Qed.

Lemma in_seq_aligned_set T s a :
  aligned_set T (mem s) -> start s = 0 \/ T (start s) -> in_seq s a -> T a.
Proof.
  intros HT Hst. induction 1 as [Hs0|a h _ IH Hm Hn]; [by destruct Hst|].
  destruct (HT a IH) as (_ & h' & Hm' & _ & [?|?]);
    rewrite Hm in Hm'; injection Hm' as <-; done.
Qed.

(** Selecting a block keeps the visited headers aligned; the new header,
    if any, joins them. *)
Lemma take_block_aligned T size r c h m :
  aligned_set T m -> T c -> m !! c = Some h -> r mod 16 = 0 ->
  exists T' : Z -> Prop,
    (forall x, T x -> T' x) /\ aligned_set T' (take_block size r c h m).
Proof.
  intros HT Hc Hm Hr.
  destruct (HT c Hc) as (Hc16 & h' & Hm' & Hd16 & Hn).
  rewrite Hm in Hm'. injection Hm' as <-.
  pose proof (align_up_bounds size) as [_ Ha16].
  destruct (r <? data_size h) eqn:Hlt.
  - exists (fun x => T x \/ x = wrap64 (c + r)). split; [by left|].
    intros x Hx. rewrite take_block_lookup by done. rewrite Hlt.
    assert (Hnb16 : wrap64 (c + r) mod 16 = 0).
    { rewrite wrap64_mod16. clear -Hc16 Hr. Z.div_mod_to_equations. lia. }
    destruct (decide (x = c)) as [->|Hxc]; [|destruct (decide _) as [->|Hxn]].
    + split; [done|]. eexists. split; [done|]. simpl. split; [done|]. right. by right.
    + split; [done|]. eexists. split; [done|]. simpl. split.
      * rewrite wrap32_mod16. clear -Hd16 Hr. Z.div_mod_to_equations. lia.
      * destruct Hn; [by left|right; by left].
    + destruct Hx as [Hx|?]; [|done].
      destruct (HT x Hx) as (? & hx & ? & ? & Hnx). split; [done|].
      exists hx. split; [done|]. split; [done|].
      destruct Hnx; [by left|right; by left].
  - exists T. split; [done|].
    intros x Hx. rewrite take_block_lookup by done. rewrite Hlt.
    destruct (decide (x = c)) as [->|Hxc]; [|by apply HT].
    split; [done|]. eexists. split; [done|]. simpl. done.
Qed.

Lemma dalloc_scan_aligned T fuel size r s : forall a s' p,
  aligned_set T (mem s) -> r mod 16 = 0 -> a = 0 \/ T a ->
  dalloc_scan fuel size r s a = Ret (s', p) ->
  start s' = start s /\ p mod 16 = 0 /\
  exists T' : Z -> Prop, (forall x, T x -> T' x) /\ aligned_set T' (mem s').
Proof.
  induction fuel as [|fuel IH]; intros a s' p HT Hr Ha Hd; simpl in Hd; [done|].
  destruct (a =? 0) eqn:Ha0.
  - injection Hd as <- <-. split; [done|]. split; [done|]. by exists T.
  - apply Z.eqb_neq in Ha0. destruct Ha as [?|Ha]; [done|].
    destruct (HT a Ha) as (Ha16 & h & Hm & _ & Hn). rewrite Hm in Hd.
    destruct (negb (used h) && (r <=? data_size h)).
    + injection Hd as <- <-. split; [done|]. split.
      * rewrite wrap64_mod16. unfold HEADER_SIZE. clear -Ha16.
        Z.div_mod_to_equations. lia.
      * simpl. by eapply take_block_aligned.
    + by eapply IH.
Qed.

Lemma coalesce_loop_aligned T fuel : forall m a m',
  aligned_set T m -> a = 0 \/ T a ->
  coalesce_loop fuel m a = Ret m' -> aligned_set T m'.
Proof.
  induction fuel as [|fuel IH]; intros m a m' HT Ha Hc; simpl in Hc; [done|].
  destruct (a =? 0) eqn:Ha0; [by injection Hc as <-|].
  apply Z.eqb_neq in Ha0. destruct Ha as [?|Ha]; [done|].
  destruct (HT a Ha) as (Ha16 & h & Hm & Hd16 & Hn). rewrite Hm in Hc.
  destruct (next h =? 0) eqn:Hn0; [by injection Hc as <-|].
  apply Z.eqb_neq in Hn0. destruct Hn as [?|Hn]; [done|].
  destruct (used h); [by eapply IH; [| |exact Hc]; [|right]|].
  destruct (HT _ Hn) as (_ & n & Hmn & Hdn16 & Hnn). rewrite Hmn in Hc.
  destruct (used n); [by eapply IH; [| |exact Hc]; [|right]|].
  eapply IH; [|right; exact Ha|exact Hc].
  intros x Hx. destruct (decide (x = a)) as [->|Hxa].
  - split; [done|]. eexists. split; [by apply merge_lookup|]. simpl. split; [|done].
    rewrite wrap32_mod16. unfold HEADER_SIZE.
    pose proof (wrap32_mod16 (data_size n + 16)) as Hw.
    clear -Hd16 Hdn16 Hw. Z.div_mod_to_equations. lia.
  - rewrite merge_lookup_ne by done. by apply HT.
Qed.

Lemma dfree_scan_aligned T fuel cfuel bh s : forall a s',
  aligned_set T (mem s) -> start s = 0 \/ T (start s) -> a = 0 \/ T a ->
  dfree_scan fuel cfuel bh s a = Ret s' ->
  start s' = start s /\ aligned_set T (mem s').
Proof.
  induction fuel as [|fuel IH]; intros a s' HT Hst Ha Hd; simpl in Hd; [done|].
  destruct (a =? 0) eqn:Ha0; [done|].
  apply Z.eqb_neq in Ha0. destruct Ha as [?|Ha]; [done|].
  destruct (HT a Ha) as (Ha16 & h & Hm & Hd16 & Hn). rewrite Hm in Hd.
  destruct (a =? bh); [|by eapply IH].
  unfold coalesce_blocks in Hd. simpl in Hd.
  destruct (coalesce_loop cfuel (set_used a false (mem s)) (start s))
    as [m'| | |] eqn:Hc; try done.
  injection Hd as <-. split; [done|]. simpl.
  eapply coalesce_loop_aligned; [|exact Hst|exact Hc].
  intros x Hx. destruct (HT x Hx) as (? & hx & Hmx & ? & ?). split; [done|].
  unfold set_used. destruct (decide (x = a)) as [->|Hxa].
  - rewrite lookup_alter_eq, Hmx. eexists. split; [done|]. done.
  - rewrite lookup_alter_ne by done. by exists hx.
Qed.

Section Alignment.

Variables PHYSTOP HEAP_SIZE : Z.

(** The heap base is 16-aligned and the heap size is a multiple of 16. *)
Hypothesis Hbase16 : heap_base PHYSTOP HEAP_SIZE mod 16 = 0.
Hypothesis Hsize16 : HEAP_SIZE mod 16 = 0.

Lemma reachable_aligned_set s :
  reachable PHYSTOP HEAP_SIZE s ->
  exists T : Z -> Prop, (start s = 0 \/ T (start s)) /\ aligned_set T (mem s).
Proof.
  induction 1 as [s|s fuel size s' p _ IH Hs _ Hr|s fuel p s' _ IH Hp Hr].
  - exists (fun a => a = heap_base PHYSTOP HEAP_SIZE). simpl.
    split; [by right|]. intros a ->. split; [done|].
    eexists. split; [by rewrite lookup_insert_eq|]. simpl. split; [|by left].
    rewrite wrap32_mod16. unfold HEADER_SIZE. clear -Hsize16.
    Z.div_mod_to_equations. lia.
  - destruct IH as (T & Hst & HT). unfold dalloc in Hr.
    destruct (dalloc_scan_aligned T _ _ _ (acquire s) _ _ _ HT
                (proj2 (required_size_bounds size)) Hst Hr)
      as (Hst' & _ & T' & HTT' & HT').
    exists T'. split; [|done]. rewrite Hst'. simpl.
    destruct Hst; [by left|right; by apply HTT'].
  - destruct IH as (T & Hst & HT). unfold dfree in Hr.
    destruct (negb (wrap64 (p - HEADER_SIZE) mod ALIGNMENT_SIZE =? 0)); [done|].
    destruct (dfree_scan_aligned T _ _ _ (acquire s) _ _ HT Hst Hst Hr)
      as (Hst' & HT').
    exists T. split; [|done]. by rewrite Hst'.
Qed.

(** C8. Alignment: with the heap base 16-aligned and the heap size a
    multiple of 16, in every reachable state every block of the sequence
    starts at a multiple of 16 and has a [data_size] that is a multiple of
    16, and every pointer [dalloc] returns is a multiple of 16. *)
Theorem reachable_aligned s :
  reachable PHYSTOP HEAP_SIZE s ->
  (forall a, in_seq s a ->
     a mod 16 = 0 /\ exists h, mem s !! a = Some h /\ data_size h mod 16 = 0) /\
  (forall fuel size s' p,
     dalloc fuel size s = Ret (s', p) -> p mod 16 = 0).
Proof.
  intros Hr. destruct (reachable_aligned_set s Hr) as (T & Hst & HT). split.
  - intros a Ha. apply (in_seq_aligned_set T) in Ha; [|done|done].
    destruct (HT a Ha) as (? & h & ? & ? & _). eauto.
  - intros fuel size s' p Hd. unfold dalloc in Hd.
    by destruct (dalloc_scan_aligned T _ _ _ (acquire s) _ _ _ HT
                   (proj2 (required_size_bounds size)) Hst Hd) as (_ & ? & _).
Qed.

End Alignment.

(** ** The helpers of memtest.c *)

(** X18. Whatever the state of the generator, [rand] returns a value
    between 0 and 32767 and touches nothing but the generator; the size
    [random_test] derives from it, [(rand() % 100000) + 1], is that value
    plus one, so between 1 and 32768, and its requirement never wraps. *)
Theorem rand_range k :
  let r := (rand k).1 in
  0 <= r < 32768 /\
  heap (rand k).2 = heap k /\ console (rand k).2 = console k /\
  ram (rand k).2 = ram k /\
  wrap32 (Z.rem r 100000 + 1) = r + 1 /\
  required_size (r + 1) = round_up (r + 1 + HEADER_SIZE) ALIGNMENT_SIZE.
Proof.
  cbv zeta. unfold rand. simpl.
  assert (Hr : 0 <= wrap32 (wrap64 (rand_next k * 1103515245 + 12345) / 65536)
                    mod 32768 < 32768) by (apply Z.mod_pos_bound; lia).
  set (r := wrap32 _ mod 32768) in *.
  split; [done|]. split; [done|]. split; [done|]. split; [done|]. split.
  - rewrite Z.rem_small by lia. unfold wrap32. apply Z.mod_small. lia.
  - apply required_size_exact. lia.
Qed.

Lemma lookup_filter_keep {A} (P : Z * A -> Prop) `{!forall x, Decision (P x)}
    (m : gmap Z A) a :
  (forall h, m !! a = Some h -> P (a, h)) -> filter P m !! a = m !! a.
Proof.
  intros HP. destruct (m !! a) as [h|] eqn:E.
  - apply map_lookup_filter_Some. split; [done|]. by apply HP.
  - apply map_lookup_filter_None. by left.
Qed.

Lemma header_eqb_refl h : header_eqb h h = true.
Proof.
  unfold header_eqb. rewrite !Z.eqb_refl. by destruct (used h).
Qed.

Lemma rewritten_true (m m' : gmap Z dheader) a :
  rewritten m m' a = true -> m' !! a <> m !! a.
Proof.
  unfold rewritten. destruct (m' !! a) as [h'|]; [|done].
  destruct (m !! a) as [h|]; [|done].
  intros Hn [= ->]. by rewrite header_eqb_refl in Hn.
Qed.

(** A byte under no header that has changed stays known. *)
Lemma forget_keep (m m' : gmap Z dheader) (bytes : gmap Z Z) x :
  (forall a, a <= x < a + HEADER_SIZE -> m' !! a <> m !! a -> False) ->
  forget m m' bytes !! x = bytes !! x.
Proof.
  intros Hc. unfold forget. apply lookup_filter_keep. intros b _. cbn [fst].
  apply forallb_forall. intros d Hd%List.in_seq. apply negb_true_iff.
  destruct (rewritten m m' (x - Z.of_nat d)) eqn:E; [|done].
  apply rewritten_true in E. destruct (Hc (x - Z.of_nat d)); [|done].
  unfold HEADER_SIZE. lia.
Qed.

Lemma holds_frame bs : forall (ram ram' : gmap Z Z) a,
  holds ram a bs ->
  (forall x, a <= x < a + Z.of_nat (length bs) -> ram' !! x = ram !! x) ->
  holds ram' a bs.
Proof.
  induction bs as [|b bs IH]; intros ram ram' a Hh Hfr; [done|].
  destruct Hh as [Hb Hh]. simpl length in Hfr. split.
  - rewrite Hfr; [done|lia].
  - apply (IH ram); [done|]. intros x Hx. apply Hfr. lia.
Qed.

Lemma holds_lookup bs : forall (ram : gmap Z Z) a i b,
  holds ram a bs -> bs !! i = Some b -> ram !! (a + Z.of_nat i) = Some b.
Proof.
  induction bs as [|c bs IH]; intros ram a i b Hh Hi; [done|].
  destruct Hh as [Hc Hh]. destruct i as [|i]; simpl in Hi.
  - injection Hi as <-. by rewrite Z.add_0_r.
  - replace (a + Z.of_nat (S i)) with (a + 1 + Z.of_nat i) by lia. by apply IH.
Qed.

(** What a store through a pointer that is not null does. *)
Lemma poke_spec x v k :
  x <> 0 ->
  exists k',
    poke x v k = Some k' /\
    ram k' = <[x := v]> (ram k) /\
    (forall a, ~ (a <= x < a + HEADER_SIZE) -> mem (heap k') !! a = mem (heap k) !! a) /\
    lock (heap k') = lock (heap k) /\ start (heap k') = start (heap k) /\
    console k' = console k /\ rand_next k' = rand_next k.
Proof.
  intros Hx. unfold poke. apply Z.eqb_neq in Hx. rewrite Hx.
  eexists. split; [done|]. simpl. split; [done|]. split; [|done].
  intros a Ha. by apply lookup_filter_keep.
Qed.

(** The copy loop on a string that ends in a zero byte, with the
    destination at or before the source, or behind the string. *)
Lemma strcpy_loop_spec bs : forall fuel k dest src,
  holds (ram k) src (bs ++ [0]) -> Forall (fun b => b <> 0) bs ->
  0 < src -> src + Z.of_nat (length bs) < 2 ^ 64 ->
  0 < dest -> dest + Z.of_nat (length bs) < 2 ^ 64 ->
  dest <= src \/ src + Z.of_nat (length bs) < dest ->
  (length bs < fuel)%nat ->
  exists k',
    strcpy_loop fuel k dest src = Ret k' /\
    holds (ram k') dest (bs ++ [0]) /\
    (forall a, ~ (dest <= a <= dest + Z.of_nat (length bs)) ->
       ram k' !! a = ram k !! a) /\
    (forall a, a + HEADER_SIZE <= dest \/ dest + Z.of_nat (length bs) < a ->
       mem (heap k') !! a = mem (heap k) !! a) /\
    lock (heap k') = lock (heap k) /\ start (heap k') = start (heap k) /\
    console k' = console k /\ rand_next k' = rand_next k.
Proof.
  induction bs as [|b bs IH]; intros fuel k dest src Hh Hnz Hs0 Hs1 Hd0 Hd1 Hov Hf;
    (destruct fuel as [|fuel]; [simpl in Hf; lia|]); cbn [strcpy_loop];
    destruct Hh as [Hb Hh]; unfold peek;
    destruct (Z.eqb_spec src 0) as [?|_]; try lia; rewrite Hb;
    [destruct (poke_spec dest 0 k ltac:(lia))
       as (k1 & -> & Hram & Hmem & Hlk & Hst & Hco & Hrn)
    |destruct (poke_spec dest b k ltac:(lia))
       as (k1 & -> & Hram & Hmem & Hlk & Hst & Hco & Hrn)].
  - simpl. exists k1. split; [done|]. rewrite Hram.
    split; [split; [by rewrite lookup_insert_eq|done]|].
    split; [intros a Ha; apply lookup_insert_ne; simpl in Ha; lia|].
    split; [|done]. intros a Ha. apply Hmem. simpl in Ha. unfold HEADER_SIZE in *. lia.
  - apply Forall_cons in Hnz as [Hb0 Hnz].
    apply Z.eqb_neq in Hb0 as Hb0'. rewrite Hb0'.
    simpl length in *.
    assert (Hw1 : wrap64 (dest + 1) = dest + 1) by (unwrap; apply Z.mod_small; lia).
    assert (Hw2 : wrap64 (src + 1) = src + 1) by (unwrap; apply Z.mod_small; lia).
    rewrite Hw1, Hw2.
    destruct (IH fuel k1 (dest + 1) (src + 1))
      as (k' & Hr & Hh' & Hfr & Hfm & Hlk' & Hst' & Hco' & Hrn'); try lia; try done.
    { rewrite Hram. apply (holds_frame _ (ram k)); [done|]. intros x Hx.
      apply lookup_insert_ne. rewrite length_app in Hx. simpl in Hx. lia. }
    exists k'. split; [done|]. split; [split; [|done]|].
    { rewrite Hfr by lia. rewrite Hram. by rewrite lookup_insert_eq. }
    split; [|split; [|split; [congruence|split; [congruence|split; congruence]]]].
    + intros a Ha. rewrite Hfr by lia. rewrite Hram. apply lookup_insert_ne. lia.
    + intros a Ha. rewrite Hfm by lia. apply Hmem. unfold HEADER_SIZE in *. lia.
Qed.

(** X19. [my_strcpy] of a string that ends in a zero byte, through
    pointers that are not null, to a destination at or before the source
    or behind the string: it returns its first argument, the destination
    holds the string with its terminator, no byte outside the destination
    has changed, and neither has any header that lies clear of it. *)
Theorem my_strcpy_copies fuel k dest src bs :
  holds (ram k) src (bs ++ [0]) -> Forall (fun b => b <> 0) bs ->
  0 < src -> src + Z.of_nat (length bs) < 2 ^ 64 ->
  0 < dest -> dest + Z.of_nat (length bs) < 2 ^ 64 ->
  dest <= src \/ src + Z.of_nat (length bs) < dest ->
  (length bs < fuel)%nat ->
  exists k',
    my_strcpy fuel k dest src = Ret (dest, k') /\
    holds (ram k') dest (bs ++ [0]) /\
    (forall a, ~ (dest <= a <= dest + Z.of_nat (length bs)) ->
       ram k' !! a = ram k !! a) /\
    (forall a, a + HEADER_SIZE <= dest \/ dest + Z.of_nat (length bs) < a ->
       mem (heap k') !! a = mem (heap k) !! a).
Proof.
  intros Hh Hnz Hs0 Hs1 Hd0 Hd1 Hov Hf.
  destruct (strcpy_loop_spec bs fuel k dest src)
    as (k' & Hr & H1 & H2 & H3 & _); try done.
  exists k'. split; [|done]. unfold my_strcpy. by rewrite Hr.
Qed.

(** The comparison loop from index [i] on, all bytes readable. *)
Lemma cmp_loop_spec k p1 p2 size : forall n fuel i,
  size < 2 ^ 32 -> 0 <= i <= size -> Z.to_nat (size - i) = n -> (n < fuel)%nat ->
  (forall j, i <= j < size ->
     is_Some (peek (wrap64 (p1 + j)) k) /\ is_Some (peek (wrap64 (p2 + j)) k)) ->
  exists r,
    cmp_loop fuel k p1 p2 size i = Ret r /\ (r = 0 \/ r = 1) /\
    (r = 1 <-> forall j, i <= j < size ->
                 peek (wrap64 (p1 + j)) k = peek (wrap64 (p2 + j)) k).
Proof.
  induction n as [|n IH]; intros fuel i Hsz Hi Hn Hf Hrd;
    (destruct fuel as [|fuel]; [lia|]); simpl.
  - assert (i = size) as -> by lia. rewrite Z.ltb_irrefl.
    exists 1. split; [done|]. split; [by right|]. split; [intros _ j ?; lia|done].
  - assert (Hlt : i < size) by lia. apply Z.ltb_lt in Hlt as Hlt'. rewrite Hlt'.
    destruct (Hrd i ltac:(lia)) as [[a Ha] [b Hb]]. rewrite Ha, Hb.
    destruct (Z.eqb_spec a b) as [->|Hab]; simpl.
    + assert (Hw : wrap32 (i + 1) = i + 1) by (unwrap; apply Z.mod_small; lia).
      rewrite Hw.
      destruct (IH fuel (i + 1)) as (r & Hr & H01 & Hiff); try lia.
      { intros j Hj. apply Hrd. lia. }
      exists r. split; [done|]. split; [done|]. rewrite Hiff. split.
      * intros H j Hj. destruct (decide (j = i)) as [->|]; [congruence|].
        apply H. lia.
      * intros H j Hj. apply H. lia.
    + exists 0. split; [done|]. split; [by left|]. split; [done|].
      intros H. specialize (H i ltac:(lia)). congruence.
Qed.

(** X20. [cmp] on two readable regions of [size] bytes returns 1 when they
    agree byte for byte and 0 otherwise; for [size = 0] it returns 1. *)
Theorem cmp_spec fuel k ptr1 ptr2 size :
  0 <= size < 2 ^ 32 -> (Z.to_nat size < fuel)%nat ->
  (forall j, 0 <= j < size ->
     is_Some (peek (wrap64 (ptr1 + j)) k) /\ is_Some (peek (wrap64 (ptr2 + j)) k)) ->
  exists r,
    cmp fuel k ptr1 ptr2 size = Ret r /\ (r = 0 \/ r = 1) /\
    (r = 1 <-> forall j, 0 <= j < size ->
                 peek (wrap64 (ptr1 + j)) k = peek (wrap64 (ptr2 + j)) k).
Proof.
  intros Hs Hf Hrd. unfold cmp.
  apply (cmp_loop_spec k ptr1 ptr2 size (Z.to_nat size)); try lia; try done.
Qed.

(** Two regions known to hold the same bytes compare equal. *)
Lemma cmp_holds fuel k p1 p2 bs :
  holds (ram k) p1 bs -> holds (ram k) p2 bs ->
  0 < p1 -> p1 + Z.of_nat (length bs) < 2 ^ 64 ->
  0 < p2 -> p2 + Z.of_nat (length bs) < 2 ^ 64 ->
  Z.of_nat (length bs) < 2 ^ 32 -> (length bs < fuel)%nat ->
  cmp fuel k p1 p2 (Z.of_nat (length bs)) = Ret 1.
Proof.
  intros H1 H2 Hp1 Hp1' Hp2 Hp2' Hlen Hf.
  assert (Hbyte : forall j, 0 <= j < Z.of_nat (length bs) ->
            exists b, peek (wrap64 (p1 + j)) k = Some b /\
                      peek (wrap64 (p2 + j)) k = Some b).
  { intros j Hj. destruct (lookup_lt_is_Some_2 bs (Z.to_nat j)) as [b Hb]; [lia|].
    exists b.
    pose proof (holds_lookup _ _ _ _ _ H1 Hb) as E1.
    pose proof (holds_lookup _ _ _ _ _ H2 Hb) as E2.
    rewrite Z2Nat.id in E1, E2 by lia.
    unfold peek, wrap64. rewrite !Z.mod_small by lia.
    destruct (Z.eqb_spec (p1 + j) 0); [lia|].
    destruct (Z.eqb_spec (p2 + j) 0); [lia|]. done. }
  destruct (cmp_loop_spec k p1 p2 (Z.of_nat (length bs)) (length bs) fuel 0)
    as (r & Hc & _ & Hiff); try lia.
  { intros j Hj. destruct (Hbyte j Hj) as (b & -> & ->). split; by eexists. }
  unfold cmp. rewrite Hc. f_equal. apply Hiff.
  intros j Hj. by destruct (Hbyte j Hj) as (b & -> & ->).
Qed.

(** X21. Copy, then compare, as [overwrite_test] does with each of its
    strings: after [my_strcpy] to a destination that does not overlap the
    source, [cmp] of the destination with the source over the length of
    the string returns 1. *)
Theorem strcpy_then_cmp fuel k dest src bs :
  holds (ram k) src (bs ++ [0]) -> Forall (fun b => b <> 0) bs ->
  0 < src -> src + Z.of_nat (length bs) < 2 ^ 64 ->
  0 < dest -> dest + Z.of_nat (length bs) < 2 ^ 64 ->
  dest + Z.of_nat (length bs) < src \/ src + Z.of_nat (length bs) < dest ->
  Z.of_nat (length bs) < 2 ^ 32 ->
  (length bs < fuel)%nat ->
  exists k',
    my_strcpy fuel k dest src = Ret (dest, k') /\
    cmp fuel k' dest src (Z.of_nat (length bs)) = Ret 1.
Proof.
  intros Hh Hnz Hs0 Hs1 Hd0 Hd1 Hov Hlen Hf.
  destruct (strcpy_loop_spec bs fuel k dest src) as (k' & Hr & Hh' & Hfr & _);
    try done; [lia|].
  exists k'. split; [unfold my_strcpy; by rewrite Hr|].
  assert (Hsrc : holds (ram k') src (bs ++ [0])).
  { apply (holds_frame _ (ram k)); [done|]. intros x Hx. apply Hfr.
    rewrite length_app in Hx. simpl in Hx. lia. }
  assert (Hpre : forall a, holds (ram k') a (bs ++ [0]) -> holds (ram k') a bs).
  { clear. induction bs as [|b bs IH]; intros a H; [done|].
    destruct H as [? H]. split; [done|]. by apply IH. }
  apply cmp_holds; auto.
Qed.

Section Invariants.

Variables PHYSTOP HEAP_SIZE : Z.

(** The region lies above address 0 and below 2^64, and its size fits an
    [unsigned] with room for one header. *)
Hypothesis Hbase : 0 < PHYSTOP - HEAP_SIZE.
Hypothesis Htop : PHYSTOP < 2 ^ 64.
Hypothesis Hsize : HEADER_SIZE <= HEAP_SIZE < 2 ^ 32.
Hypothesis Hsize16 : HEAP_SIZE mod 16 = 0.
Hypothesis Hbase16 : (PHYSTOP - HEAP_SIZE) mod 16 = 0.

Local Abbreviation base := (heap_base PHYSTOP HEAP_SIZE).
Local Abbreviation ok := (heap_ok PHYSTOP HEAP_SIZE).

Lemma heap_base_eq : base = PHYSTOP - HEAP_SIZE.
Proof. unfold heap_base. unwrap. apply Z.mod_small. lia. Qed.

Lemma dinit_ok s :
  ok (dinit PHYSTOP HEAP_SIZE s)
    [(base, {| data_size := HEAP_SIZE - HEADER_SIZE; used := false; next := 0 |})].
Proof.
  assert (Hw : wrap32 (HEAP_SIZE - HEADER_SIZE) = HEAP_SIZE - HEADER_SIZE).
  { unwrap. apply Z.mod_small. lia. }
  unfold heap_ok, blocks, dinit. simpl. rewrite Hw.
  split; [done|]. split; [done|]. split.
  - constructor.
    + rewrite heap_base_eq. lia.
    + by rewrite lookup_insert_eq.
    + constructor.
  - rewrite heap_base_eq. split; [done|]. unwrap. split; [lia|]. split; [|lia].
    rewrite Zminus_mod, Hsize16. done.
Qed.

Lemma heap_ok_elem s l x h :
  ok s l -> (x, h) ∈ l ->
  0 < x /\ x + HEADER_SIZE + data_size h <= PHYSTOP /\
  0 <= data_size h <= HEAP_SIZE - HEADER_SIZE /\ data_size h mod 16 = 0.
Proof.
  intros (_ & _ & _ & Hc) Hx.
  destruct (contiguous_elem _ _ _ _ _ Hc Hx) as (? & ? & ? & ?).
  rewrite heap_base_eq in *. unfold HEADER_SIZE in *. repeat split; try done; lia.
Qed.

(** A successful [dalloc] keeps the invariant, unless the requirement
    wrapped to 0 while the selected block has room to split. *)
Lemma take_block_ok s l1 c h l2 size r :
  ok s (l1 ++ (c, h) :: l2) ->
  0 <= size < 2 ^ 32 -> r = required_size size ->
  ~ (r = 0 /\ 0 < data_size h) ->
  ok (release (with_mem (take_block size r c h (mem s)) (acquire s)))
    (l1 ++ take_list size r c h ++ l2).
Proof.
  intros Hok Hs Hr Hknot.
  destruct (heap_ok_elem s _ c h Hok) as (Hc0 & Hce & Hd & Hd16).
  { apply elem_of_app. right. left. }
  destruct Hok as (Hl & Hst & Hb & Hc).
  pose proof (required_size_bounds size) as [Hrb Hr16].
  split; [done|]. split; [done|]. split.
  - unfold blocks in *. simpl. apply take_block_lseg; [done|].
    intros Hlt. apply Z.ltb_lt in Hlt.
    assert (Hw : wrap64 (c + r) = c + r).
    { unwrap. apply Z.mod_small. lia. }
    rewrite Hw. split; [lia|].
    destruct (contiguous_sorted _ _ _ _ _ _ Hc) as (_ & H1 & H2).
    rewrite fmap_app. simpl. intros Hin.
    apply elem_of_app in Hin as [Hin|Hin].
    + apply H1 in Hin. unfold HEADER_SIZE in *. lia.
    + apply elem_of_cons in Hin as [Hin|Hin]; [lia|].
      apply H2 in Hin. unfold HEADER_SIZE in *. lia.
  - apply contiguous_app in Hc as [H1 H2].
    pose proof H2 as (Hca & _ & _ & H3). simpl in Hca.
    apply contiguous_app. split; [done|]. rewrite <- Hca.
    assert (Hd32 : 0 <= data_size h < 2 ^ 32) by (unfold HEADER_SIZE in *; lia).
    simpl in H3. rewrite <- Hca in H3.
    apply contiguous_app. rewrite take_list_total by done.
    replace (c + (HEADER_SIZE + data_size h)) with (c + HEADER_SIZE + data_size h) by lia.
    split; [|done].
    apply take_list_contiguous; try done; try lia.
Qed.

(** With a requirement of 0 and room to split, the new header is written
    over the selected one, whose [next] then points to itself. *)
Lemma take_block_knotted s l l1 c h l2 size :
  ok s l -> first_fit 0 l = Some (l1, (c, h), l2) -> 0 < data_size h ->
  knotted (release (with_mem (take_block size 0 c h (mem s)) (acquire s))).
Proof.
  intros Hok Hff Hd.
  apply first_fit_Some in Hff as (-> & Hfit & Hl1).
  destruct (heap_ok_elem s _ c h Hok) as (Hc0 & Hce & _ & _).
  { apply elem_of_app. right. left. }
  pose proof Hok as (Hl & Hst & Hb & Hc). unfold blocks in Hb.
  pose proof (lseg_no_revisit _ _ _ _ Hb c h l2 eq_refl) as Hc1.
  pose proof Hb as Hb'. apply lseg_split in Hb' as (b & H1 & H2).
  pose proof H2 as H'. apply lseg_head in H' as (-> & _ & Hmc).
  assert (Hw : wrap64 (c + 0) = c).
  { rewrite Z.add_0_r. unwrap. apply Z.mod_small. lia. }
  assert (Hlt : (0 <? data_size h) = true) by (apply Z.ltb_lt; lia).
  exists (fun x => x ∈ l1.*1 \/ x = c). simpl. split.
  - destruct l1 as [|[x hx] l1]; simpl in *.
    + right. apply lseg_head in Hb as [Hb _]. done.
    + left. apply lseg_head in Hb as [Hb _]. rewrite Hb. left.
  - intros x [Hx | ->].
    + apply list_elem_of_fmap in Hx as ([x' hx] & Hxe & Hx). simpl in Hxe. subst x'.
      assert (Hxc : x <> c).
      { intros ->. apply Hc1. apply list_elem_of_fmap. by exists (c, hx). }
      split.
      { intros ->. eapply lseg_nonnull; [exact H1|].
        apply list_elem_of_fmap. by exists (0, hx). }
      destruct (heap_ok_elem s _ x hx Hok) as (_ & _ & Hdx & _).
      { apply elem_of_app. by left. }
      exists hx. split; [|split].
      * rewrite take_block_lookup by done. rewrite Hlt, Hw.
        rewrite !decide_False by done. eapply lseg_lookup; done.
      * rewrite Forall_forall in Hl1. specialize (Hl1 _ Hx). simpl in Hl1.
        unfold fits in Hl1. destruct (used hx); [done|]. simpl in Hl1.
        apply Z.leb_gt in Hl1. lia.
      * destruct (lseg_next_in _ _ _ _ _ _ H1 Hx); [by left|by right].
    + split; [lia|]. eexists. split; [|split].
      * rewrite take_block_lookup by done. rewrite Hlt, Hw.
        by rewrite decide_True.
      * done.
      * simpl. by right.
Qed.

Lemma release_acquire s : lock s = false -> release (acquire s) = s.
Proof. destruct s as [k st m]. simpl. by intros ->. Qed.

(** The two ways a call of [dalloc] returns on a well-formed heap. *)
Lemma dalloc_cases fuel size s l s' p :
  ok s l -> dalloc fuel size s = Ret (s', p) ->
  (first_fit (required_size size) l = None /\ p = 0 /\ s' = s) \/
  (exists l1 c h l2,
     first_fit (required_size size) l = Some (l1, (c, h), l2) /\
     p = c + HEADER_SIZE /\ p <> 0 /\
     s' = release (with_mem (take_block size (required_size size) c h (mem s))
                            (acquire s))).
Proof.
  intros Hok Hr. pose proof Hok as (Hl & Hst & Hb & Hc).
  unfold dalloc in Hr.
  apply (dalloc_scan_ret _ _ _ _ _ l) in Hr; [|done].
  unfold dalloc_result in Hr.
  destruct (first_fit (required_size size) l) as [[[l1 [c h]] l2]|] eqn:Hff.
  - right. exists l1, c, h, l2. injection Hr as <- <-.
    apply first_fit_Some in Hff as (-> & _ & _).
    destruct (heap_ok_elem s _ c h Hok) as (Hc0 & Hce & Hd & _).
    { apply elem_of_app. right. left. }
    assert (Hw : wrap64 (c + HEADER_SIZE) = c + HEADER_SIZE).
    { unwrap. apply Z.mod_small. lia. }
    rewrite Hw. unfold HEADER_SIZE. repeat split; try done. lia.
  - left. injection Hr as <- <-. by rewrite release_acquire.
Qed.

Lemma dalloc_enough fuel size s l :
  blocks s l -> (length l < fuel)%nat ->
  dalloc fuel size s = dalloc_result size (required_size size) (acquire s) l.
Proof. intros Hb Hf. unfold dalloc. by apply dalloc_scan_enough. Qed.

(** After a call of [dalloc] that returns, the heap is well formed again
    with no two free neighbours, or its walk has been tied into a knot. *)
Lemma dalloc_step fuel size s l s' p :
  ok s l -> no_adjacent_free l -> 0 <= size < 2 ^ 32 ->
  dalloc fuel size s = Ret (s', p) ->
  (exists l', ok s' l' /\ no_adjacent_free l' /\
              (length l' <= 1 + length l)%nat /\
              (p = 0 /\ l' = l \/ p <> 0 /\ live l' ≡ₚ p :: live l)) \/
  (required_size size = 0 /\ knotted s').
Proof.
  intros Hok Hnaf Hs Hr.
  destruct (dalloc_cases _ _ _ _ _ _ Hok Hr)
    as [(Hff & -> & ->)|(l1 & c & h & l2 & Hff & -> & Hp & ->)].
  - left. exists l. split; [done|]. split; [done|]. split; [lia|]. by left.
  - pose proof Hff as Hff'. apply first_fit_Some in Hff' as (-> & Hfit & Hl1).
    simpl in Hfit. unfold fits in Hfit. apply andb_true_iff in Hfit as [Hu Hle].
    apply negb_true_iff in Hu.
    destruct (decide (required_size size = 0 /\ 0 < data_size h)) as [[Hr0 Hd]|Hk].
    + right. split; [done|]. rewrite Hr0 in *. by eapply take_block_knotted.
    + left. eexists. split; [by apply take_block_ok|].
      split; [by apply take_list_naf|]. split.
      * rewrite !length_app. simpl.
        pose proof (take_list_length size (required_size size) c h). lia.
      * right. split; [done|].
        destruct (take_list_live l1 c h l2 size (required_size size) Hu) as [-> ->].
        symmetry. apply Permutation_middle.
Qed.

(** After a call of [dfree] that returns, the heap is well formed and
    fully coalesced. *)
Lemma dfree_step fuel p s l s' :
  ok s l -> dfree fuel p s = Ret s' ->
  let bh := wrap64 (p - HEADER_SIZE) in
  bh ∈ l.*1 /\
  ok s' (coalesce_list (free_at bh l)) /\
  no_adjacent_free (coalesce_list (free_at bh l)).
Proof.
  intros Hok Hr bh. pose proof Hok as (Hl & Hst & Hb & Hc).
  destruct (dfree_spec fuel p s l Hb)
    as [[_ H]|[(_ & _ & H)|[(_ & Hin & m' & H & Hseg)|[_ H]]]];
    rewrite Hr in H; try done.
  injection H as ->. split; [done|]. split; [|apply coalesce_list_naf].
  split; [done|]. split; [done|]. split; [done|].
  apply coalesce_list_contiguous; [rewrite heap_base_eq; lia|].
  by apply free_at_contiguous.
Qed.

(** ** Knotted heaps *)

(** No finite block sequence describes a knotted heap. *)
Lemma knotted_no_blocks s l : knotted s -> ~ blocks s l.
Proof.
  intros (S & Hst & HS) Hb. unfold blocks in Hb.
  revert Hst. generalize (start s) as a, Hb. clear -HS.
  intros a Hb. induction Hb as [|a h l Ha Hm H IH]; intros Hst.
  - by destruct (HS 0 Hst).
  - destruct (HS a Hst) as (_ & h' & Hm' & _ & Hn). apply IH.
    rewrite Hm in Hm'. by injection Hm' as <-.
Qed.

(** On a knotted heap the scan of [dalloc] never leaves its loop. *)
Lemma knotted_dalloc s fuel size : knotted s -> dalloc fuel size s = Diverge.
Proof.
  intros (S & Hst & HS). unfold dalloc.
  change (start (acquire s)) with (start s).
  revert Hst. generalize (start s) as a.
  induction fuel as [|fuel IH]; intros a Ha; simpl; [done|].
  destruct (HS a Ha) as (Ha0 & h & Hm & Hu & Hn).
  apply Z.eqb_neq in Ha0. rewrite Ha0, Hm, Hu. simpl. by apply IH.
Qed.

(** Nor does the coalescing pass: every [next] it can reach is non-null. *)
Lemma knotted_coalesce (S : Z -> Prop) fuel : forall m a,
  (forall a, S a -> a <> 0 /\ exists h, m !! a = Some h /\ S (next h)) ->
  S a -> coalesce_loop fuel m a = Diverge.
Proof.
  induction fuel as [|fuel IH]; intros m a HS Ha; simpl; [done|].
  destruct (HS a Ha) as (Ha0 & h & Hm & Hn).
  destruct (HS _ Hn) as (Hn0 & hn & Hmn & Hnn).
  apply Z.eqb_neq in Ha0, Hn0. rewrite Ha0, Hm, Hn0, Hmn.
  destruct (used h); [by apply IH|]. destruct (used hn); [by apply IH|].
  apply IH; [|done]. intros x Hx. destruct (HS x Hx) as (Hx0 & hx & Hmx & Hnx).
  split; [done|]. destruct (decide (x = a)) as [->|Hxa].
  - eexists. split; [by apply merge_lookup|]. done.
  - exists hx. split; [|done]. by rewrite merge_lookup_ne.
Qed.

(** So [dfree] never returns on a knotted heap: it panics on a misaligned
    address, and otherwise stays in one of its two loops. *)
Lemma knotted_dfree s fuel p :
  knotted s ->
  dfree fuel p s =
    if wrap64 (p - HEADER_SIZE) mod ALIGNMENT_SIZE =? 0 then Diverge
    else Panic MisalignedAddress s.
Proof.
  intros (S & Hst & HS). unfold dfree.
  destruct (wrap64 (p - HEADER_SIZE) mod ALIGNMENT_SIZE =? 0); [|done].
  simpl negb. cbv iota. change (start (acquire s)) with (start s).
  generalize (wrap64 (p - HEADER_SIZE)) as bh. intros bh.
  generalize fuel at 2 as cfuel. intros cfuel.
  pose proof Hst as Hst0. revert Hst. generalize (start s) as a.
  induction fuel as [|fuel IH]; intros a Ha; simpl; [done|].
  destruct (HS a Ha) as (Ha0 & h & Hm & Hu & Hn).
  apply Z.eqb_neq in Ha0. rewrite Ha0.
  destruct (a =? bh); rewrite Hm; [|by apply IH].
  unfold coalesce_blocks. simpl.
  rewrite (knotted_coalesce S); [done| |done].
  intros x Hx. destruct (HS x Hx) as (Hx0 & hx & Hmx & _ & Hnx).
  split; [done|]. unfold set_used. destruct (decide (x = a)) as [->|Hxa].
  - rewrite lookup_alter_eq, Hmx. eexists. split; [done|]. done.
  - rewrite lookup_alter_ne by done. by exists hx.
Qed.

Lemma knotted_dfree_ret s fuel p s' : knotted s -> dfree fuel p s <> Ret s'.
Proof.
  intros Hk. rewrite (knotted_dfree s fuel p Hk).
  by destruct (wrap64 (p - HEADER_SIZE) mod ALIGNMENT_SIZE =? 0).
Qed.

(** ** What holds in every reachable state *)

Lemma reachable_inv s :
  reachable PHYSTOP HEAP_SIZE s ->
  (exists l, ok s l /\ no_adjacent_free l) \/ knotted s.
Proof.
  induction 1 as [s|s fuel size s' p _ IH Hs _ Hr|s fuel p s' _ IH Hp Hr].
  - left. eexists. split; [apply dinit_ok|]. simpl. done.
  - destruct IH as [(l & Hok & Hnaf)|Hk].
    + destruct (dalloc_step _ _ _ _ _ _ Hok Hnaf Hs Hr) as [(l' & ? & ? & _)|[_ ?]].
      * left. by exists l'.
      * by right.
    + by rewrite knotted_dalloc in Hr.
  - destruct IH as [(l & Hok & Hnaf)|Hk].
    + left. destruct (dfree_step _ _ _ _ _ Hok Hr) as (_ & ? & ?). eauto.
    + by apply knotted_dfree_ret in Hr.
Qed.

Lemma reachable_no_wrap_inv s :
  reachable_by no_wrap PHYSTOP HEAP_SIZE s ->
  exists l, ok s l /\ no_adjacent_free l.
Proof.
  induction 1 as [s|s fuel size s' p _ IH Hs Hnw Hr|s fuel p s' _ IH Hp Hr].
  - eexists. split; [apply dinit_ok|]. simpl. done.
  - destruct IH as (l & Hok & Hnaf).
    destruct (dalloc_step _ _ _ _ _ _ Hok Hnaf Hs Hr) as [(l' & ? & ? & _)|[? _]].
    + by exists l'.
    + done.
  - destruct IH as (l & Hok & Hnaf).
    destruct (dfree_step _ _ _ _ _ Hok Hr) as (_ & ? & ?). eauto.
Qed.

(** On a heap with a finite block sequence, the addresses the walk visits
    are those of the sequence. *)
Lemma in_seq_blocks s l a : blocks s l -> in_seq s a -> a ∈ l.*1.
Proof.
  intros Hb. induction 1 as [Hst|a h _ IH Hm Hn].
  - unfold blocks in Hb. inversion Hb; subst; [congruence|]. left.
  - apply list_elem_of_fmap in IH as ([a' h'] & Ha & Hin). simpl in Ha. subst a'.
    rewrite (lseg_lookup _ _ _ _ _ _ Hb Hin) in Hm. injection Hm as ->.
    by destruct (lseg_next_in _ _ _ _ _ _ Hb Hin).
Qed.

Lemma lseg_in_seq s b a0 l :
  lseg (mem s) b a0 l -> (l <> [] -> in_seq s a0) ->
  forall a, a ∈ l.*1 -> in_seq s a.
Proof.
  induction 1 as [|a0 h l Ha0 Hm Hl IH]; intros Hst a Ha.
  - by apply elem_of_nil in Ha.
  - specialize (Hst ltac:(done)). simpl in Ha.
    apply elem_of_cons in Ha as [->|Ha]; [done|].
    apply IH; [|done]. intros Hne. destruct l as [|[x hx] t]; [done|].
    apply lseg_head in Hl as (Hnx & Hx0 & _).
    eapply in_seq_next; [exact Hst|exact Hm|congruence].
Qed.

Lemma blocks_in_seq s l a : blocks s l -> a ∈ l.*1 -> in_seq s a.
Proof.
  intros Hb. apply (lseg_in_seq _ _ _ _ Hb). intros Hne.
  unfold blocks in Hb. inversion Hb; subst; [done|]. by constructor.
Qed.

Lemma ok_aligned s l x h :
  ok s l -> (x, h) ∈ l -> x mod 16 = 0 /\ data_size h mod 16 = 0.
Proof.
  intros Hok Hin. split.
  - destruct Hok as (_ & _ & _ & Hc).
    eapply contiguous_aligned; [|exact Hc|].
    + by rewrite heap_base_eq.
    + apply list_elem_of_fmap. by exists (x, h).
  - by destruct (heap_ok_elem _ _ _ _ Hok Hin) as (_ & _ & _ & ?).
Qed.

(** X29. First fit, for requests of at most 2^32 - 32 bytes: when
    [dalloc] returns a pointer, the block it marks used was free and holds
    the exact requirement [round_up (size + 16) 16], no block before it in
    the sequence -- equivalently, at a lower address -- is free and that
    large, and the pointer is the address right after that block's
    header. *)
Theorem dalloc_first_fit_exact fuel size s l s' p :
  0 <= size <= 2 ^ 32 - 32 ->
  ok s l -> dalloc fuel size s = Ret (s', p) -> p <> 0 ->
  exists l1 c h l2,
    l = l1 ++ (c, h) :: l2 /\
    used h = false /\
    round_up (size + HEADER_SIZE) ALIGNMENT_SIZE <= data_size h /\
    Forall (fun b => ~ (used b.2 = false /\
                        round_up (size + HEADER_SIZE) ALIGNMENT_SIZE <= data_size b.2))
           l1 /\
    (forall x k, (x, k) ∈ l -> x < c ->
       ~ (used k = false /\
          round_up (size + HEADER_SIZE) ALIGNMENT_SIZE <= data_size k)) /\
    (exists h', mem s' !! c = Some h' /\ used h' = true) /\
    p = c + HEADER_SIZE.
Proof.
  intros Hsz Hok Hr Hp.
  rewrite <- (required_size_exact size Hsz).
  destruct (dalloc_cases _ _ _ _ _ _ Hok Hr)
    as [(_ & ? & _)|(l1 & c & h & l2 & Hff & -> & _ & ->)]; [done|].
  apply first_fit_Some in Hff as (-> & Hfit & Hl1). simpl in Hfit.
  unfold fits in Hfit. apply andb_true_iff in Hfit as [Hu Hle].
  apply negb_true_iff in Hu. apply Z.leb_le in Hle.
  assert (Hpre : Forall (fun b : Z * dheader =>
            ~ (used b.2 = false /\ required_size size <= data_size b.2)) l1).
  { eapply Forall_impl; [exact Hl1|]. intros [x k] Hk [Hku Hkd]. simpl in *.
    unfold fits in Hk. rewrite Hku in Hk. simpl in Hk. apply Z.leb_gt in Hk. lia. }
  pose proof Hok as (_ & _ & Hb & Hc).
  exists l1, c, h, l2. repeat split; try done.
  - intros x k Hin Hx. rewrite Forall_forall in Hpre.
    destruct (contiguous_sorted _ _ _ _ _ _ Hc) as (_ & _ & H2).
    destruct (heap_ok_elem _ _ _ _ Hok Hin) as (_ & _ & Hd & _).
    apply elem_of_app in Hin as [Hin|Hin]; [by apply (Hpre (x, k))|].
    apply elem_of_cons in Hin as [[= -> ->]|Hin]; [lia|].
    assert (Hx2 : x ∈ l2.*1) by (apply list_elem_of_fmap; by exists (x, k)).
    apply H2 in Hx2. destruct (heap_ok_elem s _ c h Hok) as (_ & _ & Hdc & _).
    { apply elem_of_app. right. left. }
    unfold HEADER_SIZE in *. lia.
  - assert (Hmc : mem s !! c = Some h).
    { eapply lseg_lookup; [exact Hb|]. apply elem_of_app. right. left. }
    simpl. rewrite take_block_lookup by done.
    destruct (required_size size <? data_size h); rewrite decide_True by done;
      eexists; (split; [done|done]).
Qed.

(** X30. Out of memory, for requests of at most 2^32 - 32 bytes: on a
    well-formed heap [dalloc] returns, and it returns null exactly when no
    block of the sequence is free and holds the exact requirement
    [round_up (size + 16) 16]; the heap is then exactly as before.  This
    is so whenever the requirement exceeds what the heap can hold in one
    block, and a request for the whole heap size is such a case. *)
Theorem dalloc_out_of_memory_exact fuel size s l :
  0 <= size <= 2 ^ 32 - 32 ->
  ok s l -> (length l < fuel)%nat ->
  (exists s' p,
     dalloc fuel size s = Ret (s', p) /\
     (p = 0 <->
      Forall (fun b => ~ (used b.2 = false /\
                          round_up (size + HEADER_SIZE) ALIGNMENT_SIZE <= data_size b.2))
             l) /\
     (HEAP_SIZE - HEADER_SIZE < round_up (size + HEADER_SIZE) ALIGNMENT_SIZE ->
      p = 0) /\
     (p = 0 -> s' = s)) /\
  (HEAP_SIZE <= 2 ^ 32 - 32 -> dalloc fuel HEAP_SIZE s = Ret (s, 0)).
Proof.
  intros Hsz Hok Hf. pose proof Hok as (Hl & _ & Hb & Hc).
  rewrite <- (required_size_exact size Hsz).
  assert (Hnofit : forall r,
    first_fit r l = None <->
    Forall (fun b : Z * dheader => ~ (used b.2 = false /\ r <= data_size b.2)) l).
  { intros r. rewrite first_fit_None. apply Forall_proper; [|done].
    intros [x k]. simpl. unfold fits. destruct (used k); simpl.
    - split; [by intros _ [? _]|done].
    - rewrite Z.leb_gt. split; [intros ? [_ ?]; lia|]. intros H.
      destruct (Z.lt_ge_cases (data_size k) r); [done|]. exfalso. by apply H. }
  assert (Hres : forall n, exists s' p,
    dalloc fuel n s = Ret (s', p) /\
    (p = 0 <-> first_fit (required_size n) l = None) /\ (p = 0 -> s' = s)).
  { intros n. rewrite (dalloc_enough _ _ _ l) by done. unfold dalloc_result.
    destruct (first_fit (required_size n) l) as [[[l1 [c h]] l2]|] eqn:Hff.
    - eexists _, _. split; [done|].
      apply first_fit_Some in Hff as (-> & _ & _).
      destruct (heap_ok_elem s _ c h Hok) as (Hc0 & Hce & Hd & _).
      { apply elem_of_app. right. left. }
      assert (Hw : wrap64 (c + HEADER_SIZE) = c + HEADER_SIZE).
      { unwrap. apply Z.mod_small. lia. }
      rewrite Hw. unfold HEADER_SIZE. split; [split; [lia|done]|lia].
    - eexists _, _. split; [done|]. split; [done|].
      intros _. by apply release_acquire. }
  split.
  - destruct (Hres size) as (s' & p & Hd & Hp & Hs). exists s', p.
    split; [done|]. split; [by rewrite Hp, Hnofit|]. split; [|done].
    intros Hbig. apply Hp, Hnofit, Forall_forall. intros [x k] Hin [_ Hk].
    simpl in Hk. destruct (heap_ok_elem _ _ _ _ Hok Hin) as (_ & _ & Hd' & _).
    unfold HEADER_SIZE in *. lia.
  - intros Hh. destruct (Hres HEAP_SIZE) as (s' & p & Hd & Hp & Hs).
    assert (Hp0 : p = 0).
    { apply Hp, Hnofit, Forall_forall. intros [x k] Hin [_ Hk]. simpl in Hk.
      destruct (heap_ok_elem _ _ _ _ Hok Hin) as (_ & _ & Hd' & _).
      rewrite required_size_exact in Hk by (unfold HEADER_SIZE in *; lia).
      unfold round_up in Hk. unwrap. Z.div_mod_to_equations. lia. }
    rewrite Hd, Hp0, Hs; done.
Qed.

(** C10. Releasing twice: in a reachable state, if the header a pointer
    designates is still in the sequence and already free, [dfree] on that
    pointer returns without a panic and leaves the state exactly as it
    was. *)
Theorem dfree_twice_noop fuel p s l h :
  reachable PHYSTOP HEAP_SIZE s -> blocks s l ->
  (wrap64 (p - HEADER_SIZE), h) ∈ l -> used h = false ->
  (length l < fuel)%nat ->
  dfree fuel p s = Ret s.
Proof.
  intros Hr Hb Hin Hu Hf.
  destruct (reachable_inv s Hr) as [(l' & Hok & Hnaf)|Hk];
    [|by apply knotted_no_blocks with (l := l) in Hk].
  pose proof Hok as (Hl & _ & Hb' & _).
  rewrite (lseg_det _ _ _ _ Hb' Hb) in *. clear Hb'.
  destruct (ok_aligned _ _ _ _ Hok Hin) as [Hal _].
  set (bh := wrap64 (p - HEADER_SIZE)) in *.
  unfold dfree. fold bh. unfold ALIGNMENT_SIZE. rewrite Hal. simpl.
  destruct (dfree_scan_spec fuel fuel bh (acquire s) (start s) l Hb) as [->|[? _]];
    [|lia].
  rewrite decide_True by (apply list_elem_of_fmap; by exists (bh, h)).
  assert (Hid : set_used bh false (mem (acquire s)) = mem s).
  { simpl. unfold set_used. apply alter_id. intros h' Hh'.
    rewrite (lseg_lookup _ _ _ _ _ _ Hb Hin) in Hh'. injection Hh' as <-.
    destruct h as [d u n]. simpl in Hu. by subst u. }
  rewrite Hid. unfold coalesce_blocks. simpl.
  rewrite (coalesce_loop_id _ _ l) by done.
  f_equal. destruct s as [k st m]. simpl in *. by subst k.
Qed.

(** C4, as the code has it.  On a freshly initialised heap a request of
    [HEAP_SIZE - 2 * HEADER_SIZE] bytes succeeds exactly once: the first
    call takes the sole block without splitting it, leaving one used block
    over the whole heap, and the same call again returns null.  A request
    of [HEAP_SIZE - HEADER_SIZE] bytes already returns null on the fresh
    heap, since the fit test counts the header a second time. *)
Theorem dalloc_whole_heap_once fuel s0 :
  2 * HEADER_SIZE <= HEAP_SIZE -> (2 <= fuel)%nat ->
  let size := HEAP_SIZE - 2 * HEADER_SIZE in
  (exists s1,
     dalloc fuel size (dinit PHYSTOP HEAP_SIZE s0) = Ret (s1, base + HEADER_SIZE) /\
     base + HEADER_SIZE <> 0 /\
     blocks s1 [(base, {| data_size := HEAP_SIZE - HEADER_SIZE;
                          used := true; next := 0 |})] /\
     dalloc fuel size s1 = Ret (s1, 0)) /\
  dalloc fuel (HEAP_SIZE - HEADER_SIZE) (dinit PHYSTOP HEAP_SIZE s0)
  = Ret (dinit PHYSTOP HEAP_SIZE s0, 0).
Proof.
  intros Hh Hf size.
  pose proof (dinit_ok s0) as Hok. pose proof Hok as (Hl & Hst & Hb & Hc).
  assert (Hr : required_size size = HEAP_SIZE - HEADER_SIZE).
  { subst size. rewrite required_size_exact by (unfold HEADER_SIZE in *; lia).
    unfold round_up. clear -Hsize16. unwrap. Z.div_mod_to_equations. lia. }
  assert (Hr' : required_size (HEAP_SIZE - HEADER_SIZE) = HEAP_SIZE).
  { rewrite required_size_exact by (unfold HEADER_SIZE in *; clear -Hsize Hsize16;
      Z.div_mod_to_equations; lia).
    unfold round_up. clear -Hsize16. unwrap. Z.div_mod_to_equations. lia. }
  split.
  - rewrite (dalloc_enough _ _ _ _ Hb) by (simpl; lia).
    unfold dalloc_result. rewrite Hr. simpl. unfold fits. simpl.
    rewrite Z.leb_refl. simpl.
    assert (Hw : wrap64 (base + HEADER_SIZE) = base + HEADER_SIZE).
    { rewrite heap_base_eq. unwrap. apply Z.mod_small. lia. }
    rewrite Hw. eexists. split; [done|]. split.
    { rewrite heap_base_eq. unfold HEADER_SIZE. lia. }
    assert (Hb1 : blocks (release (with_mem
        (take_block size (HEAP_SIZE - HEADER_SIZE) base
           {| data_size := HEAP_SIZE - HEADER_SIZE; used := false; next := 0 |}
           (mem (acquire (dinit PHYSTOP HEAP_SIZE s0))))
        (acquire (dinit PHYSTOP HEAP_SIZE s0))))
      [(base, {| data_size := HEAP_SIZE - HEADER_SIZE; used := true; next := 0 |})]).
    { unfold blocks. simpl. constructor.
      - rewrite heap_base_eq. lia.
      - rewrite take_block_lookup.
        + simpl. rewrite Z.ltb_irrefl. by rewrite decide_True.
        + eapply lseg_lookup; [exact Hb|]. left.
      - constructor. }
    split; [exact Hb1|].
    rewrite (dalloc_enough _ _ _ _ Hb1) by (simpl; lia).
    unfold dalloc_result. simpl. done.
  - rewrite (dalloc_enough _ _ _ _ Hb) by (simpl; lia).
    unfold dalloc_result. rewrite Hr'. simpl. unfold fits. simpl.
    assert (Hlt : (HEAP_SIZE <=? HEAP_SIZE - HEADER_SIZE) = false).
    { apply Z.leb_gt. unfold HEADER_SIZE. lia. }
    rewrite Hlt. done.
Qed.

(** ** Allocating and releasing in bulk *)

Lemma dalloc_all_inv fuel sizes : forall s l s' ps,
  ok s l -> no_adjacent_free l ->
  Forall (fun n => 0 <= n < 2 ^ 32 /\ no_wrap n) sizes ->
  dalloc_all fuel sizes s = Ret (s', ps) ->
  Forall (fun p => p <> 0) ps ->
  exists l', ok s' l' /\ no_adjacent_free l' /\
             live l' ≡ₚ ps ++ live l /\
             (length l' <= length sizes + length l)%nat.
Proof.
  induction sizes as [|n sizes IH]; intros s l s' ps Hok Hnaf Hsz Hr Hps; simpl in Hr.
  - injection Hr as <- <-. exists l. simpl. split; [done|]. split; [done|].
    split; [done|lia].
  - apply Forall_cons in Hsz as [[Hn Hnw] Hsz].
    destruct (dalloc fuel n s) as [[s1 p]| | |] eqn:Hd; try done.
    destruct (dalloc_all fuel sizes s1) as [[s2 ps']| | |] eqn:Hd'; try done.
    injection Hr as <- <-. apply Forall_cons in Hps as [Hp Hps].
    destruct (dalloc_step _ _ _ _ _ _ Hok Hnaf Hn Hd)
      as [(l1 & Hok1 & Hnaf1 & Hlen1 & [[? _]|[_ Hlive1]])|[? _]]; try done.
    destruct (IH _ _ _ _ Hok1 Hnaf1 Hsz Hd' Hps) as (l' & Hok' & Hnaf' & Hlive' & Hlen').
    exists l'. split; [done|]. split; [done|]. split.
    + rewrite Hlive', Hlive1. simpl. symmetry. apply Permutation_middle.
    + simpl. lia.
Qed.

Lemma dfree_all_live fuel qs : forall s l,
  ok s l -> no_adjacent_free l -> qs ≡ₚ live l -> (length l < fuel)%nat ->
  exists s' l', dfree_all fuel qs s = Ret s' /\
                ok s' l' /\ no_adjacent_free l' /\ live l' = [].
Proof.
  induction qs as [|q qs IH]; intros s l Hok Hnaf Hperm Hf; simpl.
  - exists s, l. split; [done|]. split; [done|]. split; [done|].
    symmetry in Hperm. by apply Permutation_nil_r in Hperm.
  - assert (Hq : q ∈ live l) by (rewrite <- Hperm; left).
    apply live_elem in Hq as (x & h & Hin & Hu & ->).
    destruct (heap_ok_elem _ _ _ _ Hok Hin) as (Hx0 & Hxe & Hxd & _).
    destruct (ok_aligned _ _ _ _ Hok Hin) as [Hx16 _].
    assert (Hw : wrap64 (x + HEADER_SIZE - HEADER_SIZE) = x).
    { unwrap. replace (x + 16 - 16) with x by lia. apply Z.mod_small. lia. }
    pose proof Hok as (_ & _ & Hb & _).
    pose proof (lseg_NoDup _ _ _ Hb) as Hnd.
    assert (Hxl : x ∈ l.*1) by (apply list_elem_of_fmap; by exists (x, h)).
    destruct (dfree_spec fuel (x + HEADER_SIZE) s l Hb)
      as [[Hal _]|[(_ & Hnin & _)|[(_ & _ & m' & Hd & _)|[Hle _]]]];
      rewrite ?Hw in *; try done; try lia.
    rewrite Hd.
    destruct (dfree_step _ _ _ _ _ Hok Hd) as (_ & Hok' & Hnaf').
    rewrite Hw in Hok', Hnaf'.
    eapply IH; [exact Hok'|exact Hnaf'| |].
    + rewrite coalesce_list_live.
      apply list_elem_of_split in Hin as (k1 & k2 & ->).
      rewrite free_at_split by done.
      rewrite live_app, live_cons in Hperm. simpl in Hperm. rewrite Hu in Hperm.
      rewrite live_app, live_cons. simpl.
      by apply Permutation_cons_app_inv in Hperm.
    + pose proof (coalesce_list_length (free_at x l)).
      rewrite free_at_length in *. lia.
Qed.

Lemma all_free_single s l :
  ok s l -> no_adjacent_free l -> live l = [] ->
  l = [(base, {| data_size := HEAP_SIZE - HEADER_SIZE; used := false; next := 0 |})].
Proof.
  intros (_ & Hst & Hb & Hc) Hnaf Hlive. unfold blocks in Hb. rewrite Hst in Hb.
  destruct l as [|[x h] l].
  - inversion Hb as [Hz|]. rewrite heap_base_eq in Hz. lia.
  - rewrite live_cons in Hlive. simpl in Hlive.
    destruct (used h) eqn:Hu; [done|].
    destruct l as [|[y k] l].
    + simpl in Hc. destruct Hc as (Hx & _ & _ & He). subst x.
      inversion Hb as [|? ? ? _ _ Hn]; subst. inversion Hn as [Hz|].
      destruct h as [d u n]. simpl in *. subst u. rewrite <- Hz.
      repeat f_equal. rewrite heap_base_eq in He. lia.
    + rewrite live_cons in Hlive. simpl in Hlive.
      destruct (used k) eqn:Hk; [done|].
      destruct Hnaf as [Hnaf _]. exfalso. by apply Hnaf.
Qed.

(** X1. Conservation (C1 for requests whose requirement does not wrap to 0):
    in every state reached through such requests the blocks of the
    sequence, headers included, add up to the heap size. *)
Theorem conservation_no_wrap s :
  reachable_by no_wrap PHYSTOP HEAP_SIZE s ->
  exists l, blocks s l /\ total l = HEAP_SIZE.
Proof.
  intros Hr. destruct (reachable_no_wrap_inv s Hr) as (l & (_ & _ & Hb & Hc) & _).
  exists l. split; [done|]. apply contiguous_total in Hc.
  rewrite heap_base_eq in Hc. lia.
Qed.

(** X2. Split rule (C2 for requests up to 2^32 - 32 bytes): with
    [r = round_up (size + HEADER_SIZE) 16], which is [round_up size 16]
    plus one header, a selected block larger than [r] is replaced by a
    used block of [round_up size 16] bytes followed, [r] bytes after its
    start, by a free block that inherits what remains of the old payload
    less a header, and the old successor; a selected block of exactly [r]
    bytes is only marked used. *)
Theorem dalloc_split_rule fuel size s l s' p :
  ok s l -> 0 <= size <= 2 ^ 32 - 32 ->
  dalloc fuel size s = Ret (s', p) -> p <> 0 ->
  let r := round_up (size + HEADER_SIZE) ALIGNMENT_SIZE in
  let rs := round_up size ALIGNMENT_SIZE in
  r = rs + HEADER_SIZE /\
  exists l1 c h l2,
    l = l1 ++ (c, h) :: l2 /\ p = c + HEADER_SIZE /\
    (r < data_size h ->
       blocks s' (l1 ++ [ (c, {| data_size := rs; used := true; next := c + r |});
                          (c + r, {| data_size := data_size h - rs - HEADER_SIZE;
                                     used := false; next := next h |}) ] ++ l2)) /\
    (r = data_size h ->
       blocks s' (l1 ++ (c, mark_used h) :: l2) /\
       length (l1 ++ (c, mark_used h) :: l2) = length l).
Proof.
  intros Hok Hs Hd Hp r rs.
  assert (Hrs : r = rs + HEADER_SIZE).
  { subst r rs. unfold round_up. unwrap. Z.div_mod_to_equations. lia. }
  split; [done|].
  assert (Hr : required_size size = r) by (by apply required_size_exact).
  assert (Hnw : no_wrap size) by (by apply no_wrap_small).
  destruct (dalloc_cases _ _ _ _ _ _ Hok Hd)
    as [(_ & ? & _)|(l1 & c & h & l2 & Hff & -> & _ & ->)]; [done|].
  apply first_fit_Some in Hff as (-> & _ & _).
  exists l1, c, h, l2. split; [done|]. split; [done|].
  destruct (heap_ok_elem s _ c h Hok) as (Hc0 & Hce & Hdh & _).
  { apply elem_of_app. right. left. }
  assert (Hok' := take_block_ok s l1 c h l2 size _ Hok
                    ltac:(lia) eq_refl ltac:(intros [? _]; done)).
  pose proof (required_size_bounds size) as [Hrb _].
  destruct Hok' as (_ & _ & Hb' & _). unfold take_list in Hb'. rewrite Hr in *.
  split.
  - intros Hlt. apply Z.ltb_lt in Hlt as Hlt'. rewrite Hlt' in Hb'.
    assert (Hw : wrap64 (c + r) = c + r) by (unwrap; apply Z.mod_small; lia).
    assert (Hw' : wrap32 (data_size h - r) = data_size h - rs - HEADER_SIZE).
    { unwrap. rewrite Z.mod_small; lia. }
    rewrite Hw, Hw', align_up_exact in Hb' by lia. exact Hb'.
  - intros Heq. rewrite Heq, Z.ltb_irrefl in Hb'. rewrite Heq.
    split; [exact Hb'|]. rewrite !length_app. done.
Qed.

(** X3. Full reclaim (C5 for requests whose requirement does not wrap to 0):
    after any number of successful calls of [dalloc] on a freshly
    initialised heap, releasing all the pointers returned, in any order,
    leaves a single free block over the whole heap. *)
Theorem full_reclaim_no_wrap fuel sizes s0 s ps qs fuel' :
  Forall (fun n => 0 <= n < 2 ^ 32 /\ no_wrap n) sizes ->
  dalloc_all fuel sizes (dinit PHYSTOP HEAP_SIZE s0) = Ret (s, ps) ->
  Forall (fun p => p <> 0) ps ->
  qs ≡ₚ ps ->
  (length sizes + 1 < fuel')%nat ->
  exists s',
    dfree_all fuel' qs s = Ret s' /\
    blocks s' [(base, {| data_size := HEAP_SIZE - HEADER_SIZE;
                         used := false; next := 0 |})].
Proof.
  intros Hsz Ha Hps Hperm Hf.
  destruct (dalloc_all_inv _ _ _ _ _ _ (dinit_ok s0) ltac:(simpl; done) Hsz Ha Hps)
    as (l & Hok & Hnaf & Hlive & Hlen).
  rewrite live_cons in Hlive. simpl in Hlive, Hlen. rewrite app_nil_r in Hlive.
  destruct (dfree_all_live fuel' qs s l Hok Hnaf) as (s' & l' & Hd & Hok' & Hnaf' & Hl').
  { by rewrite Hperm, Hlive. }
  { lia. }
  exists s'. split; [done|].
  rewrite <- (all_free_single _ _ Hok' Hnaf' Hl'). by destruct Hok' as (_ & _ & ? & _).
Qed.

(** ** Further properties of the allocator *)

(** A sequence with no two free neighbours is left alone by the
    coalescing pass. *)
Lemma coal_id rest : forall cur,
  no_adjacent_free (cur :: rest) -> coal cur rest = cur :: rest.
Proof.
  induction rest as [|nx t IH]; intros cur Hn; [done|].
  destruct Hn as [Hh Ht]. simpl.
  destruct (negb (used cur.2) && negb (used nx.2)) eqn:E.
  - apply andb_true_iff in E as [E1 E2]. apply negb_true_iff in E1, E2.
    exfalso. by apply Hh.
  - f_equal. by apply IH.
Qed.

Lemma coalesce_list_id l : no_adjacent_free l -> coalesce_list l = l.
Proof. destruct l; [done|]. apply coal_id. Qed.

(** The pass reaches the first pair of free neighbours untouched and
    merges it. *)
Lemma coalesce_list_merge L a b l2 :
  no_adjacent_free (L ++ [a]) -> used a.2 = false -> used b.2 = false ->
  coalesce_list (L ++ a :: b :: l2) = L ++ coal (a.1, merge a.2 b.2) l2.
Proof.
  intros Hn Ha Hb. destruct L as [|cur pre]; simpl.
  - by rewrite Ha, Hb.
  - revert cur Hn. induction pre as [|x pre IH]; intros cur Hn.
    + destruct Hn as [Hh _]. simpl.
      destruct (used cur.2) eqn:Hc; simpl.
      * by rewrite Ha, Hb.
      * exfalso. by apply Hh.
    + destruct Hn as [Hh Ht]. simpl.
      destruct (negb (used cur.2) && negb (used x.2)) eqn:E.
      * apply andb_true_iff in E as [E1 E2]. apply negb_true_iff in E1, E2.
        exfalso. by apply Hh.
      * f_equal. by apply IH.
Qed.

(** Blocks in use survive the pass with their headers. *)
Lemma coal_used_elem rest : forall cur y k,
  (y, k) ∈ cur :: rest -> used k = true -> (y, k) ∈ coal cur rest.
Proof.
  induction rest as [|nx t IH]; intros cur y k Hin Hu; [done|]. simpl.
  destruct (negb (used cur.2) && negb (used nx.2)) eqn:E.
  - apply andb_true_iff in E as [E1 E2]. apply negb_true_iff in E1, E2.
    apply IH; [|done].
    apply elem_of_cons in Hin as [<-|Hin]; [simpl in E1; congruence|].
    apply elem_of_cons in Hin as [<-|Hin]; [simpl in E2; congruence|].
    by right.
  - apply elem_of_cons in Hin as [->|Hin]; [left|]. right. by apply IH.
Qed.

Lemma coalesce_list_used_elem l y k :
  (y, k) ∈ l -> used k = true -> (y, k) ∈ coalesce_list l.
Proof. destruct l; [done|]. apply coal_used_elem. Qed.

Lemma free_at_other x l y k : (y, k) ∈ l -> y <> x -> (y, k) ∈ free_at x l.
Proof.
  intros Hin Hne. unfold free_at. apply list_elem_of_fmap.
  exists (y, k). split; [|done]. simpl.
  by destruct (Z.eqb_spec y x).
Qed.

(** Releasing the block just carved out of [(c, h)] and coalescing gives
    back the sequence as it was. *)
Lemma take_list_undo l1 c h l2 size r :
  NoDup (l1 ++ take_list size r c h ++ l2).*1 ->
  no_adjacent_free (l1 ++ (c, h) :: l2) -> used h = false ->
  0 <= size < 2 ^ 32 -> r = required_size size -> r <> 0 ->
  r <= data_size h < 2 ^ 32 ->
  coalesce_list (free_at c (l1 ++ take_list size r c h ++ l2)) = l1 ++ (c, h) :: l2.
Proof.
  intros Hnd Hnaf Hu Hs Hr Hr0 Hd. unfold take_list in *.
  apply naf_app in Hnaf as (Hn1 & Hn2 & Hn3).
  destruct (r <? data_size h) eqn:Hlt.
  - apply Z.ltb_lt in Hlt. simpl app in *.
    rewrite free_at_split by done.
    rewrite coalesce_list_merge; [| |done..].
    2:{ apply naf_app. split; [done|]. split; [done|].
        intros x y Hx [= <-] [Hux _]. apply (Hn3 x (c, h)); [done..|]. by split. }
    simpl fst. simpl snd.
    assert (Hm : merge (mark_free {| data_size := align_up size; used := true;
                                     next := wrap64 (c + r) |})
                       {| data_size := wrap32 (data_size h - r); used := false;
                          next := next h |} = h).
    { destruct h as [d u n]. simpl in *. subst u. unfold merge. simpl. f_equal.
      rewrite Hr in *. rewrite required_size_split in * by done.
      pose proof (align_up_bounds size) as [Hab _].
      unwrap. rewrite (Z.mod_small (d - _)) by lia.
      rewrite (Z.mod_small (d - _ + 16)) by lia. rewrite Z.mod_small; lia. }
    rewrite Hm. by rewrite coal_id.
  - simpl app in *. rewrite free_at_split by done.
    assert (Hm : mark_free (mark_used h) = h) by (destruct h; simpl in *; by subst).
    rewrite Hm. apply coalesce_list_id. apply naf_app. eauto.
Qed.

Lemma release_id s : lock s = false -> release s = s.
Proof. destruct s as [k st m]. simpl. by intros ->. Qed.

(** Releasing what was just allocated restores the block sequence. *)
Lemma dalloc_dfree_undo fuel size s l s1 p fuel' :
  ok s l -> no_adjacent_free l -> 0 <= size < 2 ^ 32 -> no_wrap size ->
  dalloc fuel size s = Ret (s1, p) -> p <> 0 -> (length l + 1 < fuel')%nat ->
  exists s2, dfree fuel' p s1 = Ret s2 /\ ok s2 l.
Proof.
  intros Hok Hnaf Hs Hnw Hd Hp Hf.
  destruct (dalloc_cases _ _ _ _ _ _ Hok Hd)
    as [(_ & ? & _)|(l1 & c & h & l2 & Hff & -> & _ & ->)]; [done|].
  pose proof Hff as Hff'. apply first_fit_Some in Hff' as (-> & Hfit & _).
  simpl in Hfit. unfold fits in Hfit. apply andb_true_iff in Hfit as [Hu Hle].
  apply negb_true_iff in Hu. apply Z.leb_le in Hle.
  destruct (heap_ok_elem s _ c h Hok) as (Hc0 & Hce & Hdh & _).
  { apply elem_of_app. right. left. }
  destruct (ok_aligned s _ c h Hok) as [Hc16 _].
  { apply elem_of_app. right. left. }
  assert (Hok1 := take_block_ok s l1 c h l2 size _ Hok Hs eq_refl
                    ltac:(intros [? _]; done)).
  set (s1 := release _) in *. set (l' := l1 ++ _ ++ l2) in *.
  assert (Hbh : wrap64 (c + HEADER_SIZE - HEADER_SIZE) = c).
  { unwrap. rewrite Z.mod_small; lia. }
  assert (Hlen : (length l' <= length (l1 ++ (c, h) :: l2) + 1)%nat).
  { subst l'. rewrite !length_app. simpl.
    pose proof (take_list_length size (required_size size) c h). lia. }
  pose proof Hok1 as (_ & _ & Hb1 & _).
  assert (Hin : c ∈ l'.*1).
  { subst l'. rewrite !fmap_app. apply elem_of_app. right. apply elem_of_app. left.
    unfold take_list. destruct (_ <? _); simpl; left. }
  destruct (dfree_spec fuel' (c + HEADER_SIZE) s1 l' Hb1)
    as [[Hx _]|[(_ & Hx & _)|[(_ & _ & m' & Hr & _)|[Hx _]]]];
    rewrite ?Hbh in *; try done; [|lia].
  destruct (dfree_step _ _ _ _ _ Hok1 Hr) as (_ & Hok2 & _).
  rewrite Hbh in Hok2. subst l'.
  rewrite (take_list_undo l1 c h l2 size _) in Hok2;
    [|by apply (lseg_NoDup (mem s1) (start s1))|try done..]; [|unfold HEADER_SIZE in *; lia].
  eexists. split; [exact Hr|exact Hok2].
Qed.

(** X5. Round trip: on a well-formed, coalesced heap a successful request
    whose requirement does not wrap to 0, followed by [dfree] of the
    pointer it returned, gives back the block sequence as it was, header
    for header; the same request then returns the same pointer again. *)
Theorem dalloc_dfree_round_trip fuel size s l s1 p fuel' :
  ok s l -> no_adjacent_free l -> 0 <= size < 2 ^ 32 -> no_wrap size ->
  dalloc fuel size s = Ret (s1, p) -> p <> 0 -> (length l + 1 < fuel')%nat ->
  exists s2,
    dfree fuel' p s1 = Ret s2 /\ ok s2 l /\
    exists s3, dalloc fuel' size s2 = Ret (s3, p).
Proof.
  intros Hok Hnaf Hs Hnw Hd Hp Hf.
  destruct (dalloc_dfree_undo _ _ _ _ _ _ fuel' Hok Hnaf Hs Hnw Hd Hp Hf)
    as (s2 & Hfr & Hok2).
  exists s2. split; [done|]. split; [done|].
  destruct (dalloc_cases _ _ _ _ _ _ Hok Hd)
    as [(_ & ? & _)|(l1 & c & h & l2 & Hff & -> & _ & _)]; [done|].
  pose proof Hff as Hff'. apply first_fit_Some in Hff' as (Hl & _ & _).
  destruct (heap_ok_elem s _ c h Hok) as (Hc0 & Hce & Hdh & _).
  { rewrite Hl. apply elem_of_app. right. left. }
  destruct Hok2 as (_ & _ & Hb2 & _).
  rewrite (dalloc_enough _ _ _ _ Hb2) by lia.
  unfold dalloc_result. rewrite Hff.
  assert (Hw : wrap64 (c + HEADER_SIZE) = c + HEADER_SIZE).
  { unwrap. apply Z.mod_small. lia. }
  rewrite Hw. by eexists.
Qed.

(** Blocks of a tiling that start at different addresses do not overlap. *)
Lemma contiguous_disjoint l : forall a e x h y k,
  contiguous a l e -> (x, h) ∈ l -> (y, k) ∈ l -> x < y ->
  x + HEADER_SIZE + data_size h <= y.
Proof.
  induction l as [|[z g] l IH]; intros a e x h y k Hc Hx Hy Hlt;
    [by apply elem_of_nil in Hx|].
  destruct Hc as (Hz & Hd & Hm & Hc). simpl in *. subst z.
  apply elem_of_cons in Hx as [Hx|Hx]; apply elem_of_cons in Hy as [Hy|Hy].
  - injection Hx as -> ->. injection Hy as ->. lia.
  - injection Hx as -> ->. destruct (contiguous_elem _ _ _ _ _ Hc Hy). lia.
  - injection Hy as -> ->. destruct (contiguous_elem _ _ _ _ _ Hc Hx).
    unfold HEADER_SIZE in *. lia.
  - by eapply IH.
Qed.

(** X6. In every reachable state that has a finite block sequence, every
    block of the sequence, header and payload, lies between the heap base
    and [PHYSTOP], be it the only one, and no two blocks of the sequence
    overlap. *)
Theorem blocks_never_overlap s l x h :
  reachable PHYSTOP HEAP_SIZE s -> blocks s l -> (x, h) ∈ l ->
  (base <= x /\ x + HEADER_SIZE + data_size h <= PHYSTOP) /\
  (forall y k, (y, k) ∈ l -> x <> y ->
     x + HEADER_SIZE + data_size h <= y \/ y + HEADER_SIZE + data_size k <= x).
Proof.
  intros Hr Hb Hx.
  destruct (reachable_inv s Hr) as [(l0 & Hok & _)|Hk];
    [|by destruct (knotted_no_blocks s l Hk)].
  pose proof Hok as (_ & Hst & Hb0 & Hc).
  rewrite (lseg_det _ _ _ _ Hb Hb0) in *.
  destruct (contiguous_elem _ _ _ _ _ Hc Hx) as (Hx1 & Hx2 & _).
  split; [done|]. intros y k Hy Hne.
  destruct (Z.lt_total x y) as [Hlt|[?|Hlt]]; [left|done|right];
    by eapply contiguous_disjoint.
Qed.

(** X7. What a successful request of at most 2^32 - 32 bytes hands out:
    the block in front of the pointer is in use, its payload holds at least
    [size] bytes, starts at a multiple of 16 and lies inside the heap. *)
Theorem dalloc_payload fuel size s l s' p :
  ok s l -> 0 <= size <= 2 ^ 32 - 32 ->
  dalloc fuel size s = Ret (s', p) -> p <> 0 ->
  exists l' h',
    ok s' l' /\ (p - HEADER_SIZE, h') ∈ l' /\ used h' = true /\
    size <= data_size h' /\
    p mod ALIGNMENT_SIZE = 0 /\
    base + HEADER_SIZE <= p /\ p + data_size h' <= PHYSTOP.
Proof.
  intros Hok Hs Hd Hp.
  assert (Hnw : no_wrap size) by (by apply no_wrap_small).
  destruct (dalloc_cases _ _ _ _ _ _ Hok Hd)
    as [(_ & ? & _)|(l1 & c & h & l2 & Hff & -> & _ & ->)]; [done|].
  apply first_fit_Some in Hff as (-> & Hfit & _).
  simpl in Hfit. unfold fits in Hfit. apply andb_true_iff in Hfit as [Hu Hle].
  apply Z.leb_le in Hle.
  assert (Hok' := take_block_ok s l1 c h l2 size _ Hok
                    ltac:(lia) eq_refl ltac:(intros [? _]; done)).
  assert (Hr : required_size size = align_up size + HEADER_SIZE).
  { apply required_size_split; [lia|done]. }
  assert (Hsz : size <= align_up size).
  { rewrite align_up_exact by lia. unfold round_up. unwrap.
    Z.div_mod_to_equations. lia. }
  replace (c + HEADER_SIZE - HEADER_SIZE) with c by lia.
  eexists. exists (if required_size size <? data_size h
                   then {| data_size := align_up size; used := true;
                           next := wrap64 (c + required_size size) |}
                   else mark_used h).
  split; [exact Hok'|].
  assert (Hin : (c, if required_size size <? data_size h
                    then {| data_size := align_up size; used := true;
                            next := wrap64 (c + required_size size) |}
                    else mark_used h)
                ∈ l1 ++ take_list size (required_size size) c h ++ l2).
  { apply elem_of_app. right. apply elem_of_app. left.
    unfold take_list. destruct (_ <? _); left. }
  split; [done|].
  destruct (heap_ok_elem _ _ _ _ Hok' Hin) as (Hc0 & Hce & Hdh & _).
  destruct (ok_aligned _ _ _ _ Hok' Hin) as [Hc16 _].
  destruct Hok' as (_ & _ & _ & Hc').
  destruct (contiguous_elem _ _ _ _ _ Hc' Hin) as (Hlo & _).
  split; [by destruct (_ <? _)|].
  split; [destruct (_ <? _); simpl; unfold HEADER_SIZE in *; lia|].
  split; [unwrap; Z.div_mod_to_equations; lia|].
  unfold HEADER_SIZE in *. lia.
Qed.

(** X8. A successful request whose requirement does not wrap to 0 leaves
    every block other than the selected one in the sequence with the header
    it had; the only new block is the free remainder, behind the payload
    handed out. *)
Theorem dalloc_keeps_other_blocks fuel size s l s' p :
  ok s l -> 0 <= size < 2 ^ 32 -> no_wrap size ->
  dalloc fuel size s = Ret (s', p) -> p <> 0 ->
  exists l',
    ok s' l' /\
    (forall x k, (x, k) ∈ l -> x <> p - HEADER_SIZE -> (x, k) ∈ l') /\
    (forall x k, (x, k) ∈ l' ->
       (x, k) ∈ l \/ x = p - HEADER_SIZE \/
       (used k = false /\ p + align_up size <= x)).
Proof.
  intros Hok Hs Hnw Hd Hp.
  destruct (dalloc_cases _ _ _ _ _ _ Hok Hd)
    as [(_ & ? & _)|(l1 & c & h & l2 & Hff & -> & _ & ->)]; [done|].
  apply first_fit_Some in Hff as (-> & _ & _).
  assert (Hok' := take_block_ok s l1 c h l2 size _ Hok Hs eq_refl
                    ltac:(intros [? _]; done)).
  destruct (heap_ok_elem s _ c h Hok) as (Hc0 & Hce & Hdh & _).
  { apply elem_of_app. right. left. }
  pose proof (required_size_bounds size) as [Hrb _].
  replace (c + HEADER_SIZE - HEADER_SIZE) with c by lia.
  eexists. split; [exact Hok'|]. split.
  - intros x k Hin Hne. rewrite !elem_of_app in *. rewrite elem_of_cons in Hin.
    destruct Hin as [?|[[= -> ->]|?]]; [by left|done|by right; right].
  - intros x k Hin. rewrite !elem_of_app in *.
    destruct Hin as [?|[Hin|?]]; [left; by left| |left; right; by right].
    unfold take_list in Hin. destruct (_ <? _) eqn:Hlt.
    + apply Z.ltb_lt in Hlt.
      apply elem_of_cons in Hin as [[= -> ->]|Hin]; [right; by left|].
      apply list_elem_of_singleton in Hin as [= -> ->]. right. right.
      split; [done|]. pose proof (required_size_split size Hs Hnw) as Hrs.
      pose proof (align_up_bounds size) as [Hab _].
      unwrap. rewrite Z.mod_small; lia.
    + apply list_elem_of_singleton in Hin as [= -> ->]. right. by left.
Qed.

(** [dfree] of the pointer of a block in use. *)
Lemma dfree_live fuel s l x h :
  ok s l -> (x, h) ∈ l -> used h = true -> (length l < fuel)%nat ->
  exists s' l',
    dfree fuel (x + HEADER_SIZE) s = Ret s' /\
    ok s' l' /\ no_adjacent_free l' /\
    live l ≡ₚ (x + HEADER_SIZE) :: live l' /\
    (length l' <= length l)%nat.
Proof.
  intros Hok Hin Hu Hf. pose proof Hok as (_ & _ & Hb & _).
  destruct (heap_ok_elem _ _ _ _ Hok Hin) as (Hx0 & Hxe & Hxd & _).
  destruct (ok_aligned _ _ _ _ Hok Hin) as [Hx16 _].
  assert (Hbh : wrap64 (x + HEADER_SIZE - HEADER_SIZE) = x).
  { unwrap. rewrite Z.mod_small; lia. }
  assert (Hin1 : x ∈ l.*1) by (apply list_elem_of_fmap; by exists (x, h)).
  destruct (dfree_spec fuel (x + HEADER_SIZE) s l Hb)
    as [[Hx _]|[(_ & Hx & _)|[(_ & _ & m' & Hr & _)|[Hx _]]]];
    rewrite ?Hbh in *; try done; [|lia].
  destruct (dfree_step _ _ _ _ _ Hok Hr) as (_ & Hok' & Hnaf').
  rewrite Hbh in Hok', Hnaf'.
  eexists _, _. split; [exact Hr|]. split; [exact Hok'|]. split; [done|].
  split.
  - rewrite coalesce_list_live.
    apply list_elem_of_split in Hin as (l1 & l2 & ->).
    rewrite free_at_split by (by apply (lseg_NoDup (mem s) (start s))).
    rewrite !live_app, !live_cons. simpl. rewrite Hu.
    symmetry. apply Permutation_middle.
  - pose proof (coalesce_list_length (free_at x l)).
    by rewrite free_at_length in *.
Qed.

(** X9. What [dfree] does for the pointer of a block in use: it returns,
    the heap is well formed with no two free neighbours, exactly that
    pointer has left the live ones, and every other block in use keeps its
    header. *)
Theorem dfree_live_block fuel s l x h :
  ok s l -> (x, h) ∈ l -> used h = true -> (length l < fuel)%nat ->
  exists s' l',
    dfree fuel (x + HEADER_SIZE) s = Ret s' /\
    ok s' l' /\ no_adjacent_free l' /\
    live l ≡ₚ (x + HEADER_SIZE) :: live l' /\
    (forall y k, (y, k) ∈ l -> used k = true -> y <> x -> (y, k) ∈ l') /\
    (length l' <= length l)%nat.
Proof.
  intros Hok Hin Hu Hf.
  destruct (dfree_live fuel s l x h Hok Hin Hu Hf)
    as (s' & l' & Hd & Hok' & Hnaf' & Hlive & Hlen).
  exists s', l'. repeat (split; [done|]). split; [|done].
  intros y k Hy Hk Hne.
  destruct (heap_ok_elem _ _ _ _ Hok Hin) as (Hx0 & Hxe & Hxd & _).
  assert (Hbh : wrap64 (x + HEADER_SIZE - HEADER_SIZE) = x).
  { unwrap. rewrite Z.mod_small; lia. }
  destruct (dfree_step _ _ _ _ _ Hok Hd) as (_ & (_ & _ & Hb1 & _) & _).
  destruct Hok' as (_ & _ & Hb2 & _).
  rewrite Hbh in Hb1. rewrite (lseg_det _ _ _ _ Hb2 Hb1).
  apply coalesce_list_used_elem; [|done]. by apply free_at_other.
Qed.

(** X10. [dfree] returns only for the payload pointer of a block of the
    sequence, hence only for pointers inside the heap; for the null
    pointer it panics with the invalid-address message. *)
Theorem dfree_only_block_pointers fuel s l :
  ok s l ->
  (forall p s', 0 <= p < 2 ^ 64 -> dfree fuel p s = Ret s' ->
     p - HEADER_SIZE ∈ l.*1 /\ base + HEADER_SIZE <= p <= PHYSTOP) /\
  ((length l < fuel)%nat -> dfree fuel 0 s = Panic UnknownAddress s).
Proof.
  intros Hok. pose proof Hok as (Hl & _ & Hb & Hc). split.
  - intros p s' Hp Hr. destruct (dfree_step _ _ _ _ _ Hok Hr) as (Hin & _).
    apply list_elem_of_fmap in Hin as ([x h] & Hx & Hin). simpl in Hx.
    destruct (heap_ok_elem _ _ _ _ Hok Hin) as (Hx0 & Hxe & Hd & _).
    destruct (contiguous_elem _ _ _ _ _ Hc Hin) as (Hlo & _).
    assert (Hpx : p - HEADER_SIZE = x).
    { revert Hx0 Hxe Hd Hx Hp. unwrap. intros.
      Z.div_mod_to_equations. lia. }
    rewrite Hpx. split; [apply list_elem_of_fmap; by exists (x, h)|].
    unfold HEADER_SIZE in *. lia.
  - intros Hf.
    destruct (dfree_spec fuel 0 s l Hb)
      as [[Hx _]|[(_ & _ & Hr)|[(_ & Hin & _)|[Hx _]]]].
    + by vm_compute in Hx.
    + by rewrite Hr, release_id.
    + apply list_elem_of_fmap in Hin as ([x h] & Hx & Hin). simpl in Hx.
      destruct (heap_ok_elem _ _ _ _ Hok Hin) as (Hx0 & Hxe & Hd & _).
      exfalso. revert Hx Hxe Hd. vm_compute (wrap64 _). unfold HEADER_SIZE.
      change (2 ^ 64) with 18446744073709551616 in Htop. lia.
    + lia.
Qed.

(** X11. On a well-formed heap the coalescing pass returns, keeps the heap
    well formed and every block in use with its header, leaves no two free
    neighbours, and changes nothing when run a second time. *)
Theorem coalesce_blocks_complete fuel s l :
  ok s l -> (length l < fuel)%nat ->
  exists s' l',
    coalesce_blocks fuel s = Ret s' /\
    ok s' l' /\ no_adjacent_free l' /\
    (forall x k, (x, k) ∈ l -> used k = true -> (x, k) ∈ l') /\
    (length l' <= length l)%nat /\
    coalesce_blocks fuel s' = Ret s'.
Proof.
  intros Hok Hf. pose proof Hok as (Hl & Hst & Hb & Hc).
  destruct (coalesce_blocks_spec fuel s l Hb) as [(m' & Hr & Hseg)|[Hx _]]; [|lia].
  exists (with_mem m' s), (coalesce_list l).
  pose proof (coalesce_list_length l) as Hlen.
  split; [done|]. split; [|split; [apply coalesce_list_naf|]].
  { split; [done|]. split; [done|]. split; [done|].
    apply coalesce_list_contiguous; [rewrite heap_base_eq; lia|done]. }
  split; [intros x k; apply coalesce_list_used_elem|]. split; [done|].
  unfold coalesce_blocks. simpl.
  rewrite (coalesce_loop_id m' (start s) (coalesce_list l));
    [done|done|apply coalesce_list_naf|lia].
Qed.

Lemma free_at_fst x l : (free_at x l).*1 = l.*1.
Proof.
  unfold free_at. induction l as [|[y k] l IH]; [done|].
  rewrite !fmap_cons. simpl. f_equal; [by destruct (y =? x)|exact IH].
Qed.

(** [dfree] writes no header outside the block sequence. *)
Lemma dfree_frame fuel p s l s' :
  blocks s l -> dfree fuel p s = Ret s' ->
  forall a, a ∉ l.*1 -> mem s' !! a = mem s !! a.
Proof.
  intros Hb Hr a Ha. unfold dfree in Hr.
  destruct (negb _); [done|].
  set (bh := wrap64 (p - HEADER_SIZE)) in *.
  destruct (dfree_scan_spec fuel fuel bh (acquire s) (start s) l Hb) as [H|[_ H]];
    simpl in H, Hr; rewrite H in Hr; [|done].
  destruct (decide _) as [Hin|]; [|done].
  unfold coalesce_blocks in Hr. simpl in Hr.
  destruct (coalesce_loop_lseg fuel _ _ _ (free_at_lseg bh _ _ _ _ Hb))
    as [(m' & Hm & _ & Hfr)|[_ Hm]]; rewrite Hm in Hr; [|done].
  injection Hr as <-. simpl. rewrite Hfr by (by rewrite free_at_fst).
  unfold set_used. apply lookup_alter_ne. by intros ->.
Qed.

(** A call of [dalloc] or [dfree] on a well-formed heap writes headers
    only inside the heap, and never inside the payload of a block in use:
    every header it changes lies at or before the header of any such
    block, or behind its payload. *)
Lemma writes_clear s l s' :
  ok s l ->
  (exists fuel size p, dalloc fuel size s = Ret (s', p)) \/
  (exists fuel p, dfree fuel p s = Ret s') ->
  forall a, mem s' !! a <> mem s !! a ->
    base <= a /\ a + HEADER_SIZE <= PHYSTOP /\
    forall x k, (x, k) ∈ l -> used k = true ->
      a <= x \/ x + HEADER_SIZE + data_size k <= a.
Proof.
  intros Hok Hcall a Hne. pose proof Hok as (_ & _ & Hb & Hc).
  assert (Hblk : forall y g z, (y, g) ∈ l ->
            y <= z -> z + HEADER_SIZE <= y + HEADER_SIZE + data_size g ->
            (z = y \/ used g = false) ->
            base <= z /\ z + HEADER_SIZE <= PHYSTOP /\
            forall x k, (x, k) ∈ l -> used k = true ->
              z <= x \/ x + HEADER_SIZE + data_size k <= z).
  { intros y g z Hy Hz1 Hz2 Hz.
    destruct (contiguous_elem _ _ _ _ _ Hc Hy) as (Hlo & Hhi & _).
    split; [lia|]. split; [lia|]. intros x k Hx Hk.
    destruct (Z.lt_total x y) as [Hlt|[->|Hlt]].
    - pose proof (contiguous_disjoint _ _ _ _ _ _ _ Hc Hx Hy Hlt).
      unfold HEADER_SIZE in *. lia.
    - destruct Hz as [->|Hg]; [lia|].
      pose proof (lseg_lookup _ _ _ _ _ _ Hb Hx) as E1.
      pose proof (lseg_lookup _ _ _ _ _ _ Hb Hy) as E2. congruence.
    - pose proof (contiguous_disjoint _ _ _ _ _ _ _ Hc Hy Hx Hlt).
      unfold HEADER_SIZE in *. lia. }
  destruct Hcall as [(fuel & size & p & Hd)|(fuel & p & Hd)].
  - destruct (dalloc_cases _ _ _ _ _ _ Hok Hd)
      as [(_ & _ & ->)|(l1 & c & h & l2 & Hff & _ & _ & ->)]; [done|].
    apply first_fit_Some in Hff as (-> & Hfit & _).
    simpl in Hfit. unfold fits in Hfit. apply andb_true_iff in Hfit as [Hu Hle].
    apply negb_true_iff in Hu.
    assert (Hin : (c, h) ∈ l1 ++ (c, h) :: l2) by (apply elem_of_app; right; left).
    destruct (heap_ok_elem _ _ _ _ Hok Hin) as (Hc0 & Hce & Hdh & _).
    pose proof (required_size_bounds size) as [Hrb _].
    simpl in Hne.
    rewrite (take_block_lookup _ _ _ _ _ _ (lseg_lookup _ _ _ _ _ _ Hb Hin)) in Hne.
    destruct (required_size size <? data_size h) eqn:Hlt.
    + apply Z.ltb_lt in Hlt.
      destruct (decide (a = c)) as [->|_];
        [apply (Hblk c h); [done|lia|unfold HEADER_SIZE; lia|by left]|].
      destruct (decide (a = _)) as [->|_]; [|done].
      assert (Hw : wrap64 (c + required_size size) = c + required_size size).
      { unwrap. apply Z.mod_small. lia. }
      rewrite Hw. apply (Hblk c h); [done|lia|unfold HEADER_SIZE; lia|by right].
    + destruct (decide (a = c)) as [->|_]; [|done].
      apply (Hblk c h); [done|lia|unfold HEADER_SIZE; lia|by left].
  - destruct (decide (a ∈ l.*1)) as [Hin|Hout];
      [|by destruct Hne; apply (dfree_frame _ _ _ _ _ Hb Hd)].
    apply list_elem_of_fmap in Hin as ([y g] & -> & Hin). simpl.
    destruct (contiguous_elem _ _ _ _ _ Hc Hin) as (_ & _ & Hg & _).
    apply (Hblk y g); [done|lia|unfold HEADER_SIZE; lia|by left].
Qed.

(** Bytes outside the heap, and bytes in the payload of a block in use,
    lie under no header that a call changes. *)
Lemma call_keeps s l s' (bytes : gmap Z Z) y :
  ok s l ->
  (exists fuel size p, dalloc fuel size s = Ret (s', p)) \/
  (exists fuel p, dfree fuel p s = Ret s') ->
  (y < base \/ PHYSTOP <= y \/
   exists x h, (x, h) ∈ l /\ used h = true /\
               x + HEADER_SIZE <= y < x + HEADER_SIZE + data_size h) ->
  forget (mem s) (mem s') bytes !! y = bytes !! y.
Proof.
  intros Hok Hcall Hy. apply forget_keep. intros a Ha Hne.
  destruct (writes_clear s l s' Hok Hcall a Hne) as (Hlo & Hhi & Hpay).
  destruct Hy as [Hy|[Hy|(x & h & Hin & Hu & Hy)]];
    [unfold HEADER_SIZE in *; lia..|].
  destruct (Hpay x h Hin Hu); unfold HEADER_SIZE in *; lia.
Qed.

(** X12. Stored bytes survive the allocator: a call of [dalloc] or [dfree]
    on a well-formed heap leaves every known byte outside the heap, and
    every known byte in the payload of a block that was in use before the
    call, known and unchanged; the headers it writes lie elsewhere. *)
Theorem payload_bytes_survive k l k' y :
  ok (heap k) l ->
  (exists fuel size p, k_dalloc fuel size k = Ret (p, k')) \/
  (exists fuel p, k_dfree fuel p k = Ret k') ->
  (y < base \/ PHYSTOP <= y \/
   exists x h, (x, h) ∈ l /\ used h = true /\
               x + HEADER_SIZE <= y < x + HEADER_SIZE + data_size h) ->
  ram k' !! y = ram k !! y.
Proof.
  intros Hok Hcall Hy.
  assert (exists s', k' = with_heap s' k /\
            ((exists fuel size p, dalloc fuel size (heap k) = Ret (s', p)) \/
             (exists fuel p, dfree fuel p (heap k) = Ret s'))) as (s' & -> & Hcall').
  { destruct Hcall as [(fuel & size & p & Hd)|(fuel & p & Hd)].
    - unfold k_dalloc in Hd.
      destruct (dalloc fuel size (heap k)) as [[s' q]| | |] eqn:E; try done.
      injection Hd as <- <-. exists s'. split; [done|]. left. by exists fuel, size, q.
    - unfold k_dfree in Hd.
      destruct (dfree fuel p (heap k)) as [s'| | |] eqn:E; try done.
      injection Hd as <-. exists s'. split; [done|]. right. by exists fuel, p. }
  simpl. by apply (call_keeps _ l).
Qed.

(** ** The tests of memtest.c on a well-formed heap *)

Local Abbreviation outside := (same_outside PHYSTOP HEAP_SIZE).

Lemma outside_refl k : outside k k.
Proof. by intros y _. Qed.

Lemma outside_trans k1 k2 k3 : outside k1 k2 -> outside k2 k3 -> outside k1 k3.
Proof. intros H1 H2 y Hy. by rewrite H2, H1. Qed.

(** Same known bytes, whatever else differs. *)
Lemma outside_ram k k' : ram k' = ram k -> outside k k'.
Proof. intros E y _. by rewrite E. Qed.

(** The state after a call of [dalloc] or [dfree] on a well-formed heap. *)
Lemma outside_call k l s' :
  ok (heap k) l ->
  (exists fuel size p, dalloc fuel size (heap k) = Ret (s', p)) \/
  (exists fuel p, dfree fuel p (heap k) = Ret s') ->
  outside k (with_heap s' k).
Proof.
  intros Hok Hcall y Hy. simpl. apply (call_keeps _ l); [done|done|].
  destruct Hy; [by left|right; by left].
Qed.

Lemma fits_true r h : fits r h = true <-> used h = false /\ r <= data_size h.
Proof.
  unfold fits. rewrite andb_true_iff, negb_true_iff, Z.leb_le. tauto.
Qed.

Lemma first_fit_Exists r l :
  first_fit r l <> None <-> Exists (fun b => used b.2 = false /\ r <= data_size b.2) l.
Proof.
  induction l as [|b l IH]; simpl.
  - split; [done|]. by intros ?%Exists_nil.
  - rewrite Exists_cons, <- fits_true, <- IH.
    destruct (fits r b.2); [split; [by left|done]|].
    destruct (first_fit r l) as [[[? ?] ?]|]; [split; [by right|done]|].
    split; [done|]. by intros [?|?].
Qed.

(** A request on a well-formed, coalesced heap, released at once when it
    was served. *)
Lemma alloc_free_pair fuel size s l :
  ok s l -> no_adjacent_free l -> 0 <= size < 2 ^ 32 -> no_wrap size ->
  (length l + 1 < fuel)%nat ->
  exists s1 p,
    dalloc fuel size s = Ret (s1, p) /\
    ((p = 0 /\ s1 = s /\
      Forall (fun b => ~ (used b.2 = false /\ required_size size <= data_size b.2)) l) \/
     (p <> 0 /\
      Exists (fun b => used b.2 = false /\ required_size size <= data_size b.2) l /\
      (exists l1, ok s1 l1) /\
      exists s2, dfree fuel p s1 = Ret s2 /\ ok s2 l)).
Proof.
  intros Hok Hnaf Hs Hnw Hf. pose proof Hok as (Hl & _ & Hb & _).
  pose proof (dalloc_enough fuel size s l Hb ltac:(lia)) as Hd.
  unfold dalloc_result in Hd.
  destruct (first_fit (required_size size) l) as [[[l1 [c h]] l2]|] eqn:Hff.
  - eexists _, _. split; [exact Hd|]. right.
    destruct (dalloc_cases _ _ _ _ _ _ Hok Hd)
      as [(? & _)|(? & ? & ? & ? & _ & _ & Hp & _)]; [congruence|].
    split; [done|]. split; [apply first_fit_Exists; congruence|].
    split.
    { destruct (dalloc_step _ _ _ _ _ _ Hok Hnaf Hs Hd)
        as [(l' & ? & _)|[? _]]; [by exists l'|done]. }
    destruct (dalloc_dfree_undo _ _ _ _ _ _ fuel Hok Hnaf Hs Hnw Hd Hp Hf)
      as (s2 & ? & ?).
    by exists s2.
  - exists s, 0. rewrite Hd. split; [by rewrite (release_acquire s Hl)|]. left.
    split; [done|]. split; [done|].
    apply Forall_Exists_neg. intros HE. by apply first_fit_Exists in HE.
Qed.

(** No block of the heap serves a request of [HEAP_SIZE] bytes. *)
Lemma dalloc_heap_size_fails fuel s l :
  ok s l -> HEAP_SIZE <= 2 ^ 32 - 32 -> (length l < fuel)%nat ->
  dalloc fuel (wrap32 HEAP_SIZE) s = Ret (s, 0).
Proof.
  intros Hok Hhs Hf. pose proof Hok as (Hl & _ & Hb & _).
  rewrite (dalloc_enough _ _ _ _ Hb Hf). unfold dalloc_result.
  assert (Hw : wrap32 HEAP_SIZE = HEAP_SIZE).
  { unwrap. apply Z.mod_small. lia. }
  assert (Hr : HEAP_SIZE < required_size (wrap32 HEAP_SIZE)).
  { rewrite Hw, required_size_exact by (unfold HEADER_SIZE in *; lia).
    unfold round_up. unwrap. Z.div_mod_to_equations. lia. }
  destruct (first_fit _ l) as [[[l1 [c h]] l2]|] eqn:Hff;
    [|by rewrite (release_acquire s Hl)].
  apply first_fit_Some in Hff as (-> & Hfit & _). simpl in Hfit.
  apply fits_true in Hfit as [_ Hle].
  destruct (heap_ok_elem s _ c h Hok) as (_ & _ & Hd & _).
  { apply elem_of_app. right. left. }
  unfold HEADER_SIZE in *. lia.
Qed.

(** A call that leaves the state as it is changes no header. *)
Lemma with_heap_same k : ram (with_heap (heap k) k) = ram k.
Proof.
  simpl. apply map_eq. intros y. by apply forget_keep.
Qed.

Lemma packed_naf l : packed l -> no_adjacent_free l.
Proof.
  intros (us & b & -> & Hus). induction us as [|u us IH]; [simpl; done|].
  apply Forall_cons in Hus as [Hu Hus]. apply naf_cons. split; [|by apply IH].
  intros n _ [Hf _]. congruence.
Qed.

Lemma tail_cap_snoc us b :
  tail_cap (us ++ [b]) = if used b.2 then 0 else data_size b.2.
Proof. unfold tail_cap. by rewrite last_snoc. Qed.

Lemma first_fit_packed r us b :
  Forall (fun u => used u.2 = true) us ->
  first_fit r (us ++ [b]) = if fits r b.2 then Some (us, b, []) else None.
Proof.
  induction us as [|u us IH]; intros Hus; simpl.
  - by destruct (fits r b.2).
  - apply Forall_cons in Hus as [Hu Hus]. unfold fits at 1. rewrite Hu. simpl.
    rewrite IH by done. by destruct (fits r b.2).
Qed.

(** A request on a packed heap is served from the last block or not at
    all. *)
Lemma dalloc_packed fuel size s l :
  ok s l -> packed l -> 0 <= size < 2 ^ 32 -> no_wrap size ->
  (length l < fuel)%nat ->
  (required_size size <= tail_cap l /\
   exists s' p l',
     dalloc fuel size s = Ret (s', p) /\ p <> 0 /\
     ok s' l' /\ packed l' /\
     tail_cap l' = tail_cap l - required_size size /\
     live l' ≡ₚ p :: live l /\ (length l' <= length l + 1)%nat) \/
  (tail_cap l < required_size size /\ dalloc fuel size s = Ret (s, 0)).
Proof.
  intros Hok (us & [c h] & -> & Hus) Hs Hnw Hf. pose proof Hok as (Hl & _ & Hb & _).
  pose proof (dalloc_enough fuel size s _ Hb Hf) as Hd.
  unfold dalloc_result in Hd. rewrite first_fit_packed in Hd by done.
  rewrite tail_cap_snoc. simpl in *.
  pose proof (required_size_bounds size) as [Hrb _].
  destruct (heap_ok_elem s _ c h Hok) as (Hc0 & Hce & Hdh & _).
  { apply elem_of_app. right. left. }
  destruct (fits (required_size size) h) eqn:Hfit.
  - apply fits_true in Hfit as [Hu Hle]. rewrite Hu. left. split; [done|].
    assert (Hok' := take_block_ok s us c h [] size _ Hok Hs eq_refl
                      ltac:(intros [? _]; done)).
    assert (Hw : wrap64 (c + HEADER_SIZE) = c + HEADER_SIZE).
    { unwrap. apply Z.mod_small. lia. }
    rewrite Hw in Hd.
    eexists _, _, _. split; [exact Hd|]. split; [unfold HEADER_SIZE; lia|].
    split; [exact Hok'|].
    destruct (take_list_live us c h [] size (required_size size) Hu) as [Hl1 Hl2].
    split; [|split; [|split]].
    + unfold take_list. destruct (_ <? _).
      * eexists (us ++ [_]), _. split; [by rewrite <- app_assoc, app_nil_r|].
        apply Forall_app. split; [done|]. by apply Forall_singleton.
      * eexists us, _. split; [by rewrite app_nil_r|done].
    + unfold take_list. destruct (_ <? _) eqn:Hlt.
      * apply Z.ltb_lt in Hlt.
        replace (us ++ [_; _] ++ []) with ((us ++ [(c, {| data_size := align_up size;
            used := true; next := wrap64 (c + required_size size) |})]) ++
            [(wrap64 (c + required_size size),
              {| data_size := wrap32 (data_size h - required_size size);
                 used := false; next := next h |})])
          by (by rewrite <- app_assoc, app_nil_r).
        rewrite tail_cap_snoc. simpl. unwrap. apply Z.mod_small. lia.
      * apply Z.ltb_ge in Hlt. rewrite app_nil_r, tail_cap_snoc. simpl. lia.
    + rewrite Hl1, Hl2. symmetry. apply Permutation_middle.
    + rewrite !length_app. simpl.
      pose proof (take_list_length size (required_size size) c h). lia.
  - right. rewrite (release_acquire s Hl) in Hd. split; [|done].
    destruct (used h) eqn:Hu; [unfold no_wrap in Hnw; lia|].
    unfold fits in Hfit. rewrite Hu in Hfit. simpl in Hfit.
    by apply Z.leb_gt in Hfit.
Qed.

(** [basic_test] from start to end. *)
Lemma basic_test_run fuel k l :
  ok (heap k) l -> no_adjacent_free l -> (length l + 1 < fuel)%nat ->
  exists k',
    basic_test fuel k = Ret k' /\ ok (heap k') l /\ outside k k' /\
    ((exists p, p <> 0 /\
        Exists (fun b => used b.2 = false /\ 128 <= data_size b.2) l /\
        console k' = console k ++
          [("Entering basic_test...\n", []);
           ("Allocated address: %p\n", [p]);
           ("Basic test passed.\n\n", [])]) \/
     (Forall (fun b => ~ (used b.2 = false /\ 128 <= data_size b.2)) l /\
      console k' = console k ++
          [("Entering basic_test...\n", []);
           ("Basic test failed: unable to allocate memory.\n\n", [])])).
Proof.
  intros Hok Hnaf Hf.
  destruct (alloc_free_pair fuel 100 _ _ Hok Hnaf ltac:(lia)
              ltac:(by vm_compute) Hf)
    as (s1 & p & Hd & [(-> & -> & HF)|(Hp & HE & [l1 Hok1] & s2 & Hfr & Hok2)]);
    change (required_size 100) with 128 in *;
    unfold basic_test, k_dalloc; simpl; rewrite Hd; simpl.
  - eexists. split; [done|]. split; [done|].
    split; [apply outside_ram; simpl; apply (with_heap_same k)|].
    right. split; [done|]. simpl. by rewrite <- app_assoc.
  - apply Z.eqb_neq in Hp as Hp'. rewrite Hp'. simpl.
    unfold k_dfree. simpl. rewrite Hfr. simpl.
    eexists. split; [done|]. split; [done|]. split.
    { intros y Hy. simpl.
      rewrite (call_keeps s1 l1 s2), (call_keeps (heap k) l s1); try done.
      - left. by exists fuel, 100, p.
      - destruct Hy; [by left|right; by left].
      - right. by exists fuel, p.
      - destruct Hy; [by left|right; by left]. }
    left. exists p.
    split; [done|]. split; [done|]. simpl. by rewrite <- !app_assoc.
Qed.

(** X14. [basic_test] on any well-formed, coalesced heap: it returns and
    leaves the block sequence as it found it; it reports success exactly
    when some free block holds 128 bytes, the requirement of
    [dalloc(100)]. *)
Theorem basic_test_restores fuel k l :
  ok (heap k) l -> no_adjacent_free l -> (length l + 1 < fuel)%nat ->
  exists k',
    basic_test fuel k = Ret k' /\ ok (heap k') l /\
    ((exists p, p <> 0 /\
        Exists (fun b => used b.2 = false /\ 128 <= data_size b.2) l /\
        console k' = console k ++
          [("Entering basic_test...\n", []);
           ("Allocated address: %p\n", [p]);
           ("Basic test passed.\n\n", [])]) \/
     (Forall (fun b => ~ (used b.2 = false /\ 128 <= data_size b.2)) l /\
      console k' = console k ++
          [("Entering basic_test...\n", []);
           ("Basic test failed: unable to allocate memory.\n\n", [])])).
Proof.
  intros Hok Hnaf Hf.
  destruct (basic_test_run fuel k l Hok Hnaf Hf) as (k' & Hr & Hok' & _ & Hv).
  by exists k'.
Qed.

(** [boundary_test] from start to end. *)
Lemma boundary_test_run fuel k l :
  144 <= HEAP_SIZE <= 2 ^ 32 - 32 ->
  ok (heap k) l -> no_adjacent_free l -> (length l + 1 < fuel)%nat ->
  exists k',
    boundary_test HEAP_SIZE fuel k = Ret k' /\ ok (heap k') l /\ outside k k' /\
    ((Exists (fun b => used b.2 = false /\ HEAP_SIZE - 112 <= data_size b.2) l /\
      console k' = console k ++
        [("Entering boundary_test...\n", []);
         ("Allocated very large memory.\n", []);
         ("Allocated memory exceeded heap size.\n", []);
         ("Allocated very small memory.\n", []);
         ("Boundary test passed.\n\n", [])]) \/
     (Forall (fun b => ~ (used b.2 = false /\ HEAP_SIZE - 112 <= data_size b.2)) l /\
      console k' = console k ++
        [("Entering boundary_test...\n", []);
         ("Failed to allocate very large memory.\n", []);
         ("Boundary test failed.\n\n", [])])).
Proof.
  intros Hhs Hok Hnaf Hf.
  assert (Hw : wrap32 (HEAP_SIZE - 128) = HEAP_SIZE - 128).
  { unwrap. apply Z.mod_small. lia. }
  assert (Hr : required_size (HEAP_SIZE - 128) = HEAP_SIZE - 112).
  { rewrite required_size_exact by lia. unfold round_up. unwrap.
    Z.div_mod_to_equations. lia. }
  destruct (alloc_free_pair fuel (HEAP_SIZE - 128) _ _ Hok Hnaf ltac:(lia)
              ltac:(apply no_wrap_small; lia) Hf)
    as (s1 & p & Hd & [(-> & -> & HF)|(Hp & HE & [l1 Hok1] & s2 & Hfr & Hok2)]);
    rewrite Hr in *;
    unfold boundary_test, k_dalloc; simpl; rewrite Hw, Hd; simpl.
  - eexists. split; [done|]. split; [done|].
    split; [apply outside_ram; simpl; apply (with_heap_same k)|].
    right. split; [done|]. simpl. by rewrite <- !app_assoc.
  - apply Z.eqb_neq in Hp as Hp'. rewrite Hp'. simpl.
    unfold k_dfree. simpl. rewrite Hfr. simpl.
    rewrite (dalloc_heap_size_fails fuel s2 l Hok2) by lia. simpl.
    destruct (alloc_free_pair fuel 1 _ _ Hok2 Hnaf ltac:(lia)
                ltac:(by vm_compute) Hf)
      as (s3 & q & Hd3 & [(_ & _ & HF)|(Hq & _ & [l3 Hok3] & s4 & Hfr4 & Hok4)]);
      change (required_size 1) with 32 in *.
    { exfalso. apply Forall_Exists_neg in HF. apply HF.
      eapply Exists_impl; [exact HE|]. simpl. intros b [? ?]. split; [done|lia]. }
    rewrite Hd3. simpl. apply Z.eqb_neq in Hq as Hq'. rewrite Hq'. simpl.
    rewrite Hfr4. simpl.
    eexists. split; [done|]. split; [done|]. split.
    { intros y Hy. simpl.
      assert (Hy' : y < base \/ PHYSTOP <= y \/
                exists x h, (x, h) ∈ l /\ used h = true /\
                  x + HEADER_SIZE <= y < x + HEADER_SIZE + data_size h)
        by (destruct Hy; [by left|right; by left]).
      assert (Hy1 : y < base \/ PHYSTOP <= y \/
                exists x h, (x, h) ∈ l1 /\ used h = true /\
                  x + HEADER_SIZE <= y < x + HEADER_SIZE + data_size h)
        by (destruct Hy; [by left|right; by left]).
      assert (Hy3 : y < base \/ PHYSTOP <= y \/
                exists x h, (x, h) ∈ l3 /\ used h = true /\
                  x + HEADER_SIZE <= y < x + HEADER_SIZE + data_size h)
        by (destruct Hy; [by left|right; by left]).
      rewrite (call_keeps s3 l3 s4), (call_keeps s2 l s3), (call_keeps s2 l s2),
        (call_keeps s1 l1 s2), (call_keeps (heap k) l s1); try done.
      - left. by exists fuel, (HEAP_SIZE - 128), p.
      - right. by exists fuel, p.
      - left. exists fuel, (wrap32 HEAP_SIZE), 0.
        apply (dalloc_heap_size_fails fuel s2 l Hok2); lia.
      - left. by exists fuel, 1, q.
      - right. by exists fuel, q. }
    left. split; [done|]. simpl. by rewrite <- !app_assoc.
Qed.

(** X15. [boundary_test] on any well-formed, coalesced heap of at least 144
    and at most 2^32 - 32 bytes: it returns and leaves the block sequence
    as it found it; it reports success exactly when some free block holds
    [HEAP_SIZE - 112] bytes, the requirement of [dalloc(HEAP_SIZE - 128)],
    and then [dalloc(HEAP_SIZE)] has returned null in between. *)
Theorem boundary_test_restores fuel k l :
  144 <= HEAP_SIZE <= 2 ^ 32 - 32 ->
  ok (heap k) l -> no_adjacent_free l -> (length l + 1 < fuel)%nat ->
  exists k',
    boundary_test HEAP_SIZE fuel k = Ret k' /\ ok (heap k') l /\
    ((Exists (fun b => used b.2 = false /\ HEAP_SIZE - 112 <= data_size b.2) l /\
      console k' = console k ++
        [("Entering boundary_test...\n", []);
         ("Allocated very large memory.\n", []);
         ("Allocated memory exceeded heap size.\n", []);
         ("Allocated very small memory.\n", []);
         ("Boundary test passed.\n\n", [])]) \/
     (Forall (fun b => ~ (used b.2 = false /\ HEAP_SIZE - 112 <= data_size b.2)) l /\
      console k' = console k ++
        [("Entering boundary_test...\n", []);
         ("Failed to allocate very large memory.\n", []);
         ("Boundary test failed.\n\n", [])])).
Proof.
  intros Hhs Hok Hnaf Hf.
  destruct (boundary_test_run fuel k l Hhs Hok Hnaf Hf) as (k' & Hr & Hok' & _ & Hv).
  by exists k'.
Qed.

(** *** The loops of [random_test] and [stress_test] *)

Local Abbreviation pristine :=
  [(base, {| data_size := HEAP_SIZE - HEADER_SIZE; used := false; next := 0 |})].

Lemma rand_spec k :
  0 <= (rand k).1 < 32768 /\ heap (rand k).2 = heap k /\
  console (rand k).2 = console k /\ ram (rand k).2 = ram k.
Proof.
  unfold rand. simpl. split; [|done]. apply Z.mod_pos_bound. lia.
Qed.

Lemma random_size r :
  0 <= r < 32768 ->
  wrap32 (Z.rem r 100000 + 1) = r + 1 /\
  0 < required_size (r + 1) <= 32784.
Proof.
  intros Hr. rewrite Z.rem_small by lia. split.
  - unwrap. apply Z.mod_small. lia.
  - rewrite required_size_exact by lia. unfold round_up. unwrap.
    Z.div_mod_to_equations. lia.
Qed.

Lemma non_null_cons p ps :
  non_null (p :: ps) = if decide (p = 0) then non_null ps else p :: non_null ps.
Proof.
  unfold non_null. rewrite filter_cons. by destruct (decide (p = 0)), (decide (p <> 0)).
Qed.

Lemma tail_cap_nonneg s l : ok s l -> 0 <= tail_cap l.
Proof.
  intros Hok. unfold tail_cap. destruct (last l) as [[x h]|] eqn:E; [|done].
  apply last_Some_elem_of in E.
  destruct (heap_ok_elem _ _ _ _ Hok E) as (_ & _ & Hd & _). simpl.
  destruct (used h); lia.
Qed.

Lemma random_alloc_inv n fuel : forall passed failed k l,
  ok (heap k) l -> packed l -> (length l + n < fuel)%nat ->
  exists ps passed' failed' k' l',
    random_alloc n fuel passed failed k = Ret (ps, passed', failed', k') /\
    ok (heap k') l' /\ packed l' /\
    live l' ≡ₚ non_null ps ++ live l /\
    (length l' <= length l + n)%nat /\
    passed' + failed' = passed + failed + Z.of_nat n /\
    passed <= passed' /\ failed <= failed' /\
    (Z.of_nat n * 32784 <= tail_cap l -> failed' = failed) /\
    outside k k' /\ (exists out, console k' = console k ++ out).
Proof.
  induction n as [|n IH]; intros passed failed k l Hok Hpk Hf.
  - exists [], passed, failed, k, l. simpl. repeat (split; [done || lia|]).
    exists []. by rewrite app_nil_r.
  - cbn [random_alloc].
    pose proof (rand_spec k) as (Hr & Hh & Hco & Hram). destruct (rand k) as [r k1].
    simpl in Hr, Hh, Hco, Hram. destruct (random_size r Hr) as [-> Hrs].
    unfold k_dalloc. rewrite Hh.
    destruct (dalloc_packed fuel (r + 1) _ _ Hok Hpk ltac:(lia)
                ltac:(apply no_wrap_small; lia) ltac:(lia))
      as [(Hle & s' & p & l1 & Hd & Hp & Hok1 & Hpk1 & Hcap & Hlive & Hlen)
         |(Hlt & Hd)]; rewrite Hd; simpl.
    + apply Z.eqb_neq in Hp as Hp'. rewrite Hp'. simpl.
      destruct (IH (passed + 1) failed
                  (printf "Allocated address: %p, size: %d\n" [p; r + 1]
                     (with_heap s' k1)) l1 Hok1 Hpk1 ltac:(lia))
        as (ps & pa & fa & k' & l' & -> & Hok' & Hpk' & Hlive' & Hlen' & Hsum & Hpa
            & Hfa & Hall & Hout & out & Hcon).
      simpl. exists (p :: ps), pa, fa, k', l'. split; [done|].
      split; [done|]. split; [done|]. split.
      { rewrite non_null_cons, decide_False by done. by rewrite Hlive', Hlive,
          <- Permutation_middle. }
      split; [lia|]. split; [lia|]. split; [lia|]. split; [lia|].
      split; [intros Hc; apply Hall; lia|]. split.
      * eapply outside_trans; [|exact Hout]. intros y Hy. simpl. rewrite <- Hram.
        rewrite <- Hh in Hok, Hd. apply (outside_call k1 l s' Hok); [|done].
        left. by exists fuel, (r + 1), p.
      * eexists. rewrite Hcon. simpl. rewrite Hco, <- app_assoc. done.
    + destruct (IH passed (failed + 1)
                  (printf "Failed to allocate memory.\n" [] (with_heap (heap k) k1))
                  l Hok Hpk ltac:(lia))
        as (ps & pa & fa & k' & l' & -> & Hok' & Hpk' & Hlive' & Hlen' & Hsum & Hpa
            & Hfa & Hall & Hout & out & Hcon).
      simpl. exists (0 :: ps), pa, fa, k', l'. split; [done|].
      split; [done|]. split; [done|]. split.
      { by rewrite non_null_cons, decide_True. }
      split; [lia|]. split; [lia|]. split; [lia|]. split; [lia|].
      split; [lia|]. split.
      * eapply outside_trans; [|exact Hout]. intros y Hy. simpl. rewrite <- Hram.
        rewrite <- Hh in Hok, Hd. apply (outside_call k1 l (heap k) Hok); [|done].
        left. exists fuel, (r + 1), 0. by rewrite Hh in *.
      * eexists. rewrite Hcon. simpl. rewrite Hco, <- app_assoc. done.
Qed.

Lemma random_free_live fuel ps : forall k l,
  ok (heap k) l -> no_adjacent_free l -> non_null ps ≡ₚ live l ->
  (length l < fuel)%nat ->
  exists k' l',
    random_free fuel ps k = Ret k' /\
    ok (heap k') l' /\ no_adjacent_free l' /\ live l' = [] /\
    outside k k' /\ (exists out, console k' = console k ++ out).
Proof.
  induction ps as [|p ps IH]; intros k l Hok Hnaf Hperm Hf.
  - exists k, l. split; [done|]. split; [done|]. split; [done|].
    split; [symmetry in Hperm; by apply Permutation_nil_r in Hperm|].
    split; [apply outside_refl|]. exists []. by rewrite app_nil_r.
  - rewrite non_null_cons in Hperm. cbn [random_free].
    destruct (decide (p = 0)) as [->|Hp]; [by apply (IH k l)|].
    apply Z.eqb_neq in Hp as Hp'. rewrite Hp'. simpl.
    assert (Hq : p ∈ live l) by (rewrite <- Hperm; left).
    apply live_elem in Hq as (x & h & Hin & Hu & ->).
    destruct (dfree_live fuel _ _ x h Hok Hin Hu Hf)
      as (s' & l' & Hd & Hok' & Hnaf' & Hlive & Hlen).
    unfold k_dfree. rewrite Hd. simpl.
    rewrite Hlive in Hperm. apply Permutation_cons_inv in Hperm.
    destruct (IH (printf "Memory deallocated: %p\n" [x + HEADER_SIZE] (with_heap s' k))
                l' Hok' Hnaf' Hperm ltac:(lia))
      as (k' & l'' & -> & Hok'' & Hnaf'' & Hl'' & Hout & out & Hcon).
    exists k', l''. split; [done|]. split; [done|]. split; [done|]. split; [done|].
    split.
    + eapply outside_trans; [|exact Hout].
      apply (outside_call k l s' Hok). right. by exists fuel, (x + HEADER_SIZE).
    + eexists. rewrite Hcon. simpl. by rewrite <- app_assoc.
Qed.

Lemma stress_alloc_inv n fuel size : forall failed k l,
  0 <= size < 2 ^ 32 -> no_wrap size ->
  ok (heap k) l -> packed l -> (length l + n < fuel)%nat ->
  exists ps failed' k' l',
    stress_alloc n fuel size failed k = Ret (ps, failed', k') /\
    ok (heap k') l' /\ packed l' /\
    live l' ≡ₚ non_null ps ++ live l /\
    (length l' <= length l + n)%nat /\
    console k' = console k /\
    Z.of_nat (length (non_null ps))
      = Z.min (Z.of_nat n) (tail_cap l / required_size size) /\
    failed' = failed + Z.of_nat n - Z.of_nat (length (non_null ps)) /\
    outside k k'.
Proof.
  intros failed k l Hs Hnw. revert failed k l.
  pose proof (required_size_bounds size) as [Hrb _]. unfold no_wrap in Hnw.
  induction n as [|n IH]; intros failed k l Hok Hpk Hf.
  - exists [], failed, k, l. simpl. repeat (split; [done || lia|]).
    pose proof (tail_cap_nonneg _ _ Hok).
    split; [|split; [lia|apply outside_refl]].
    rewrite Z.min_l; [done|]. apply Z.div_pos; lia.
  - cbn [stress_alloc]. unfold k_dalloc.
    pose proof (tail_cap_nonneg _ _ Hok) as Hcap0.
    destruct (dalloc_packed fuel size _ _ Hok Hpk Hs Hnw ltac:(lia))
      as [(Hle & s' & p & l1 & Hd & Hp & Hok1 & Hpk1 & Hcap & Hlive & Hlen)
         |(Hlt & Hd)]; rewrite Hd; simpl.
    + apply Z.eqb_neq in Hp as Hp'. rewrite Hp'.
      destruct (IH failed (with_heap s' k) l1 Hok1 Hpk1 ltac:(lia))
        as (ps & fa & k' & l' & -> & Hok' & Hpk' & Hlive' & Hlen' & Hcon & Hcnt & Hfa
            & Hout).
      simpl. exists (p :: ps), fa, k', l'. split; [done|].
      split; [done|]. split; [done|].
      rewrite non_null_cons, decide_False by done.
      split; [by rewrite Hlive', Hlive, <- Permutation_middle|].
      split; [lia|]. split; [done|].
      assert (Hdiv : tail_cap l / required_size size
                     = (tail_cap l - required_size size) / required_size size + 1).
      { rewrite <- Z.div_add by lia. f_equal. lia. }
      rewrite Hcap in Hcnt. simpl length. split; [lia|]. split; [lia|].
      eapply outside_trans; [|exact Hout].
      apply (outside_call k l s' Hok). left. by exists fuel, size, p.
    + destruct (IH (failed + 1) (with_heap (heap k) k) l Hok Hpk ltac:(lia))
        as (ps & fa & k' & l' & -> & Hok' & Hpk' & Hlive' & Hlen' & Hcon & Hcnt & Hfa
            & Hout).
      simpl. exists (0 :: ps), fa, k', l'. split; [done|].
      split; [done|]. split; [done|].
      rewrite non_null_cons, decide_True by done.
      split; [done|]. split; [lia|]. split; [done|].
      rewrite Z.div_small in * by lia. split; [lia|]. split; [lia|].
      eapply outside_trans; [|exact Hout].
      apply (outside_call k l (heap k) Hok). left. by exists fuel, size, 0.
Qed.

Lemma stress_free_live fuel ps : forall passed k l,
  ok (heap k) l -> no_adjacent_free l -> non_null ps ≡ₚ live l ->
  (length l < fuel)%nat ->
  exists k' l',
    stress_free fuel ps passed k
    = Ret (passed + Z.of_nat (length (non_null ps)), k') /\
    ok (heap k') l' /\ no_adjacent_free l' /\ live l' = [] /\
    outside k k' /\ (exists out, console k' = console k ++ out).
Proof.
  induction ps as [|p ps IH]; intros passed k l Hok Hnaf Hperm Hf.
  - exists k, l. simpl. rewrite Z.add_0_r. split; [done|]. split; [done|].
    split; [done|]. split; [symmetry in Hperm; by apply Permutation_nil_r in Hperm|].
    split; [apply outside_refl|]. exists []. by rewrite app_nil_r.
  - rewrite non_null_cons in *. cbn [stress_free].
    destruct (decide (p = 0)) as [->|Hp]; [by apply (IH passed k l)|].
    apply Z.eqb_neq in Hp as Hp'. rewrite Hp'. simpl.
    assert (Hq : p ∈ live l) by (rewrite <- Hperm; left).
    apply live_elem in Hq as (x & h & Hin & Hu & ->).
    destruct (dfree_live fuel _ _ x h Hok Hin Hu Hf)
      as (s' & l' & Hd & Hok' & Hnaf' & Hlive & Hlen).
    unfold k_dfree. rewrite Hd. simpl.
    rewrite Hlive in Hperm. apply Permutation_cons_inv in Hperm.
    destruct (IH (passed + 1)
                (if Z.rem (passed + 1) 10 =? 0
                 then printf "%d tests passed.\n" [passed + 1] (with_heap s' k)
                 else with_heap s' k) l')
      as (k' & l'' & Hx & Hok'' & Hnaf'' & Hl'' & Hout & out & Hcon);
      [destruct (Z.rem _ _ =? 0); exact Hok'|done|done|lia|].
    exists k', l''. split; [rewrite Hx; f_equal; f_equal; lia|].
    split; [done|]. split; [done|]. split; [done|]. split.
    + eapply outside_trans; [|exact Hout].
      eapply outside_trans;
        [apply (outside_call k l s' Hok); right; by exists fuel, (x + HEADER_SIZE)|].
      apply outside_ram. by destruct (Z.rem _ _ =? 0).
    + destruct (Z.rem _ _ =? 0); eexists; rewrite Hcon; simpl;
        [by rewrite <- app_assoc|done].
Qed.

Lemma pristine_packed : packed pristine.
Proof. by exists [], (base, Dheader (HEAP_SIZE - HEADER_SIZE) false 0). Qed.

(** [random_test] from start to end. *)
Lemma random_test_run fuel k :
  ok (heap k) pristine -> (11 < fuel)%nat ->
  exists k' out passed failed,
    random_test fuel k = Ret k' /\ ok (heap k') pristine /\
    console k' = console k ++ out /\ outside k k' /\
    last out
    = Some ("Random test completed. Passed: %d, Failed: %d.\n\n", [passed; failed]) /\
    passed + failed = 10 /\ 0 <= passed /\ 0 <= failed /\
    (327856 <= HEAP_SIZE -> passed = 10).
Proof.
  intros Hok Hf. unfold random_test.
  destruct (random_alloc_inv 10 fuel 0 0
              (srand 1000 (printf "Entering random_test...\n" [] k)) pristine
              Hok pristine_packed ltac:(simpl; lia))
    as (ps & pa & fa & k1 & l1 & -> & Hok1 & Hpk1 & Hlive1 & Hlen1 & Hsum & Hpa & Hfa
        & Hall & Hout1 & out1 & Hcon1).
  simpl in Hlive1, Hlen1. rewrite app_nil_r in Hlive1.
  destruct (random_free_live fuel ps k1 l1 Hok1 (packed_naf _ Hpk1))
    as (k2 & l2 & Hfr & Hok2 & Hnaf2 & Hlive2 & Hout2 & out2 & Hcon2);
    [by symmetry|lia|].
  cbn [mbind result_bind]. rewrite Hfr. cbn [mbind result_bind].
  eexists _, _, pa, fa. split; [done|].
  rewrite <- (all_free_single _ _ Hok2 Hnaf2 Hlive2). split; [done|].
  split; [simpl; rewrite Hcon2, Hcon1; simpl; by rewrite <- !app_assoc|].
  split; [by eapply outside_trans|].
  split; [by rewrite !app_assoc, last_snoc|]. split; [lia|]. split; [lia|].
  split; [lia|]. intros Hhs. rewrite Hall in Hsum; [lia|].
  change (tail_cap pristine) with (HEAP_SIZE - HEADER_SIZE).
  unfold HEADER_SIZE. lia.
Qed.

(** X16. [random_test] on a freshly initialised heap: it returns, the
    heap is one free block again, and the counts it prints add up to 10;
    every size it requests lies between 1 and 32768, so on a heap of at
    least 327856 bytes all ten requests are served. *)
Theorem random_test_restores fuel k :
  ok (heap k) pristine -> (11 < fuel)%nat ->
  exists k' passed failed,
    random_test fuel k = Ret k' /\ ok (heap k') pristine /\
    last (console k')
    = Some ("Random test completed. Passed: %d, Failed: %d.\n\n", [passed; failed]) /\
    passed + failed = 10 /\ 0 <= passed /\ 0 <= failed /\
    (327856 <= HEAP_SIZE -> passed = 10).
Proof.
  intros Hok Hf.
  destruct (random_test_run fuel k Hok Hf)
    as (k' & out & pa & fa & Hr & Hok' & Hcon & _ & Hlast & H).
  exists k', pa, fa. split; [done|]. split; [done|]. split; [|done].
  rewrite Hcon, last_app. by rewrite Hlast.
Qed.

(** [stress_test] from start to end. *)
Lemma stress_test_run fuel k :
  ok (heap k) pristine -> (256 < fuel)%nat ->
  exists k' out,
    stress_test fuel k = Ret k' /\ ok (heap k') pristine /\
    console k' = console k ++ out /\ outside k k' /\
    last out
    = Some ("Stress test completed. \n%d allocations and deallocations attempted. \nPassed: %d, Failed: %d.\n\n",
            [255; Z.min 255 ((HEAP_SIZE - 16) / 65568);
             255 - Z.min 255 ((HEAP_SIZE - 16) / 65568)]).
Proof.
  intros Hok Hf. unfold stress_test.
  destruct (stress_alloc_inv 255 fuel 65537 0
              (printf "Entering stress_test...\n" [] k) pristine
              ltac:(lia) ltac:(by vm_compute) Hok pristine_packed ltac:(simpl; lia))
    as (ps & fa & k1 & l1 & -> & Hok1 & Hpk1 & Hlive1 & Hlen1 & Hcon1 & Hcnt & Hfa
        & Hout1).
  simpl in Hlive1, Hlen1. rewrite app_nil_r in Hlive1.
  change (tail_cap pristine) with (HEAP_SIZE - HEADER_SIZE) in Hcnt.
  change (required_size 65537) with 65568 in Hcnt.
  cbn [mbind result_bind].
  destruct (stress_free_live fuel ps 0
              (printf "The last allocated address: %p\n"
                 [default 0 (ps !! (255 - 1)%nat)] k1) l1 Hok1 (packed_naf _ Hpk1))
    as (k2 & l2 & Hfr & Hok2 & Hnaf2 & Hlive2 & Hout2 & out2 & Hcon2);
    [by symmetry|lia|].
  rewrite Hfr. cbn [mbind result_bind].
  eexists _, _. split; [done|].
  rewrite <- (all_free_single _ _ Hok2 Hnaf2 Hlive2). split; [done|].
  split; [simpl; rewrite Hcon2; simpl; rewrite Hcon1; simpl; by rewrite <- !app_assoc|].
  split; [by eapply outside_trans|].
  rewrite !app_assoc, last_snoc. do 3 f_equal. unfold HEADER_SIZE in Hcnt.
  f_equal; [lia|]. f_equal. lia.
Qed.

(** X17. [stress_test] on a freshly initialised heap: it returns, the heap
    is one free block again, and it reports as passed the number of
    65568-byte requirements that fit into [HEAP_SIZE - 16] bytes, at most
    255, and as failed the rest of the 255 attempts. *)
Theorem stress_test_restores fuel k :
  ok (heap k) pristine -> (256 < fuel)%nat ->
  exists k',
    stress_test fuel k = Ret k' /\ ok (heap k') pristine /\
    last (console k')
    = Some ("Stress test completed. \n%d allocations and deallocations attempted. \nPassed: %d, Failed: %d.\n\n",
            [255; Z.min 255 ((HEAP_SIZE - 16) / 65568);
             255 - Z.min 255 ((HEAP_SIZE - 16) / 65568)]).
Proof.
  intros Hok Hf.
  destruct (stress_test_run fuel k Hok Hf) as (k' & out & Hr & Hok' & Hcon & _ & Hlast).
  exists k'. split; [done|]. split; [done|].
  rewrite Hcon, last_app. by rewrite Hlast.
Qed.

(** *** [overwrite_test] *)

Local Abbreviation lit := (literal PHYSTOP HEAP_SIZE).

Lemma literal_outside k k' str bs : outside k k' -> lit k str bs -> lit k' str bs.
Proof.
  intros Hout (Hh & Hnz & H0 & H64 & Hloc). split; [|done].
  apply (holds_frame _ (ram k)); [done|]. intros x Hx. apply Hout.
  rewrite length_app in Hx. simpl in Hx. destruct Hloc; [left|right]; lia.
Qed.

Lemma holds_prefix bs cs : forall (bytes : gmap Z Z) a,
  holds bytes a (bs ++ cs) -> holds bytes a bs.
Proof.
  induction bs as [|b bs IH]; intros bytes a Hh; [done|].
  destruct Hh as [? Hh]. split; [done|]. by apply (IH bytes).
Qed.

Lemma stored_ram k k' l p bs : ram k' = ram k -> stored k l p bs -> stored k' l p bs.
Proof. intros E (h & ? & ? & ? & ?). exists h. by rewrite E. Qed.

(** A string is given a block and copied into it: the heap stays well
    formed, the string is stored, and so is every string stored before. *)
Lemma store_step fuel k l str bs :
  ok (heap k) l -> packed l -> lit k str bs ->
  Z.of_nat (length bs) <= 2 ^ 32 - 34 ->
  required_size (Z.of_nat (length bs) + 1) <= tail_cap l ->
  (length l < fuel)%nat -> (length bs < fuel)%nat ->
  exists p k1 k2 l',
    k_dalloc fuel (wrap32 (Z.of_nat (length bs) + 1)) k = Ret (p, k1) /\ p <> 0 /\
    my_strcpy fuel k1 p str = Ret (p, k2) /\
    ok (heap k2) l' /\ packed l' /\
    tail_cap l' = tail_cap l - required_size (Z.of_nat (length bs) + 1) /\
    live l' ≡ₚ p :: live l /\ (length l' <= length l + 1)%nat /\
    stored k2 l' p bs /\
    (forall q cs, stored k l q cs -> stored k2 l' q cs) /\
    outside k k2 /\ console k2 = console k.
Proof.
  intros Hok Hpk Hlit Hlen Hcap Hf Hfb.
  set (size := Z.of_nat (length bs) + 1) in *.
  assert (Hw : wrap32 size = size) by (unwrap; apply Z.mod_small; lia).
  assert (Hs : 0 <= size < 2 ^ 32) by lia.
  assert (Hnw : no_wrap size) by (apply no_wrap_small; lia).
  pose proof (required_size_split size Hs Hnw) as Hrs.
  assert (Hsz : size <= align_up size).
  { rewrite align_up_exact by lia. unfold round_up. unwrap.
    Z.div_mod_to_equations. lia. }
  rewrite Hw.
  destruct (dalloc_packed fuel size _ _ Hok Hpk Hs Hnw Hf)
    as [(_ & s1 & p & l1 & Hd & Hp & Hok1 & Hpk1 & Hcap1 & Hlive1 & Hlen1)|(? & _)];
    [|lia].
  pose proof Hok as (_ & _ & Hb & Hc). pose proof Hok1 as (Hlk1 & Hst1 & Hb1 & Hc1).
  destruct (dalloc_cases _ _ _ _ _ _ Hok Hd)
    as [(_ & ? & _)|(la & c & h & lb & Hff & -> & _ & Hs1)]; [done|].
  apply first_fit_Some in Hff as (Hl & Hfit & _). simpl in Hfit.
  apply fits_true in Hfit as [Hu Hle].
  assert (Hok1' : ok s1 (la ++ take_list size (required_size size) c h ++ lb)).
  { rewrite Hs1. rewrite Hl in Hok. apply take_block_ok; try done.
    intros [? _]. done. }
  destruct Hok1' as (_ & _ & Hb1' & _).
  pose proof (lseg_det _ _ _ _ Hb1 Hb1') as Hl1.
  set (h' := if required_size size <? data_size h
             then {| data_size := align_up size; used := true;
                     next := wrap64 (c + required_size size) |}
             else mark_used h).
  assert (Hin' : (c, h') ∈ l1).
  { rewrite Hl1. apply elem_of_app. right. apply elem_of_app. left.
    subst h'. unfold take_list. destruct (_ <? _); left. }
  assert (Hu' : used h' = true) by (subst h'; by destruct (_ <? _)).
  assert (Hd' : size <= data_size h').
  { subst h'. destruct (_ <? _); simpl; unfold HEADER_SIZE in *; lia. }
  assert (Hkeep : forall x g, (x, g) ∈ l -> used g = true -> (x, g) ∈ l1).
  { intros x g Hx Hg. rewrite Hl in Hx. rewrite Hl1.
    rewrite !elem_of_app in *. rewrite elem_of_cons in Hx.
    destruct Hx as [?|[[= -> ->]|?]]; [by left|congruence|right; by right]. }
  destruct (heap_ok_elem _ _ _ _ Hok1 Hin') as (Hc0 & Hce & Hdh' & _).
  destruct (contiguous_elem _ _ _ _ _ Hc1 Hin') as (Hclo & _).
  set (k1 := with_heap s1 k).
  assert (Hout1 : outside k k1).
  { apply (outside_call k l s1 Hok). left. by exists fuel, size, (c + HEADER_SIZE). }
  pose proof (literal_outside _ _ _ _ Hout1 Hlit) as (Hh1 & Hnz & Hstr0 & Hstr64 & Hloc).
  destruct (strcpy_loop_spec bs fuel k1 (c + HEADER_SIZE) str)
    as (k2 & Hcopy & Hh2 & Hfr2 & Hfm2 & Hlk2 & Hst2 & Hco2 & _); try done.
  { unfold HEADER_SIZE. lia. }
  { unfold HEADER_SIZE in *. lia. }
  { rewrite heap_base_eq in *. unfold HEADER_SIZE in *. lia. }
  assert (Hdis : forall a g, (a, g) ∈ l1 -> a <> c ->
            a + HEADER_SIZE + data_size g <= c \/
            c + HEADER_SIZE + data_size h' <= a).
  { intros a g Ha Hne. destruct (Z.lt_total a c) as [Hlt|[?|Hlt]]; [left|done|right];
      by eapply contiguous_disjoint. }
  assert (Hok2 : ok (heap k2) l1).
  { split; [by rewrite Hlk2|]. split; [by rewrite Hst2|]. split; [|done].
    unfold blocks. rewrite Hst2. apply (lseg_frame (mem s1)); [exact Hb1|].
    intros a Ha. apply list_elem_of_fmap in Ha as ([a' g] & -> & Ha). simpl.
    apply Hfm2. destruct (decide (a' = c)) as [->|Hne]; [left; lia|].
    destruct (contiguous_elem _ _ _ _ _ Hc1 Ha) as (_ & _ & Hg & _).
    destruct (Hdis a' g Ha Hne); unfold HEADER_SIZE in *; [left|right]; lia. }
  exists (c + HEADER_SIZE), k1, k2, l1.
  split; [unfold k_dalloc; by rewrite Hd|]. split; [done|].
  split; [unfold my_strcpy; by rewrite Hcopy|]. split; [done|]. split; [done|].
  split; [done|]. split; [done|]. split; [done|]. split; [|split; [|split]].
  - exists h'. replace (c + HEADER_SIZE - HEADER_SIZE) with c by lia.
    split; [done|]. split; [done|]. split; [lia|done].
  - intros q cs (g & Hg & Hgu & Hgd & Hgh).
    exists g. split; [by apply Hkeep|]. split; [done|]. split; [done|].
    apply (holds_frame _ (ram k)); [done|]. intros x Hx.
    rewrite length_app in Hx. simpl in Hx.
    assert (Hne : q - HEADER_SIZE <> c).
    { intros E. rewrite E, Hl in Hg.
      assert (Hch : (c, h) ∈ la ++ (c, h) :: lb) by (apply elem_of_app; right; left).
      rewrite <- Hl in Hg, Hch.
      pose proof (lseg_lookup _ _ _ _ _ _ Hb Hg).
      pose proof (lseg_lookup _ _ _ _ _ _ Hb Hch). congruence. }
    rewrite Hfr2.
    + simpl. apply (call_keeps _ l); [done|left; by exists fuel, size, (c + HEADER_SIZE)|].
      right. right. exists (q - HEADER_SIZE), g. split; [done|]. split; [done|].
      unfold HEADER_SIZE. lia.
    + destruct (Hdis _ _ (Hkeep _ _ Hg Hgu) Hne); unfold HEADER_SIZE in *; lia.
  - eapply outside_trans; [exact Hout1|]. intros y Hy. apply Hfr2.
    rewrite heap_base_eq in *. unfold HEADER_SIZE in *. lia.
  - done.
Qed.

(** The first loop of [overwrite_test] on a packed heap with room for
    all the strings. *)
Lemma overwrite_alloc_inv fuel strs : forall i success k l,
  ok (heap k) l -> packed l ->
  Forall (fun sb => lit k sb.1 sb.2 /\ Z.of_nat (length sb.2) <= 2 ^ 32 - 34 /\
                    (length sb.2 < fuel)%nat) strs ->
  foldr (fun sb acc => required_size (Z.of_nat (length sb.2) + 1) + acc) 0 strs
    <= tail_cap l ->
  (length l + length strs < fuel)%nat ->
  exists ptrs k' l',
    overwrite_alloc fuel i (map (fun sb => (sb.1, Z.of_nat (length sb.2))) strs)
      success k = Ret (ptrs, success, k') /\
    ok (heap k') l' /\ packed l' /\
    Forall2 (fun p sb => stored k' l' p sb.2) ptrs strs /\
    (forall q cs, stored k l q cs -> stored k' l' q cs) /\
    live l' ≡ₚ ptrs ++ live l /\
    outside k k' /\ console k' = console k /\
    (length l' <= length l + length strs)%nat.
Proof.
  induction strs as [|[str bs] strs IH]; intros i success k l Hok Hpk Hlits Hcap Hf.
  - exists [], k, l. simpl. split; [done|]. split; [done|]. split; [done|].
    split; [constructor|]. split; [done|]. split; [done|].
    split; [apply outside_refl|]. split; [done|lia].
  - apply Forall_cons in Hlits as [(Hlit & Hlen & Hfb) Hlits]. simpl in *.
    pose proof (required_size_bounds (Z.of_nat (length bs) + 1)) as [Hrb _].
    assert (Hrest : 0 <= foldr (fun sb acc =>
                      required_size (Z.of_nat (length sb.2) + 1) + acc) 0 strs).
    { clear. induction strs as [|sb strs IH]; simpl; [done|].
      pose proof (required_size_bounds (Z.of_nat (length sb.2) + 1)). lia. }
    destruct (store_step fuel k l str bs Hok Hpk Hlit Hlen ltac:(lia) ltac:(lia) Hfb)
      as (p & k1 & k2 & l1 & Hd & Hp & Hcp & Hok2 & Hpk2 & Hcap2 & Hlive2 & Hlen2
          & Hst & Hkeep & Hout & Hcon).
    rewrite Hd. cbn [mbind result_bind].
    apply Z.eqb_neq in Hp as Hp'. rewrite Hp'. rewrite Hcp. cbn [mbind result_bind].
    destruct (IH (i + 1) success k2 l1 Hok2 Hpk2)
      as (ptrs & k' & l' & -> & Hok' & Hpk' & Hall & Hkeep' & Hlive' & Hout' & Hcon'
          & Hlen'); [|lia|lia|].
    { eapply Forall_impl; [exact Hlits|]. intros sb (? & ? & ?).
      split; [by eapply literal_outside|done]. }
    cbn [mbind result_bind].
    exists (p :: ptrs), k', l'. split; [done|]. split; [done|]. split; [done|].
    split; [constructor; [by apply Hkeep'|done]|].
    split; [intros q cs Hq; by apply Hkeep', Hkeep|].
    split; [rewrite Hlive', Hlive2; simpl; by rewrite <- Permutation_middle|].
    split; [by eapply outside_trans|]. split; [congruence|lia].
Qed.

(** The second loop of [overwrite_test] when every string is stored where
    its pointer says. *)
Lemma overwrite_check_inv fuel l strs : forall ptrs i success k,
  ok (heap k) l ->
  Forall2 (fun p sb => stored k l p sb.2) ptrs strs ->
  Forall (fun sb => lit k sb.1 sb.2 /\ Z.of_nat (length sb.2) <= 2 ^ 32 - 34 /\
                    (length sb.2 < fuel)%nat) strs ->
  exists k',
    overwrite_check fuel i (map (fun sb => (sb.1, Z.of_nat (length sb.2))) strs)
      ptrs success k = Ret (success, k') /\
    heap k' = heap k /\ ram k' = ram k /\
    console k' = console k
                 ++ string_lines i (map (fun sb => (sb.1, Z.of_nat (length sb.2))) strs).
Proof.
  induction strs as [|[str bs] strs IH]; intros ptrs i success k Hok Hall Hlits.
  - apply Forall2_nil_inv_r in Hall as ->. exists k. simpl.
    by rewrite app_nil_r.
  - apply Forall2_cons_inv_r in Hall as (p & ptrs' & Hst & Hall & ->).
    apply Forall_cons in Hlits as [(Hlit & Hlen & Hfb) Hlits]. simpl in *.
    destruct Hst as (h & Hin & Hu & Hd & Hh).
    destruct Hlit as (Hsh & Hnz & Hs0 & Hs64 & Hloc).
    destruct (heap_ok_elem _ _ _ _ Hok Hin) as (Hp0 & Hpe & _).
    set (k1 := printf "String %d: %s\n" [i + 1; str] k).
    rewrite (cmp_holds fuel k1 p str bs); simpl.
    + destruct (IH ptrs' (i + 1) success k1) as (k' & -> & Hhp & Hram & Hcon);
        [done|done|done|].
      exists k'. split; [done|]. split; [done|]. split; [done|].
      rewrite Hcon. simpl. by rewrite <- app_assoc.
    + by apply (holds_prefix _ [0]).
    + by apply (holds_prefix _ [0]).
    + unfold HEADER_SIZE in *. lia.
    + change (2 ^ 64) with 18446744073709551616 in *. unfold HEADER_SIZE in *. lia.
    + done.
    + lia.
    + lia.
    + done.
Qed.

(** The third loop of [overwrite_test] when the pointers are those of
    the blocks in use. *)
Lemma overwrite_free_live fuel ps : forall k l,
  ok (heap k) l -> no_adjacent_free l -> ps ≡ₚ live l -> (length l < fuel)%nat ->
  exists k' l',
    overwrite_free fuel ps k = Ret k' /\
    ok (heap k') l' /\ no_adjacent_free l' /\ live l' = [] /\
    outside k k' /\ console k' = console k.
Proof.
  induction ps as [|p ps IH]; intros k l Hok Hnaf Hperm Hf.
  - exists k, l. split; [done|]. split; [done|]. split; [done|].
    split; [symmetry in Hperm; by apply Permutation_nil_r in Hperm|].
    split; [apply outside_refl|done].
  - cbn [overwrite_free].
    assert (Hq : p ∈ live l) by (rewrite <- Hperm; left).
    apply live_elem in Hq as (x & h & Hin & Hu & ->).
    destruct (dfree_live fuel _ _ x h Hok Hin Hu Hf)
      as (s' & l' & Hd & Hok' & Hnaf' & Hlive & Hlen).
    unfold k_dfree. rewrite Hd. cbn [mbind result_bind].
    rewrite Hlive in Hperm. apply Permutation_cons_inv in Hperm.
    destruct (IH (with_heap s' k) l' Hok' Hnaf' Hperm ltac:(lia))
      as (k' & l'' & -> & Hok'' & Hnaf'' & Hl'' & Hout & Hcon).
    exists k', l''. split; [done|]. split; [done|]. split; [done|]. split; [done|].
    split; [|done]. eapply outside_trans; [|exact Hout].
    apply (outside_call k l s' Hok). right. by exists fuel, (x + HEADER_SIZE).
Qed.

(** [overwrite_test] from start to end. *)
Lemma overwrite_test_run str1 str2 str3 fuel k :
  ok (heap k) pristine -> 176 <= HEAP_SIZE ->
  lit k str1 hello -> lit k str2 love -> lit k str3 march ->
  (52 < fuel)%nat ->
  exists k',
    overwrite_test str1 str2 str3 fuel k = Ret k' /\ ok (heap k') pristine /\
    outside k k' /\
    console k' = console k ++
      [("Entering overwrite_test...\n", []);
       ("String %d: %s\n", [1; str1]);
       ("String %d: %s\n", [2; str2]);
       ("String %d: %s\n", [3; str3]);
       ("Overwrite test passed.\n\n", [])].
Proof.
  intros Hok Hhs H1 H2 H3 Hf. unfold overwrite_test.
  set (k0 := printf "Entering overwrite_test...\n" [] k).
  set (strs := [(str1, hello); (str2, love); (str3, march)]).
  change [(str1, 13); (str2, 20); (str3, 51)]
    with (map (fun sb : Z * list Z => (sb.1, Z.of_nat (length sb.2))) strs).
  assert (Hlits : forall k', outside k k' ->
            Forall (fun sb => lit k' sb.1 sb.2 /\ Z.of_nat (length sb.2) <= 2 ^ 32 - 34 /\
                              (length sb.2 < fuel)%nat) strs).
  { intros k' Hout. subst strs.
    repeat (apply Forall_cons; split;
            [split; [by eapply literal_outside|split; [by vm_compute|simpl; lia]]|]).
    constructor. }
  destruct (overwrite_alloc_inv fuel strs 0 1 k0 pristine Hok pristine_packed)
    as (ptrs & k1 & l1 & -> & Hok1 & Hpk1 & Hall & _ & Hlive1 & Hout1 & Hcon1 & Hlen1).
  { apply Hlits. by apply outside_ram. }
  { change (tail_cap pristine) with (HEAP_SIZE - HEADER_SIZE).
    change (foldr _ 0 strs) with 160. unfold HEADER_SIZE. lia. }
  { simpl. lia. }
  cbn [mbind result_bind].
  destruct (overwrite_check_inv fuel l1 strs ptrs 0 1 k1 Hok1 Hall)
    as (k2 & -> & Hhp2 & Hram2 & Hcon2).
  { apply Hlits. eapply outside_trans; [|exact Hout1]. by apply outside_ram. }
  cbn [mbind result_bind]. change (negb (1 =? 0)) with true. cbv iota.
  simpl in Hlive1, Hlen1. rewrite app_nil_r in Hlive1.
  destruct (overwrite_free_live fuel ptrs
              (printf "Overwrite test passed.\n\n" [] k2) l1)
    as (k3 & l3 & -> & Hok3 & Hnaf3 & Hlive3 & Hout3 & Hcon3).
  { simpl. by rewrite Hhp2. }
  { by apply packed_naf. }
  { by symmetry. }
  { lia. }
  exists k3. split; [done|].
  rewrite <- (all_free_single _ _ Hok3 Hnaf3 Hlive3). split; [done|]. split.
  - eapply outside_trans; [|exact Hout3].
    eapply outside_trans; [|apply outside_ram; simpl; exact Hram2].
    eapply outside_trans; [|exact Hout1]. by apply outside_ram.
  - rewrite Hcon3. simpl. rewrite Hcon2, Hcon1. simpl. by rewrite <- !app_assoc.
Qed.

(** X27. [overwrite_test] on a freshly initialised heap of at least 176
    bytes, its three string literals lying outside the heap: every
    allocation is served, every string is found unchanged in its block
    after all three have been stored, the test prints its success line,
    and the heap is one free block again. *)
Theorem overwrite_test_passes str1 str2 str3 fuel k :
  ok (heap k) pristine -> 176 <= HEAP_SIZE ->
  lit k str1 hello -> lit k str2 love -> lit k str3 march ->
  (52 < fuel)%nat ->
  exists k',
    overwrite_test str1 str2 str3 fuel k = Ret k' /\ ok (heap k') pristine /\
    console k' = console k ++
      [("Entering overwrite_test...\n", []);
       ("String %d: %s\n", [1; str1]);
       ("String %d: %s\n", [2; str2]);
       ("String %d: %s\n", [3; str3]);
       ("Overwrite test passed.\n\n", [])].
Proof.
  intros Hok Hhs H1 H2 H3 Hf.
  destruct (overwrite_test_run str1 str2 str3 fuel k Hok Hhs H1 H2 H3 Hf)
    as (k' & Hr & Hok' & _ & Hcon).
  by exists k'.
Qed.

(** *** [memtest] *)

Lemma bind_Ret {A B} (f : A -> result B) (a : A) : (Ret a ≫= f) = f a.
Proof. done. Qed.

(** [dinit] writes one header, at the base of the heap. *)
Lemma outside_dinit k : outside k (with_heap (dinit PHYSTOP HEAP_SIZE (heap k)) k).
Proof.
  intros y Hy. simpl. apply forget_keep. intros a Ha Hne.
  destruct (decide (a = base)) as [->|Hab].
  - rewrite heap_base_eq in *. unfold HEADER_SIZE in *. lia.
  - by rewrite lookup_insert_ne in Hne.
Qed.

(** X28. [memtest] from any state whatever, on a heap of at least 176 and
    at most 2^32 - 32 bytes with the string literals outside it: it
    returns 0, the five tests have run to their end in turn, the basic,
    boundary and overwrite tests have printed their success lines, the
    random test has counted ten requests and the stress test 255, and the
    heap is one free block again. *)
Theorem memtest_passes str1 str2 str3 fuel k :
  176 <= HEAP_SIZE <= 2 ^ 32 - 32 ->
  lit k str1 hello -> lit k str2 love -> lit k str3 march ->
  (256 < fuel)%nat ->
  exists k' out,
    memtest PHYSTOP HEAP_SIZE str1 str2 str3 fuel k = Ret (0, k') /\
    ok (heap k') pristine /\
    console k' = console k ++ out /\
    ("Basic test passed.\n\n", []) ∈ out /\
    ("Boundary test passed.\n\n", []) ∈ out /\
    (exists passed failed,
       ("Random test completed. Passed: %d, Failed: %d.\n\n", [passed; failed]) ∈ out /\
       passed + failed = 10) /\
    ("Stress test completed. \n%d allocations and deallocations attempted. \nPassed: %d, Failed: %d.\n\n",
     [255; Z.min 255 ((HEAP_SIZE - 16) / 65568);
      255 - Z.min 255 ((HEAP_SIZE - 16) / 65568)]) ∈ out /\
    last out = Some ("Overwrite test passed.\n\n", []).
Proof.
  intros Hhs H1 H2 H3 Hf. unfold memtest.
  set (k0 := with_heap (dinit PHYSTOP HEAP_SIZE (heap k)) k).
  assert (Hok0 : ok (heap k0) pristine) by apply dinit_ok.
  pose proof (outside_dinit k) as Hout0. fold k0 in Hout0.
  assert (Hnaf : no_adjacent_free pristine) by (simpl; done).
  assert (Hbig : forall n, n <= HEAP_SIZE - 16 ->
            ~ Forall (fun b : Z * dheader => ~ (used b.2 = false /\ n <= data_size b.2))
                pristine).
  { intros n Hn HF. apply Forall_cons in HF as [HF _]. apply HF. simpl.
    unfold HEADER_SIZE. split; [done|lia]. }
  destruct (basic_test_run fuel k0 pristine Hok0 Hnaf ltac:(simpl; lia))
    as (k1 & -> & Hok1 & Hout1 & [(p & _ & _ & Hcon1)|[HF _]]);
    [|by destruct (Hbig 128 ltac:(lia))].
  rewrite bind_Ret.
  destruct (boundary_test_run fuel k1 pristine ltac:(lia) Hok1 Hnaf ltac:(simpl; lia))
    as (k2 & -> & Hok2 & Hout2 & [(_ & Hcon2)|[HF _]]);
    [|by destruct (Hbig (HEAP_SIZE - 112) ltac:(lia))].
  rewrite bind_Ret.
  destruct (random_test_run fuel k2 Hok2 ltac:(lia))
    as (k3 & out3 & pa & fa & -> & Hok3 & Hcon3 & Hout3 & Hlast3 & Hsum & _).
  rewrite bind_Ret.
  destruct (stress_test_run fuel k3 Hok3 Hf)
    as (k4 & out4 & -> & Hok4 & Hcon4 & Hout4 & Hlast4).
  rewrite bind_Ret.
  assert (Hout : outside k k4).
  { repeat (eapply outside_trans; [|eassumption]). apply outside_refl. }
  destruct (overwrite_test_run str1 str2 str3 fuel k4 Hok4 ltac:(lia))
    as (k5 & -> & Hok5 & Hout5 & Hcon5); try (by eapply literal_outside); [lia|].
  rewrite bind_Ret.
  exists k5.
  exists ([("Entering basic_test...\n", []);
           ("Allocated address: %p\n", [p]);
           ("Basic test passed.\n\n", [])]
          ++ [("Entering boundary_test...\n", []);
              ("Allocated very large memory.\n", []);
              ("Allocated memory exceeded heap size.\n", []);
              ("Allocated very small memory.\n", []);
              ("Boundary test passed.\n\n", [])]
          ++ out3 ++ out4
          ++ [("Entering overwrite_test...\n", []);
              ("String %d: %s\n", [1; str1]);
              ("String %d: %s\n", [2; str2]);
              ("String %d: %s\n", [3; str3]);
              ("Overwrite test passed.\n\n", [])]).
  split; [done|]. split; [done|].
  split; [rewrite Hcon5, Hcon4, Hcon3, Hcon2, Hcon1; by rewrite <- !app_assoc|].
  apply last_Some_elem_of in Hlast3, Hlast4.
  split; [apply elem_of_app; left; do 2 apply list_elem_of_further; left|].
  split.
  { apply elem_of_app. right. apply elem_of_app. left.
    do 4 apply list_elem_of_further. left. }
  split.
  { exists pa, fa. split; [|done]. rewrite !elem_of_app. auto. }
  split; [rewrite !elem_of_app; auto|].
  rewrite !app_assoc. by rewrite last_app.
Qed.

(** *** What holds in every reachable state *)

(** A free block is still covered by a free block, at least as large,
    after the coalescing pass. *)
Lemma coal_covers rest : forall cur a e b,
  e - a < 2 ^ 32 -> contiguous a (cur :: rest) e ->
  b ∈ cur :: rest -> used b.2 = false ->
  exists g, g ∈ coal cur rest /\ used g.2 = false /\ data_size b.2 <= data_size g.2.
Proof.
  induction rest as [|nx t IH]; intros cur a e b Hsz H Hin Hu.
  { apply list_elem_of_singleton in Hin as ->. exists cur. split; [left|done]. }
  pose proof H as Hall.
  simpl in H. destruct H as (Hc & Hd & Hd16 & Hn & Hdn & Hdn16 & Ht).
  pose proof (contiguous_total _ _ _ Ht). pose proof (total_nonneg _ _ _ Ht).
  simpl. destruct (negb (used cur.2) && negb (used nx.2)) eqn:E.
  - apply andb_true_iff in E as [E1 E2]. apply negb_true_iff in E1, E2.
    assert (Hw : wrap32 (data_size cur.2 + wrap32 (data_size nx.2 + HEADER_SIZE))
                 = data_size cur.2 + data_size nx.2 + 16).
    { unwrap. rewrite (Z.mod_small (data_size nx.2 + 16)) by lia.
      rewrite Z.mod_small; lia. }
    assert (Hm : contiguous a ((cur.1, merge cur.2 nx.2) :: t) e).
    { simpl. unfold merge. simpl. rewrite Hw. unfold HEADER_SIZE in *.
      split; [done|]. split; [lia|]. split.
      - clear -Hd16 Hdn16. Z.div_mod_to_equations. lia.
      - replace (a + 16 + (data_size cur.2 + data_size nx.2 + 16))
          with (a + 16 + data_size cur.2 + 16 + data_size nx.2) by lia. done. }
    assert (Hb : b ∈ t \/ data_size b.2 <= data_size (merge cur.2 nx.2)).
    { unfold merge. simpl. rewrite Hw.
      apply elem_of_cons in Hin as [->|Hin]; [right; lia|].
      apply elem_of_cons in Hin as [->|Hin]; [right; lia|by left]. }
    destruct Hb as [Hb|Hb].
    + apply (IH _ a e b); [done|done|by right|done].
    + destruct (IH (cur.1, merge cur.2 nx.2) a e (cur.1, merge cur.2 nx.2))
        as (g & Hg & Hgu & Hgd); [done|done|left|done|].
      exists g. split; [done|]. split; [done|].
      exact (Z.le_trans _ _ _ Hb Hgd).
  - apply elem_of_cons in Hin as [->|Hin].
    + exists cur. split; [left|done].
    + destruct (IH nx (a + HEADER_SIZE + data_size cur.2) e b) as (g & Hg & H');
        [unfold HEADER_SIZE in *; lia|done|done|done|].
      exists g. split; [by right|done].
Qed.

(** X24. In every reachable state that has a finite block sequence, no two
    neighbouring blocks are both free, and the blocks, headers included,
    add up to the heap size. *)
Theorem reachable_coalesced s l :
  reachable PHYSTOP HEAP_SIZE s -> blocks s l ->
  no_adjacent_free l /\ total l = HEAP_SIZE.
Proof.
  intros Hr Hb.
  destruct (reachable_inv s Hr) as [(l0 & Hok & Hnaf)|Hk];
    [|by destruct (knotted_no_blocks s l Hk)].
  destruct Hok as (_ & _ & Hb0 & Hc).
  rewrite (lseg_det _ _ _ _ Hb Hb0). split; [done|].
  apply contiguous_total in Hc. rewrite heap_base_eq in Hc. lia.
Qed.

(** X25. In every reachable state, the state left by a wrapped request
    included, the walks of [dalloc] and [dfree] only ever read addresses
    at which a header has been written. *)
Theorem reachable_never_faults s fuel :
  reachable PHYSTOP HEAP_SIZE s ->
  (forall size, dalloc fuel size s <> Fault) /\
  (forall p, dfree fuel p s <> Fault).
Proof.
  intros Hr. destruct (reachable_inv s Hr) as [(l & (_ & _ & Hb & _) & _)|Hk].
  - split.
    + intros size. unfold dalloc.
      destruct (dalloc_scan_spec fuel size (required_size size) (acquire s)
                  (start s) l Hb) as [H|[_ H]]; simpl in H; simpl; rewrite H; [|done].
      unfold dalloc_result. by destruct (first_fit _ l) as [[[? [? ?]] ?]|].
    + intros p.
      destruct (dfree_spec fuel p s l Hb)
        as [[_ H]|[(_ & _ & H)|[(_ & _ & m' & H & _)|[_ H]]]]; by rewrite H.
  - split.
    + intros size. by rewrite knotted_dalloc.
    + intros p. rewrite knotted_dfree by done. by destruct (_ =? _).
Qed.

(** X26. Memory that is released can be handed out again: after [dfree]
    of a block in use, any request whose requirement the payload of that
    block covers is served. *)
Theorem dfree_makes_room fuel s l x h size :
  ok s l -> (x, h) ∈ l -> used h = true -> (length l < fuel)%nat ->
  required_size size <= data_size h ->
  exists s',
    dfree fuel (x + HEADER_SIZE) s = Ret s' /\
    exists s'' p, dalloc fuel size s' = Ret (s'', p) /\ p <> 0.
Proof.
  intros Hok Hin Hu Hf Hle.
  destruct (dfree_live fuel s l x h Hok Hin Hu Hf)
    as (s' & l' & Hd & Hok' & _ & _ & Hlen).
  exists s'. split; [done|].
  destruct (heap_ok_elem _ _ _ _ Hok Hin) as (Hx0 & Hxe & Hxd & _).
  assert (Hbh : wrap64 (x + HEADER_SIZE - HEADER_SIZE) = x).
  { unwrap. rewrite Z.mod_small; lia. }
  destruct (dfree_step _ _ _ _ _ Hok Hd) as (_ & (_ & _ & Hb1 & _) & _).
  pose proof Hok' as (_ & _ & Hb2 & _).
  rewrite Hbh in Hb1. pose proof (lseg_det _ _ _ _ Hb2 Hb1) as ->.
  assert (HE : Exists (fun b => used b.2 = false /\ required_size size <= data_size b.2)
                 (coalesce_list (free_at x l))).
  { destruct Hok as (_ & _ & _ & Hc).
    pose proof (free_at_contiguous x l _ _ Hc) as Hc'.
    assert (Hfx : (x, mark_free h) ∈ free_at x l).
    { unfold free_at. apply list_elem_of_fmap. exists (x, h). simpl.
      by rewrite Z.eqb_refl. }
    destruct (free_at x l) as [|cur rest] eqn:E; [by apply elem_of_nil in Hfx|].
    assert (Hext : PHYSTOP - base < 2 ^ 32) by (rewrite heap_base_eq; lia).
    destruct (coal_covers rest cur _ _ _ Hext Hc' Hfx eq_refl)
      as (g & Hg & Hgu & Hgd).
    apply Exists_exists. exists g. simpl in *. split; [done|]. split; [done|lia]. }
  apply first_fit_Exists in HE.
  rewrite (dalloc_enough _ _ _ _ Hb2) by lia. unfold dalloc_result.
  destruct (first_fit _ _) as [[[l1 [c k]] l2]|] eqn:Hff; [|done].
  apply first_fit_Some in Hff as (Hl & _ & _).
  destruct (heap_ok_elem s' _ c k Hok') as (Hc0 & Hce & Hdk & _).
  { rewrite Hl. apply elem_of_app. right. left. }
  eexists _, _. split; [done|]. unwrap. rewrite Z.mod_small; lia.
Qed.

End Invariants.

(** C7. Fatal errors of [dfree]: it panics with the misalignment message,
    in the untouched state, exactly when [p - HEADER_SIZE] is not a
    multiple of 16 -- as for any pointer one byte off an aligned one --
    and with the invalid-address message, lock released and headers
    untouched, exactly when the aligned candidate is no header of the
    sequence; in neither case does the call return. *)
Theorem dfree_fatal_errors fuel p s l :
  blocks s l -> (length l < fuel)%nat ->
  let misaligned := (p - HEADER_SIZE) mod ALIGNMENT_SIZE <> 0 in
  let unknown := wrap64 (p - HEADER_SIZE) ∉ l.*1 in
  (dfree fuel p s = Panic MisalignedAddress s <-> misaligned) /\
  (dfree fuel p s = Panic UnknownAddress (release s) <-> ~ misaligned /\ unknown) /\
  (misaligned \/ unknown -> forall s', dfree fuel p s <> Ret s') /\
  (~ misaligned ->
     dfree fuel (p + 1) s = Panic MisalignedAddress s /\
     dfree fuel (p - 1) s = Panic MisalignedAddress s).
Proof.
  intros Hb Hf. cbv zeta. unfold ALIGNMENT_SIZE.
  rewrite <- (wrap64_mod16 (p - HEADER_SIZE)). fold ALIGNMENT_SIZE.
  set (bh := wrap64 (p - HEADER_SIZE)).
  assert (Hmis : forall q, wrap64 (q - HEADER_SIZE) mod ALIGNMENT_SIZE <> 0 ->
                           dfree fuel q s = Panic MisalignedAddress s).
  { intros q Hq. unfold dfree. apply Z.eqb_neq in Hq. by rewrite Hq. }
  destruct (dfree_spec fuel p s l Hb)
    as [[Hal H]|[(Hal & Hin & H)|[(Hal & Hin & m' & H & _)|[Hle _]]]];
    [| | |lia]; fold bh in Hal; try fold bh in Hin; rewrite H.
  - split; [tauto|]. split; [split; [done|tauto]|]. split; [done|tauto].
  - split; [split; [done|tauto]|]. split; [tauto|]. split; [done|].
    intros _. split; apply Hmis; clear -Hal; subst bh; unwrap;
      Z.div_mod_to_equations; lia.
  - split; [split; [done|tauto]|]. split; [split; [done|tauto]|].
    split; [tauto|].
    intros _. split; apply Hmis; clear -Hal; subst bh; unwrap;
      Z.div_mod_to_equations; lia.
Qed.

(** ** The lock and the heap base across calls *)

Lemma dalloc_scan_lock fuel size r s : forall a s' p,
  dalloc_scan fuel size r s a = Ret (s', p) ->
  lock s' = false /\ start s' = start s.
Proof.
  induction fuel as [|fuel IH]; intros a s' p; simpl; [done|].
  destruct (a =? 0); [by intros [= <- _]|].
  destruct (mem s !! a) as [c|]; [|done].
  destruct (negb (used c) && _); [by intros [= <- _]|]. apply IH.
Qed.

Lemma coalesce_loop_no_panic fuel : forall m a msg s,
  coalesce_loop fuel m a <> Panic msg s.
Proof.
  induction fuel as [|fuel IH]; intros m a msg s; simpl; [done|].
  destruct (a =? 0); [done|]. destruct (m !! a) as [c|]; [|done].
  destruct (next c =? 0); [done|]. destruct (used c); [apply IH|].
  destruct (m !! next c) as [n|]; [|done]. destruct (used n); apply IH.
Qed.

Lemma dfree_scan_lock fuel cfuel bh s : forall a,
  match dfree_scan fuel cfuel bh s a with
  | Ret s' => lock s' = false /\ start s' = start s
  | Panic msg s' => msg = UnknownAddress /\ s' = release s
  | _ => True
  end.
Proof.
  induction fuel as [|fuel IH]; intros a; simpl; [done|].
  destruct (a =? 0); [done|]. destruct (a =? bh).
  - destruct (mem s !! a); [|done]. unfold coalesce_blocks. simpl.
    pose proof (coalesce_loop_no_panic cfuel (set_used a false (mem s)) (start s)) as Hn.
    destruct (coalesce_loop _ _ _); try done. by destruct (Hn msg s0).
  - destruct (mem s !! a) as [c|]; [apply IH|done].
Qed.

(** X13. In any state whatever, a call of [dalloc] or [dfree] that returns
    has released the lock and kept the heap base; [dalloc] never panics,
    and [dfree] panics only with the misalignment message, before taking
    the lock and with the state untouched, or with the invalid-address
    message after releasing the lock, no header written. *)
Theorem calls_release_lock fuel s :
  (forall size s' p, dalloc fuel size s = Ret (s', p) ->
     lock s' = false /\ start s' = start s) /\
  (forall size msg s', dalloc fuel size s <> Panic msg s') /\
  (forall p s', dfree fuel p s = Ret s' ->
     lock s' = false /\ start s' = start s) /\
  (forall p msg s', dfree fuel p s = Panic msg s' ->
     msg = MisalignedAddress /\ s' = s \/
     msg = UnknownAddress /\ s' = release s).
Proof.
  split; [|split; [|split]].
  - intros size s' p Hr. unfold dalloc in Hr.
    by apply dalloc_scan_lock in Hr.
  - intros size msg s'. unfold dalloc.
    generalize (start (acquire s)) as a.
    induction fuel as [|fuel IH]; intros a; simpl; [done|].
    destruct (a =? 0); [done|]. destruct (mem s !! a) as [c|]; [|done].
    destruct (negb (used c) && _); [done|]. apply IH.
  - intros p s' Hr. unfold dfree in Hr. destruct (negb _); [done|].
    pose proof (dfree_scan_lock fuel fuel (wrap64 (p - HEADER_SIZE))
                  (acquire s) (start (acquire s))) as H.
    by rewrite Hr in H.
  - intros p msg s' Hr. unfold dfree in Hr.
    destruct (negb _); [left; by injection Hr as <- <-|].
    pose proof (dfree_scan_lock fuel fuel (wrap64 (p - HEADER_SIZE))
                  (acquire s) (start (acquire s))) as H.
    rewrite Hr in H. by right.
Qed.

(** ** [print_int] *)

Lemma decimal_snoc bs b : decimal (bs ++ [b]) = 10 * decimal bs + (b - 48).
Proof. unfold decimal. by rewrite foldl_app. Qed.

(** The digit loop on a number that is not negative. *)
Lemma print_int_loop_spec fuel : forall num buf,
  0 <= num < 10 ^ Z.of_nat fuel -> (1 <= fuel)%nat ->
  exists ds,
    print_int_loop fuel num buf = Some (buf ++ ds) /\
    Forall (fun b => 48 <= b <= 57) ds /\
    decimal (reverse ds) = num /\
    (1 <= length ds <= fuel)%nat /\
    (num <> 0 -> last ds <> Some 48).
Proof.
  induction fuel as [|fuel IH]; intros num buf Hn Hf; [lia|].
  cbn [print_int_loop].
  rewrite Z.rem_mod_nonneg, Z.quot_div_nonneg by lia.
  assert (Hnum : num = 10 * (num / 10) + num mod 10) by (apply Z.div_mod; lia).
  assert (Hd : 0 <= num mod 10 < 10) by (apply Z.mod_pos_bound; lia).
  destruct (0 <? num / 10) eqn:Hq.
  - apply Z.ltb_lt in Hq.
    assert (Hf' : (1 <= fuel)%nat).
    { destruct fuel; [|lia]. simpl in Hn. lia. }
    destruct (IH (num / 10) (buf ++ [48 + num mod 10])) as (ds & Hr & Hdig & Hdec & Hlen & Hlast).
    { rewrite Nat2Z.inj_succ, Z.pow_succ_r in Hn by lia. lia. }
    { done. }
    exists ((48 + num mod 10) :: ds). split; [by rewrite Hr, <- app_assoc|].
    split; [apply Forall_cons; split; [lia|done]|].
    split; [|split; [simpl; lia|]].
    + rewrite reverse_cons, decimal_snoc, Hdec. lia.
    + intros _. destruct ds as [|d ds]; [simpl in Hlen; lia|].
      change (last ((48 + num mod 10) :: d :: ds)) with (last (d :: ds)).
      apply Hlast. lia.
  - apply Z.ltb_ge in Hq.
    assert (Hq0 : num / 10 = 0) by (pose proof (Z.div_pos num 10); lia).
    exists [48 + num mod 10]. split; [done|].
    split; [apply Forall_singleton; lia|]. split; [|split; [simpl; lia|]].
    + unfold decimal. simpl. lia.
    + intros Hne. simpl. intros [= H]. lia.
Qed.

(** More fuel does not change what the loop returns. *)
Lemma print_int_loop_mono n : forall fuel num buf r,
  (n <= fuel)%nat ->
  print_int_loop n num buf = Some r -> print_int_loop fuel num buf = Some r.
Proof.
  induction n as [|n IH]; intros fuel num buf r Hf Hr; [done|].
  destruct fuel as [|fuel]; [lia|]. cbn [print_int_loop] in *.
  destruct (0 <? Z.quot num 10); [|done]. apply IH; [lia|done].
Qed.

(** X22. [print_int] of a number from 0 to 2^31 - 1 writes at most ten
    characters, all of them decimal digits, with no leading zero unless
    the number is 0, and read as a decimal numeral they give the number
    back. *)
Theorem print_int_decimal fuel num :
  0 <= num < 2 ^ 31 -> (10 <= fuel)%nat ->
  exists bs,
    print_int fuel num = Some bs /\
    Forall (fun b => 48 <= b <= 57) bs /\
    decimal bs = num /\
    (1 <= length bs <= 10)%nat /\
    (num <> 0 -> head bs <> Some 48).
Proof.
  intros Hn Hf.
  destruct (print_int_loop_spec 10 num []) as (ds & Hr & Hdig & Hdec & Hlen & Hlast);
    [simpl; lia|lia|].
  apply (print_int_loop_mono _ fuel) in Hr as Hr'; [|done].
  exists (reverse ds). unfold print_int. rewrite Hr'. split; [done|].
  split; [by apply Forall_reverse|]. split; [done|].
  split; [by rewrite length_reverse|].
  intros Hne. rewrite head_reverse. by apply Hlast.
Qed.

(** X23. [print_int] of a negative number writes a single character, the
    one [-(num % 10)] places before ['0'] in the character set: the sign
    and all digits but the last are lost, and unless the number ends in 0
    what is written is no digit. *)
Theorem print_int_negative fuel num :
  num < 0 -> (1 <= fuel)%nat ->
  print_int fuel num = Some [48 + Z.rem num 10] /\
  39 <= 48 + Z.rem num 10 <= 48.
Proof.
  intros Hn Hf. destruct fuel as [|fuel]; [lia|].
  unfold print_int. cbn [print_int_loop].
  assert (Hq : Z.quot num 10 <= 0) by (Z.quot_rem_to_equations; lia).
  assert (Hr : -10 < Z.rem num 10 <= 0) by (Z.quot_rem_to_equations; lia).
  apply Z.ltb_ge in Hq. rewrite Hq. split; [done|lia].
Qed.

(** ** The 1 MiB heap of the concrete scenarios *)

Lemma walk_blocks fuel s l : walk fuel (mem s) (start s) = Some l -> blocks s l.
Proof.
  unfold blocks. generalize (start s) as a. revert l.
  induction fuel as [|fuel IH]; intros l a; simpl; [done|].
  destruct (a =? 0) eqn:Ha.
  - apply Z.eqb_eq in Ha as ->. intros [= <-]. constructor.
  - apply Z.eqb_neq in Ha. destruct (mem s !! a) as [h|] eqn:Hm; [|done].
    destruct (walk fuel (mem s) (next h)) as [t|] eqn:Hw; [|done].
    intros [= <-]. constructor; auto.
Qed.

Ltac region := vm_compute; intuition congruence.

Lemma fresh_ok :
  heap_ok PHYSTOP_xv6 HEAP_1MiB fresh
    [(2280652800, {| data_size := 1048560; used := false; next := 0 |})].
Proof. apply (dinit_ok PHYSTOP_xv6 HEAP_1MiB); region. Qed.

(** [allocate(100)] on the fresh heap: a used block of 112 bytes, then a
    free block of 1048560 - 128 bytes, 128 bytes further. *)
Lemma dalloc_100 : dalloc 2 100 fresh = Ret (fresh_100, 2280652816).
Proof. vm_compute. reflexivity. Qed.

Lemma fresh_100_ok :
  heap_ok PHYSTOP_xv6 HEAP_1MiB fresh_100
    [(2280652800, {| data_size := 112; used := true; next := 2280652928 |});
     (2280652928, {| data_size := 1048432; used := false; next := 0 |})].
Proof.
  split; [done|]. split; [done|]. split; [by apply (walk_blocks 3)|].
  simpl. region.
Qed.

Lemma dalloc_100_again : dalloc 3 100 fresh_100 = Ret (fresh_two, 2280652944).
Proof. vm_compute. reflexivity. Qed.

Lemma dfree_first : dfree 4 2280652816 fresh_two = Ret fresh_hole.
Proof. vm_compute. reflexivity. Qed.

Lemma fresh_hole_blocks :
  blocks fresh_hole
    [(2280652800, {| data_size := 112; used := false; next := 2280652928 |});
     (2280652928, {| data_size := 112; used := true; next := 2280653056 |});
     (2280653056, {| data_size := 1048304; used := false; next := 0 |})].
Proof. by apply (walk_blocks 4). Qed.

Lemma fresh_hole_reachable A :
  A 100 -> reachable_by A PHYSTOP_xv6 HEAP_1MiB fresh_hole.
Proof.
  intros HA.
  apply (reach_dfree _ _ _ fresh_two 4 2280652816 fresh_hole);
    [|lia|apply dfree_first].
  apply (reach_dalloc _ _ _ fresh_100 3 100 fresh_two 2280652944);
    [|lia|done|apply dalloc_100_again].
  apply (reach_dalloc _ _ _ fresh 2 100 fresh_100 2280652816);
    [|lia|done|apply dalloc_100].
  apply reach_dinit.
Qed.

(** [dalloc(2^32 - 1)] on the fresh heap. *)
Lemma dalloc_max : dalloc 2 4294967295 fresh = Ret (fresh_max, 2280652816).
Proof. vm_compute. reflexivity. Qed.

Lemma fresh_hole_ok :
  heap_ok PHYSTOP_xv6 HEAP_1MiB fresh_hole
    [(2280652800, {| data_size := 112; used := false; next := 2280652928 |});
     (2280652928, {| data_size := 112; used := true; next := 2280653056 |});
     (2280653056, {| data_size := 1048304; used := false; next := 0 |})].
Proof.
  split; [done|]. split; [done|]. split; [by apply (walk_blocks 4)|].
  simpl. region.
Qed.

(** [dalloc(97)] on the heap with a hole of 112 bytes in front. *)
Lemma dalloc_97 : dalloc 4 97 fresh_hole = Ret (fresh_refill, 2280653072).
Proof. vm_compute. reflexivity. Qed.

(** [dalloc(2^32 - 16)] on the fresh heap. *)
Lemma dalloc_wrap : dalloc 2 4294967280 fresh = Ret (fresh_knot, 2280652816).
Proof. vm_compute. reflexivity. Qed.

Lemma fresh_knot_reachable : reachable PHYSTOP_xv6 HEAP_1MiB fresh_knot.
Proof.
  apply (reach_dalloc _ _ _ fresh 2 4294967280 fresh_knot 2280652816);
    [apply reach_dinit|lia|done|apply dalloc_wrap].
Qed.

Lemma fresh_knot_knotted : knotted fresh_knot.
Proof.
  exists (fun a => a = 2280652800). split; [done|]. intros a ->.
  split; [done|]. eexists. split; [by vm_compute|]. done.
Qed.

Lemma fresh_knot_seq a : in_seq fresh_knot a -> a = 2280652800.
Proof.
  induction 1 as [|a h _ -> Hm _]; [done|].
  vm_compute in Hm. by injection Hm as <-.
Qed.

(** ** Requests near 2^32 *)

(** C9 on the code: for a request of 2^32 - 16 bytes the requirement the
    fit test uses is 0, where the exact rounding gives 2^32; for 2^32 - 1
    bytes it is 16, where the exact rounding gives 2^32 + 16. *)
Theorem required_size_wraps_to_zero :
  required_size 4294967280 = 0 /\
  round_up (4294967280 + HEADER_SIZE) ALIGNMENT_SIZE = 4294967296 /\
  required_size 4294967295 = 16 /\
  round_up (4294967295 + HEADER_SIZE) ALIGNMENT_SIZE = 4294967312.
Proof. by vm_compute. Qed.

(** X4. The requirement is the exact rounding precisely for requests of
    at most 2^32 - 32 bytes. *)
Theorem required_size_exact_iff size :
  0 <= size < 2 ^ 32 ->
  required_size size = round_up (size + HEADER_SIZE) ALIGNMENT_SIZE <->
  size <= 2 ^ 32 - 32.
Proof.
  intros Hs. split.
  - intros Heq. destruct (Z.le_gt_cases size (2 ^ 32 - 32)) as [|Hgt]; [done|].
    pose proof (required_size_wraps size ltac:(lia)). lia.
  - intros Hle. apply required_size_exact. lia.
Qed.

(** C1 on the code: [dalloc(2^32 - 16)] on the fresh 1 MiB heap returns a
    pointer and leaves a reachable state whose walk visits one header
    only, again and again; that block takes 2^32 bytes, not the 1 MiB of
    the heap, and no finite block sequence describes the heap. *)
Theorem conservation_lost_on_wrap :
  dalloc 2 4294967280 fresh = Ret (fresh_knot, 2280652816) /\
  reachable PHYSTOP_xv6 HEAP_1MiB fresh_knot /\
  (forall a, in_seq fresh_knot a -> a = start fresh_knot) /\
  mem fresh_knot !! start fresh_knot
  = Some {| data_size := 4294967280; used := true; next := start fresh_knot |} /\
  HEADER_SIZE + 4294967280 <> HEAP_1MiB /\
  (forall l, ~ blocks fresh_knot l).
Proof.
  split; [apply dalloc_wrap|]. split; [apply fresh_knot_reachable|].
  split; [apply fresh_knot_seq|]. split; [by vm_compute|]. split; [done|].
  intros l. apply knotted_no_blocks, fresh_knot_knotted.
Qed.


(** C3 on the code: [dalloc(2^32 - 1)] on the fresh 1 MiB heap returns a
    pointer, the address right after the header of the sole block, and
    marks that block used.  The requirement of the request is
    [round_up (2^32 - 1 + 16) 16 = 2^32 + 16] bytes, the block had 1048560:
    the block selected is no fit, and what is handed out holds not one
    byte of the 2^32 - 1 requested. *)
Theorem first_fit_takes_unfit_block_on_wrap :
  heap_ok PHYSTOP_xv6 HEAP_1MiB fresh
    [(2280652800, {| data_size := 1048560; used := false; next := 0 |})] /\
  dalloc 2 4294967295 fresh = Ret (fresh_max, 2280652800 + HEADER_SIZE) /\
  2280652800 + HEADER_SIZE <> 0 /\
  mem fresh_max !! 2280652800
  = Some {| data_size := 0; used := true; next := 2280652816 |} /\
  round_up (4294967295 + HEADER_SIZE) ALIGNMENT_SIZE = 4294967312 /\
  ~ (round_up (4294967295 + HEADER_SIZE) ALIGNMENT_SIZE <= 1048560).
Proof.
  split; [apply fresh_ok|]. split; [apply dalloc_max|]. split; [done|].
  split; [by vm_compute|]. split; [by vm_compute|]. by vm_compute.
Qed.

(** C6 on the code: on the fresh 1 MiB heap no block is free and holds the
    requirement of a request of 2^32 - 1 bytes, nor that of a request of
    2^32 - 16 bytes, both above the size of the whole heap; still
    [dalloc] returns a pointer for either, never null whatever the fuel,
    and the heap is not as it was. *)
Theorem out_of_memory_missed_on_wrap :
  heap_ok PHYSTOP_xv6 HEAP_1MiB fresh
    [(2280652800, {| data_size := 1048560; used := false; next := 0 |})] /\
  (forall size, size = 4294967295 \/ size = 4294967280 ->
     HEAP_1MiB < round_up (size + HEADER_SIZE) ALIGNMENT_SIZE /\
     Forall (fun b => ~ (used b.2 = false /\
                         round_up (size + HEADER_SIZE) ALIGNMENT_SIZE <= data_size b.2))
            [(2280652800, {| data_size := 1048560; used := false; next := 0 |})] /\
     (forall fuel s', dalloc fuel size fresh <> Ret (s', 0))) /\
  dalloc 2 4294967295 fresh = Ret (fresh_max, 2280652816) /\
  fresh_max <> fresh /\
  dalloc 2 4294967280 fresh = Ret (fresh_knot, 2280652816) /\
  fresh_knot <> fresh.
Proof.
  split; [apply fresh_ok|]. split.
  - intros size Hsize.
    assert (Hbig : HEAP_1MiB < round_up (size + HEADER_SIZE) ALIGNMENT_SIZE)
      by (destruct Hsize as [->| ->]; by vm_compute).
    split; [done|]. split.
    + constructor; [|constructor]. simpl. intros [_ Hle]. unfold HEAP_1MiB in Hbig. lia.
    + intros fuel s' Hd.
      destruct (dalloc_cases PHYSTOP_xv6 HEAP_1MiB ltac:(region) ltac:(region)
                  ltac:(region) _ _ _ _ _ _ fresh_ok Hd)
        as [(Hff & _)|(l1 & c & h & l2 & _ & _ & Hp & _)]; [|done].
      destruct Hsize as [->| ->]; by vm_compute in Hff.
  - split; [apply dalloc_max|]. split.
    + intros Heq. apply (f_equal (fun s => mem s !! 2280652800)) in Heq.
      by vm_compute in Heq.
    + split; [apply dalloc_wrap|].
      intros Heq. apply (f_equal (fun s => mem s !! 2280652800)) in Heq.
      by vm_compute in Heq.
Qed.

(** C5 on the code: after the one successful call [dalloc(2^32 - 16)] on
    the fresh 1 MiB heap, [dfree] of the pointer returned never leaves its
    loops, whatever the fuel: the heap does not come back to a single free
    block. *)
Theorem reclaim_stuck_on_wrap :
  dalloc_all 2 [4294967280] fresh = Ret (fresh_knot, [2280652816]) /\
  (forall fuel, dfree fuel 2280652816 fresh_knot = Diverge) /\
  (forall fuel s', dfree_all fuel [2280652816] fresh_knot <> Ret s').
Proof.
  assert (Hd : forall fuel, dfree fuel 2280652816 fresh_knot = Diverge).
  { intros fuel. by rewrite (knotted_dfree _ _ _ fresh_knot_knotted). }
  split; [vm_compute; reflexivity|]. split; [done|].
  intros fuel s'. simpl. by rewrite Hd.
Qed.

(** C4 as stated fails: on the fresh 1 MiB heap no call
    [dalloc(HEAP_SIZE - HEADER_SIZE)] returns a pointer. *)
Lemma whole_heap_request_fails :
  ~ exists fuel s' p,
      dalloc fuel (HEAP_1MiB - HEADER_SIZE) fresh = Ret (s', p) /\ p <> 0.
Proof.
  intros (fuel & s' & p & Hd & Hp).
  destruct (dalloc_cases PHYSTOP_xv6 HEAP_1MiB ltac:(region) ltac:(region)
              ltac:(region) _ _ _ _ _ _ fresh_ok Hd)
    as [(_ & ? & _)|(l1 & c & h & l2 & Hff & _)]; [done|].
  vm_compute in Hff. done.
Qed.

(** ** The theorems at work on the 1 MiB heap *)

Lemma dalloc_first_fit_exact_witness :
  exists l1 c h l2,
    [(2280652800, {| data_size := 112; used := false; next := 2280652928 |});
     (2280652928, {| data_size := 112; used := true; next := 2280653056 |});
     (2280653056, {| data_size := 1048304; used := false; next := 0 |})]
    = l1 ++ (c, h) :: l2 /\
    used h = false /\
    round_up (97 + HEADER_SIZE) ALIGNMENT_SIZE <= data_size h /\
    Forall (fun b => ~ (used b.2 = false /\
                        round_up (97 + HEADER_SIZE) ALIGNMENT_SIZE <= data_size b.2))
           l1 /\
    (forall x k,
       (x, k) ∈ [(2280652800, {| data_size := 112; used := false; next := 2280652928 |});
                 (2280652928, {| data_size := 112; used := true; next := 2280653056 |});
                 (2280653056, {| data_size := 1048304; used := false; next := 0 |})] ->
       x < c ->
       ~ (used k = false /\
          round_up (97 + HEADER_SIZE) ALIGNMENT_SIZE <= data_size k)) /\
    (exists h', mem fresh_refill !! c = Some h' /\ used h' = true) /\
    2280653072 = c + HEADER_SIZE.
Proof.
  apply (dalloc_first_fit_exact PHYSTOP_xv6 HEAP_1MiB ltac:(region) ltac:(region)
           ltac:(region) 4 97 fresh_hole _ fresh_refill 2280653072).
  - lia.
  - apply fresh_hole_ok.
  - apply dalloc_97.
  - lia.
Defined.

Lemma dalloc_out_of_memory_exact_witness :
  (exists s' p,
     dalloc 3 2000000 fresh_100 = Ret (s', p) /\
     (p = 0 <->
      Forall (fun b => ~ (used b.2 = false /\
                          round_up (2000000 + HEADER_SIZE) ALIGNMENT_SIZE <= data_size b.2))
        [(2280652800, {| data_size := 112; used := true; next := 2280652928 |});
         (2280652928, {| data_size := 1048432; used := false; next := 0 |})]) /\
     (HEAP_1MiB - HEADER_SIZE < round_up (2000000 + HEADER_SIZE) ALIGNMENT_SIZE ->
      p = 0) /\
     (p = 0 -> s' = fresh_100)) /\
  (HEAP_1MiB <= 2 ^ 32 - 32 -> dalloc 3 HEAP_1MiB fresh_100 = Ret (fresh_100, 0)).
Proof.
  apply (dalloc_out_of_memory_exact PHYSTOP_xv6 HEAP_1MiB ltac:(region) ltac:(region)
           ltac:(region) 3 2000000 fresh_100).
  - lia.
  - apply fresh_100_ok.
  - simpl. lia.
Defined.

Lemma dfree_fatal_errors_witness :
  let misaligned := (2280652817 - HEADER_SIZE) mod ALIGNMENT_SIZE <> 0 in
  let unknown :=
    wrap64 (2280652817 - HEADER_SIZE)
      ∉ [(2280652800, {| data_size := 112; used := true; next := 2280652928 |});
         (2280652928, {| data_size := 1048432; used := false; next := 0 |})].*1 in
  (dfree 3 2280652817 fresh_100 = Panic MisalignedAddress fresh_100 <-> misaligned) /\
  (dfree 3 2280652817 fresh_100 = Panic UnknownAddress (release fresh_100) <->
     ~ misaligned /\ unknown) /\
  (misaligned \/ unknown -> forall s', dfree 3 2280652817 fresh_100 <> Ret s') /\
  (~ misaligned ->
     dfree 3 (2280652817 + 1) fresh_100 = Panic MisalignedAddress fresh_100 /\
     dfree 3 (2280652817 - 1) fresh_100 = Panic MisalignedAddress fresh_100).
Proof.
  apply (dfree_fatal_errors 3 2280652817 fresh_100).
  - apply (walk_blocks 3). reflexivity.
  - simpl. lia.
Defined.

Lemma reachable_aligned_witness :
  (forall a, in_seq fresh a ->
     a mod 16 = 0 /\ exists h, mem fresh !! a = Some h /\ data_size h mod 16 = 0) /\
  (forall fuel size s' p,
     dalloc fuel size fresh = Ret (s', p) -> p mod 16 = 0).
Proof.
  apply (reachable_aligned PHYSTOP_xv6 HEAP_1MiB ltac:(region) ltac:(region) fresh).
  apply reach_dinit.
Defined.

Lemma dfree_twice_noop_witness : dfree 4 2280652816 fresh_hole = Ret fresh_hole.
Proof.
  apply (dfree_twice_noop PHYSTOP_xv6 HEAP_1MiB ltac:(region) ltac:(region)
           ltac:(region) ltac:(region) ltac:(region) 4 2280652816 fresh_hole
           [(2280652800, {| data_size := 112; used := false; next := 2280652928 |});
            (2280652928, {| data_size := 112; used := true; next := 2280653056 |});
            (2280653056, {| data_size := 1048304; used := false; next := 0 |})]
           {| data_size := 112; used := false; next := 2280652928 |}).
  - apply fresh_hole_reachable. exact I.
  - apply fresh_hole_blocks.
  - left.
  - reflexivity.
  - simpl. lia.
Defined.

Lemma dalloc_whole_heap_once_witness :
  (exists s1,
     dalloc 2 (HEAP_1MiB - 2 * HEADER_SIZE) fresh
     = Ret (s1, heap_base PHYSTOP_xv6 HEAP_1MiB + HEADER_SIZE) /\
     heap_base PHYSTOP_xv6 HEAP_1MiB + HEADER_SIZE <> 0 /\
     blocks s1 [(heap_base PHYSTOP_xv6 HEAP_1MiB,
                 {| data_size := HEAP_1MiB - HEADER_SIZE; used := true; next := 0 |})] /\
     dalloc 2 (HEAP_1MiB - 2 * HEADER_SIZE) s1 = Ret (s1, 0)) /\
  dalloc 2 (HEAP_1MiB - HEADER_SIZE) fresh = Ret (fresh, 0).
Proof.
  apply (dalloc_whole_heap_once PHYSTOP_xv6 HEAP_1MiB ltac:(region) ltac:(region)
           ltac:(region) ltac:(region) 2 boot).
  - vm_compute. intuition congruence.
  - lia.
Defined.

Lemma conservation_no_wrap_witness :
  exists l, blocks fresh_hole l /\ total l = HEAP_1MiB.
Proof.
  apply (conservation_no_wrap PHYSTOP_xv6 HEAP_1MiB ltac:(region) ltac:(region)
           ltac:(region) ltac:(region) fresh_hole).
  apply fresh_hole_reachable. vm_compute. congruence.
Defined.

Lemma dalloc_split_rule_witness :
  let r := round_up (100 + HEADER_SIZE) ALIGNMENT_SIZE in
  let rs := round_up 100 ALIGNMENT_SIZE in
  r = rs + HEADER_SIZE /\
  exists l1 c h l2,
    [(2280652800, {| data_size := 1048560; used := false; next := 0 |})]
    = l1 ++ (c, h) :: l2 /\
    2280652816 = c + HEADER_SIZE /\
    (r < data_size h ->
       blocks fresh_100
         (l1 ++ [ (c, {| data_size := rs; used := true; next := c + r |});
                  (c + r, {| data_size := data_size h - rs - HEADER_SIZE;
                             used := false; next := next h |}) ] ++ l2)) /\
    (r = data_size h ->
       blocks fresh_100 (l1 ++ (c, mark_used h) :: l2) /\
       length (l1 ++ (c, mark_used h) :: l2)
       = length [(2280652800, {| data_size := 1048560; used := false; next := 0 |})]).
Proof.
  apply (dalloc_split_rule PHYSTOP_xv6 HEAP_1MiB ltac:(region) ltac:(region)
           ltac:(region) 2 100 fresh _ fresh_100 2280652816).
  - apply fresh_ok.
  - lia.
  - vm_compute. reflexivity.
  - lia.
Defined.

Lemma full_reclaim_no_wrap_witness :
  exists s',
    dfree_all 4 [2280652944; 2280652816] fresh_two = Ret s' /\
    blocks s' [(heap_base PHYSTOP_xv6 HEAP_1MiB,
                {| data_size := HEAP_1MiB - HEADER_SIZE; used := false; next := 0 |})].
Proof.
  apply (full_reclaim_no_wrap PHYSTOP_xv6 HEAP_1MiB ltac:(region) ltac:(region)
           ltac:(region) ltac:(region) ltac:(region) 3 [100; 100] boot fresh_two
           [2280652816; 2280652944] [2280652944; 2280652816] 4).
  - repeat constructor; try lia; vm_compute; congruence.
  - vm_compute. reflexivity.
  - repeat constructor; lia.
  - apply perm_swap.
  - simpl. lia.
Defined.

Lemma required_size_exact_iff_witness :
  required_size 100 = round_up (100 + HEADER_SIZE) ALIGNMENT_SIZE <-> 100 <= 2 ^ 32 - 32.
Proof. apply (required_size_exact_iff 100). lia. Defined.

Lemma fresh_two_ok :
  heap_ok PHYSTOP_xv6 HEAP_1MiB fresh_two
    [(2280652800, {| data_size := 112; used := true; next := 2280652928 |});
     (2280652928, {| data_size := 112; used := true; next := 2280653056 |});
     (2280653056, {| data_size := 1048304; used := false; next := 0 |})].
Proof.
  split; [done|]. split; [done|]. split; [by apply (walk_blocks 4)|].
  simpl. region.
Qed.

Lemma k_fresh_ok :
  heap_ok PHYSTOP_xv6 HEAP_1MiB (heap k_fresh)
    [(heap_base PHYSTOP_xv6 HEAP_1MiB,
      {| data_size := HEAP_1MiB - HEADER_SIZE; used := false; next := 0 |})].
Proof. exact fresh_ok. Qed.

Lemma dalloc_dfree_round_trip_witness :
  exists s2,
    dfree 3 2280652816 fresh_100 = Ret s2 /\
    heap_ok PHYSTOP_xv6 HEAP_1MiB s2
      [(2280652800, {| data_size := 1048560; used := false; next := 0 |})] /\
    exists s3, dalloc 3 100 s2 = Ret (s3, 2280652816).
Proof.
  apply (dalloc_dfree_round_trip PHYSTOP_xv6 HEAP_1MiB ltac:(region) ltac:(region)
           ltac:(region) ltac:(region) 2 100 fresh).
  - apply fresh_ok.
  - simpl. done.
  - lia.
  - by vm_compute.
  - apply dalloc_100.
  - done.
  - simpl. lia.
Defined.

Lemma blocks_never_overlap_witness :
  (heap_base PHYSTOP_xv6 HEAP_1MiB <= 2280652928 /\
   2280652928 + HEADER_SIZE + 112 <= PHYSTOP_xv6) /\
  (forall y k,
     (y, k) ∈ [(2280652800, {| data_size := 112; used := false; next := 2280652928 |});
               (2280652928, {| data_size := 112; used := true; next := 2280653056 |});
               (2280653056, {| data_size := 1048304; used := false; next := 0 |})] ->
     2280652928 <> y ->
     2280652928 + HEADER_SIZE + 112 <= y \/ y + HEADER_SIZE + data_size k <= 2280652928).
Proof.
  apply (blocks_never_overlap PHYSTOP_xv6 HEAP_1MiB ltac:(region) ltac:(region)
           ltac:(region) ltac:(region) fresh_hole
           [(2280652800, {| data_size := 112; used := false; next := 2280652928 |});
            (2280652928, {| data_size := 112; used := true; next := 2280653056 |});
            (2280653056, {| data_size := 1048304; used := false; next := 0 |})]
           2280652928 {| data_size := 112; used := true; next := 2280653056 |}).
  - apply fresh_hole_reachable. exact I.
  - apply fresh_hole_blocks.
  - right. left.
Defined.

Lemma dalloc_payload_witness :
  exists l' h',
    heap_ok PHYSTOP_xv6 HEAP_1MiB fresh_100 l' /\
    (2280652816 - HEADER_SIZE, h') ∈ l' /\ used h' = true /\
    100 <= data_size h' /\
    2280652816 mod ALIGNMENT_SIZE = 0 /\
    heap_base PHYSTOP_xv6 HEAP_1MiB + HEADER_SIZE <= 2280652816 /\
    2280652816 + data_size h' <= PHYSTOP_xv6.
Proof.
  apply (dalloc_payload PHYSTOP_xv6 HEAP_1MiB ltac:(region) ltac:(region)
           ltac:(region) ltac:(region) 2 100 fresh
           [(2280652800, {| data_size := 1048560; used := false; next := 0 |})]).
  - apply fresh_ok.
  - lia.
  - apply dalloc_100.
  - done.
Defined.

Lemma dalloc_keeps_other_blocks_witness :
  exists l',
    heap_ok PHYSTOP_xv6 HEAP_1MiB fresh_two l' /\
    (forall x k,
       (x, k) ∈ [(2280652800, {| data_size := 112; used := true; next := 2280652928 |});
                 (2280652928, {| data_size := 1048432; used := false; next := 0 |})] ->
       x <> 2280652944 - HEADER_SIZE -> (x, k) ∈ l') /\
    (forall x k, (x, k) ∈ l' ->
       (x, k) ∈ [(2280652800, {| data_size := 112; used := true; next := 2280652928 |});
                 (2280652928, {| data_size := 1048432; used := false; next := 0 |})] \/
       x = 2280652944 - HEADER_SIZE \/
       (used k = false /\ 2280652944 + align_up 100 <= x)).
Proof.
  apply (dalloc_keeps_other_blocks PHYSTOP_xv6 HEAP_1MiB ltac:(region) ltac:(region)
           ltac:(region) 3 100 fresh_100
           [(2280652800, {| data_size := 112; used := true; next := 2280652928 |});
            (2280652928, {| data_size := 1048432; used := false; next := 0 |})]).
  - apply fresh_100_ok.
  - lia.
  - by vm_compute.
  - apply dalloc_100_again.
  - done.
Defined.

Lemma dfree_live_block_witness :
  exists s' l',
    dfree 4 (2280652800 + HEADER_SIZE) fresh_two = Ret s' /\
    heap_ok PHYSTOP_xv6 HEAP_1MiB s' l' /\ no_adjacent_free l' /\
    live [(2280652800, {| data_size := 112; used := true; next := 2280652928 |});
          (2280652928, {| data_size := 112; used := true; next := 2280653056 |});
          (2280653056, {| data_size := 1048304; used := false; next := 0 |})]
    ≡ₚ (2280652800 + HEADER_SIZE) :: live l' /\
    (forall y k,
       (y, k) ∈ [(2280652800, {| data_size := 112; used := true; next := 2280652928 |});
                 (2280652928, {| data_size := 112; used := true; next := 2280653056 |});
                 (2280653056, {| data_size := 1048304; used := false; next := 0 |})] ->
       used k = true -> y <> 2280652800 -> (y, k) ∈ l') /\
    (length l' <= 3)%nat.
Proof.
  apply (dfree_live_block PHYSTOP_xv6 HEAP_1MiB ltac:(region) ltac:(region)
           ltac:(region) ltac:(region) 4 fresh_two
           [(2280652800, {| data_size := 112; used := true; next := 2280652928 |});
            (2280652928, {| data_size := 112; used := true; next := 2280653056 |});
            (2280653056, {| data_size := 1048304; used := false; next := 0 |})]
           2280652800
           {| data_size := 112; used := true; next := 2280652928 |}).
  - apply fresh_two_ok.
  - left.
  - reflexivity.
  - simpl. lia.
Defined.

Lemma dfree_only_block_pointers_witness :
  (forall p s', 0 <= p < 2 ^ 64 -> dfree 3 p fresh_100 = Ret s' ->
     p - HEADER_SIZE
       ∈ [(2280652800, {| data_size := 112; used := true; next := 2280652928 |});
          (2280652928, {| data_size := 1048432; used := false; next := 0 |})].*1 /\
     heap_base PHYSTOP_xv6 HEAP_1MiB + HEADER_SIZE <= p <= PHYSTOP_xv6) /\
  ((2 < 3)%nat -> dfree 3 0 fresh_100 = Panic UnknownAddress fresh_100).
Proof.
  apply (dfree_only_block_pointers PHYSTOP_xv6 HEAP_1MiB ltac:(region) ltac:(region)
           ltac:(region) ltac:(region) ltac:(region) 3 fresh_100
           [(2280652800, {| data_size := 112; used := true; next := 2280652928 |});
            (2280652928, {| data_size := 1048432; used := false; next := 0 |})]).
  apply fresh_100_ok.
Defined.

Lemma coalesce_blocks_complete_witness :
  exists s' l',
    coalesce_blocks 4 fresh_hole = Ret s' /\
    heap_ok PHYSTOP_xv6 HEAP_1MiB s' l' /\ no_adjacent_free l' /\
    (forall x k,
       (x, k) ∈ [(2280652800, {| data_size := 112; used := false; next := 2280652928 |});
                 (2280652928, {| data_size := 112; used := true; next := 2280653056 |});
                 (2280653056, {| data_size := 1048304; used := false; next := 0 |})] ->
       used k = true -> (x, k) ∈ l') /\
    (length l' <= 3)%nat /\
    coalesce_blocks 4 s' = Ret s'.
Proof.
  apply (coalesce_blocks_complete PHYSTOP_xv6 HEAP_1MiB ltac:(region) ltac:(region)
           ltac:(region) 4 fresh_hole
           [(2280652800, {| data_size := 112; used := false; next := 2280652928 |});
            (2280652928, {| data_size := 112; used := true; next := 2280653056 |});
            (2280653056, {| data_size := 1048304; used := false; next := 0 |})]).
  - split; [done|]. split; [done|]. split; [apply fresh_hole_blocks|].
    simpl. region.
  - simpl. lia.
Defined.

Lemma payload_bytes_survive_witness :
  ram (with_heap fresh_two (with_heap fresh_100 k_hi)) !! 100
  = ram (with_heap fresh_100 k_hi) !! 100.
Proof.
  apply (payload_bytes_survive PHYSTOP_xv6 HEAP_1MiB ltac:(region) ltac:(region)
           ltac:(region) (with_heap fresh_100 k_hi)
           [(2280652800, {| data_size := 112; used := true; next := 2280652928 |});
            (2280652928, {| data_size := 1048432; used := false; next := 0 |})]
           (with_heap fresh_two (with_heap fresh_100 k_hi)) 100).
  - apply fresh_100_ok.
  - left. exists 3%nat, 100, 2280652944. unfold k_dalloc.
    change (heap (with_heap fresh_100 k_hi)) with fresh_100.
    by rewrite dalloc_100_again.
  - left. vm_compute. done.
Defined.

Lemma basic_test_restores_witness :
  exists k',
    basic_test 3 k_fresh = Ret k' /\
    heap_ok PHYSTOP_xv6 HEAP_1MiB (heap k')
      [(heap_base PHYSTOP_xv6 HEAP_1MiB,
        {| data_size := HEAP_1MiB - HEADER_SIZE; used := false; next := 0 |})] /\
    ((exists p, p <> 0 /\
        Exists (fun b => used b.2 = false /\ 128 <= data_size b.2)
          [(heap_base PHYSTOP_xv6 HEAP_1MiB,
            {| data_size := HEAP_1MiB - HEADER_SIZE; used := false; next := 0 |})] /\
        console k' = console k_fresh ++
          [("Entering basic_test...\n", []);
           ("Allocated address: %p\n", [p]);
           ("Basic test passed.\n\n", [])]) \/
     (Forall (fun b => ~ (used b.2 = false /\ 128 <= data_size b.2))
        [(heap_base PHYSTOP_xv6 HEAP_1MiB,
          {| data_size := HEAP_1MiB - HEADER_SIZE; used := false; next := 0 |})] /\
      console k' = console k_fresh ++
          [("Entering basic_test...\n", []);
           ("Basic test failed: unable to allocate memory.\n\n", [])])).
Proof.
  apply (basic_test_restores PHYSTOP_xv6 HEAP_1MiB ltac:(region) ltac:(region)
           ltac:(region) ltac:(region) 3 k_fresh
           [(heap_base PHYSTOP_xv6 HEAP_1MiB,
             {| data_size := HEAP_1MiB - HEADER_SIZE; used := false; next := 0 |})]).
  - apply k_fresh_ok.
  - simpl. done.
  - simpl. lia.
Defined.

Lemma boundary_test_restores_witness :
  exists k',
    boundary_test HEAP_1MiB 3 k_fresh = Ret k' /\
    heap_ok PHYSTOP_xv6 HEAP_1MiB (heap k')
      [(heap_base PHYSTOP_xv6 HEAP_1MiB,
        {| data_size := HEAP_1MiB - HEADER_SIZE; used := false; next := 0 |})] /\
    ((Exists (fun b => used b.2 = false /\ HEAP_1MiB - 112 <= data_size b.2)
        [(heap_base PHYSTOP_xv6 HEAP_1MiB,
          {| data_size := HEAP_1MiB - HEADER_SIZE; used := false; next := 0 |})] /\
      console k' = console k_fresh ++
        [("Entering boundary_test...\n", []);
         ("Allocated very large memory.\n", []);
         ("Allocated memory exceeded heap size.\n", []);
         ("Allocated very small memory.\n", []);
         ("Boundary test passed.\n\n", [])]) \/
     (Forall (fun b => ~ (used b.2 = false /\ HEAP_1MiB - 112 <= data_size b.2))
        [(heap_base PHYSTOP_xv6 HEAP_1MiB,
          {| data_size := HEAP_1MiB - HEADER_SIZE; used := false; next := 0 |})] /\
      console k' = console k_fresh ++
        [("Entering boundary_test...\n", []);
         ("Failed to allocate very large memory.\n", []);
         ("Boundary test failed.\n\n", [])])).
Proof.
  apply (boundary_test_restores PHYSTOP_xv6 HEAP_1MiB ltac:(region) ltac:(region)
           ltac:(region) ltac:(region) ltac:(region) 3 k_fresh
           [(heap_base PHYSTOP_xv6 HEAP_1MiB,
             {| data_size := HEAP_1MiB - HEADER_SIZE; used := false; next := 0 |})]).
  - vm_compute. intuition congruence.
  - apply k_fresh_ok.
  - simpl. done.
  - simpl. lia.
Defined.

Lemma random_test_restores_witness :
  exists k' passed failed,
    random_test 12 k_fresh = Ret k' /\
    heap_ok PHYSTOP_xv6 HEAP_1MiB (heap k')
      [(heap_base PHYSTOP_xv6 HEAP_1MiB,
        {| data_size := HEAP_1MiB - HEADER_SIZE; used := false; next := 0 |})] /\
    last (console k')
    = Some ("Random test completed. Passed: %d, Failed: %d.\n\n", [passed; failed]) /\
    passed + failed = 10 /\ 0 <= passed /\ 0 <= failed /\
    (327856 <= HEAP_1MiB -> passed = 10).
Proof.
  apply (random_test_restores PHYSTOP_xv6 HEAP_1MiB ltac:(region) ltac:(region)
           ltac:(region) ltac:(region) 12 k_fresh).
  - apply k_fresh_ok.
  - lia.
Defined.

Lemma stress_test_restores_witness :
  exists k',
    stress_test 257 k_fresh = Ret k' /\
    heap_ok PHYSTOP_xv6 HEAP_1MiB (heap k')
      [(heap_base PHYSTOP_xv6 HEAP_1MiB,
        {| data_size := HEAP_1MiB - HEADER_SIZE; used := false; next := 0 |})] /\
    last (console k')
    = Some ("Stress test completed. \n%d allocations and deallocations attempted. \nPassed: %d, Failed: %d.\n\n",
            [255; Z.min 255 ((HEAP_1MiB - 16) / 65568);
             255 - Z.min 255 ((HEAP_1MiB - 16) / 65568)]).
Proof.
  apply (stress_test_restores PHYSTOP_xv6 HEAP_1MiB ltac:(region) ltac:(region)
           ltac:(region) ltac:(region) 257 k_fresh).
  - apply k_fresh_ok.
  - lia.
Defined.

Lemma my_strcpy_copies_witness :
  exists k',
    my_strcpy 3 k_hi 200 100 = Ret (200, k') /\
    holds (ram k') 200 ([104; 105] ++ [0]) /\
    (forall a, ~ (200 <= a <= 200 + Z.of_nat (length [104; 105])) ->
       ram k' !! a = ram k_hi !! a) /\
    (forall a, a + HEADER_SIZE <= 200 \/ 200 + Z.of_nat (length [104; 105]) < a ->
       mem (heap k') !! a = mem (heap k_hi) !! a).
Proof.
  apply (my_strcpy_copies 3 k_hi 200 100 [104; 105]).
  - simpl. done.
  - repeat constructor; done.
  - lia.
  - simpl. lia.
  - lia.
  - simpl. lia.
  - right. simpl. lia.
  - simpl. lia.
Defined.

Lemma cmp_spec_witness :
  exists r,
    cmp 3 k_hi 100 100 2 = Ret r /\ (r = 0 \/ r = 1) /\
    (r = 1 <-> forall j, 0 <= j < 2 ->
                 peek (wrap64 (100 + j)) k_hi = peek (wrap64 (100 + j)) k_hi).
Proof.
  apply (cmp_spec 3 k_hi 100 100 2).
  - lia.
  - simpl. lia.
  - intros j Hj. assert (j = 0 \/ j = 1) as [-> | ->] by lia; split; by eexists.
Defined.

Lemma strcpy_then_cmp_witness :
  exists k',
    my_strcpy 3 k_hi 200 100 = Ret (200, k') /\
    cmp 3 k' 200 100 (Z.of_nat (length [104; 105])) = Ret 1.
Proof.
  apply (strcpy_then_cmp 3 k_hi 200 100 [104; 105]).
  - simpl. done.
  - repeat constructor; done.
  - lia.
  - simpl. lia.
  - lia.
  - simpl. lia.
  - right. simpl. lia.
  - simpl. lia.
  - simpl. lia.
Defined.

Lemma print_int_decimal_witness :
  exists bs,
    print_int 10 42 = Some bs /\
    Forall (fun b => 48 <= b <= 57) bs /\
    decimal bs = 42 /\
    (1 <= length bs <= 10)%nat /\
    (42 <> 0 -> head bs <> Some 48).
Proof. apply (print_int_decimal 10 42); lia. Defined.

Lemma print_int_negative_witness :
  print_int 1 (-7) = Some [48 + Z.rem (-7) 10] /\
  39 <= 48 + Z.rem (-7) 10 <= 48.
Proof. apply (print_int_negative 1 (-7)); lia. Defined.

Lemma reachable_coalesced_witness :
  no_adjacent_free
    [(2280652800, {| data_size := 112; used := false; next := 2280652928 |});
     (2280652928, {| data_size := 112; used := true; next := 2280653056 |});
     (2280653056, {| data_size := 1048304; used := false; next := 0 |})] /\
  total
    [(2280652800, {| data_size := 112; used := false; next := 2280652928 |});
     (2280652928, {| data_size := 112; used := true; next := 2280653056 |});
     (2280653056, {| data_size := 1048304; used := false; next := 0 |})]
  = HEAP_1MiB.
Proof.
  apply (reachable_coalesced PHYSTOP_xv6 HEAP_1MiB ltac:(region) ltac:(region)
           ltac:(region) ltac:(region) fresh_hole).
  - apply fresh_hole_reachable. exact I.
  - apply fresh_hole_blocks.
Defined.

Lemma reachable_never_faults_witness :
  (forall size, dalloc 5 size fresh_knot <> Fault) /\
  (forall p, dfree 5 p fresh_knot <> Fault).
Proof.
  apply (reachable_never_faults PHYSTOP_xv6 HEAP_1MiB ltac:(region) ltac:(region)
           ltac:(region) ltac:(region) fresh_knot 5).
  apply fresh_knot_reachable.
Defined.

Lemma dfree_makes_room_witness :
  exists s',
    dfree 4 (2280652800 + HEADER_SIZE) fresh_two = Ret s' /\
    exists s'' p, dalloc 4 50 s' = Ret (s'', p) /\ p <> 0.
Proof.
  apply (dfree_makes_room PHYSTOP_xv6 HEAP_1MiB ltac:(region) ltac:(region)
           ltac:(region) ltac:(region) 4 fresh_two
           [(2280652800, {| data_size := 112; used := true; next := 2280652928 |});
            (2280652928, {| data_size := 112; used := true; next := 2280653056 |});
            (2280653056, {| data_size := 1048304; used := false; next := 0 |})]
           2280652800 {| data_size := 112; used := true; next := 2280652928 |} 50).
  - apply fresh_two_ok.
  - left.
  - reflexivity.
  - simpl. lia.
  - by vm_compute.
Defined.

Lemma k_boot_literals :
  literal PHYSTOP_xv6 HEAP_1MiB k_boot 2147487744 hello /\
  literal PHYSTOP_xv6 HEAP_1MiB k_boot 2147487808 love /\
  literal PHYSTOP_xv6 HEAP_1MiB k_boot 2147487872 march.
Proof.
  split; [|split];
    (split; [vm_compute; repeat split|];
     split; [vm_compute; repeat (constructor; [done|]); constructor|];
     split; [done|]; split; [by vm_compute|left; by vm_compute]).
Qed.

Lemma overwrite_test_passes_witness :
  exists k',
    overwrite_test 2147487744 2147487808 2147487872 53 k_lit = Ret k' /\
    heap_ok PHYSTOP_xv6 HEAP_1MiB (heap k')
      [(heap_base PHYSTOP_xv6 HEAP_1MiB,
        {| data_size := HEAP_1MiB - HEADER_SIZE; used := false; next := 0 |})] /\
    console k' = console k_lit ++
      [("Entering overwrite_test...\n", []);
       ("String %d: %s\n", [1; 2147487744]);
       ("String %d: %s\n", [2; 2147487808]);
       ("String %d: %s\n", [3; 2147487872]);
       ("Overwrite test passed.\n\n", [])].
Proof.
  apply (overwrite_test_passes PHYSTOP_xv6 HEAP_1MiB ltac:(region) ltac:(region)
           ltac:(region) ltac:(region) 2147487744 2147487808 2147487872 53 k_lit).
  - apply k_fresh_ok.
  - by vm_compute.
  - apply k_boot_literals.
  - apply k_boot_literals.
  - apply k_boot_literals.
  - lia.
Defined.

Lemma memtest_passes_witness :
  exists k' out,
    memtest PHYSTOP_xv6 HEAP_1MiB 2147487744 2147487808 2147487872 257 k_boot
    = Ret (0, k') /\
    heap_ok PHYSTOP_xv6 HEAP_1MiB (heap k')
      [(heap_base PHYSTOP_xv6 HEAP_1MiB,
        {| data_size := HEAP_1MiB - HEADER_SIZE; used := false; next := 0 |})] /\
    console k' = console k_boot ++ out /\
    ("Basic test passed.\n\n", []) ∈ out /\
    ("Boundary test passed.\n\n", []) ∈ out /\
    (exists passed failed,
       ("Random test completed. Passed: %d, Failed: %d.\n\n", [passed; failed]) ∈ out /\
       passed + failed = 10) /\
    ("Stress test completed. \n%d allocations and deallocations attempted. \nPassed: %d, Failed: %d.\n\n",
     [255; Z.min 255 ((HEAP_1MiB - 16) / 65568);
      255 - Z.min 255 ((HEAP_1MiB - 16) / 65568)]) ∈ out /\
    last out = Some ("Overwrite test passed.\n\n", []).
Proof.
  apply (memtest_passes PHYSTOP_xv6 HEAP_1MiB ltac:(region) ltac:(region)
           ltac:(region) ltac:(region) ltac:(region)
           2147487744 2147487808 2147487872 257 k_boot).
  - vm_compute. intuition congruence.
  - apply k_boot_literals.
  - apply k_boot_literals.
  - apply k_boot_literals.
  - lia.
Defined.
